(** * NameTag feature processors

    A shallow embedding of [src/features/feature_processor_instances.cpp]:
    the window emission macros, the thirteen feature processors and the
    properties of the feature ids they emit. *)

From Stdlib Require Import Ascii String ZArith Lia Floats.
From stdpp Require Import base option list gmap strings.

Local Open Scope Z_scope.

(** ** Machine integers

    [ner_feature], [entity_type], [bilou_type] and the loop counters are
    32-bit [unsigned]; [window] and the macro-local positions are [int].
    Both are carried as [Z]; unsigned arithmetic wraps modulo [2^32]. *)

Definition wrap32 (z : Z) : Z := z mod 2 ^ 32.

(** Conversion [int(u)] of an [unsigned] value. *)
Definition to_int (u : Z) : Z := if u <? 2 ^ 31 then u else u - 2 ^ 32.

(** The values an [int] can hold; signed arithmetic leaving this range is
    undefined in C++ and the model fails there. *)
Definition in_int (z : Z) : bool := (- 2 ^ 31 <=? z) && (z <? 2 ^ 31).

Definition ner_feature := Z.
Definition entity_type := Z.
Definition bilou_type := Z.

(** Modelled from the spec: the sentinels and the BILOU numbering are
    declared in headers outside this file.  The "unknown" sentinels are the
    all-ones value of their unsigned type and the five BILOU states are
    numbered in the order of their letters. *)
Definition ner_feature_unknown : ner_feature := 4294967295.
Definition entity_type_unknown : entity_type := 4294967295.
Definition bilou_type_unknown : bilou_type := 4294967295.
Definition bilou_type_B : bilou_type := 0.
Definition bilou_type_I : bilou_type := 1.
Definition bilou_type_L : bilou_type := 2.
Definition bilou_type_O : bilou_type := 3.
Definition bilou_type_U : bilou_type := 4.
Definition bilou_type_total : Z := 5.

(** ** The sentence model *)

Record ner_word := Ner_word {
  form : string;
  raw_lemma : string;
  lemma_id : string;
  lemma_comments : string;
  tag : string }.

(** One slot of [local.bilou]: a [double] probability and an entity. *)
Record bilou_probability := Bilou_probability {
  probability : float;
  entity : entity_type }.

Record probability_info := Probability_info {
  local_bilou : list bilou_probability;
  local_filled : bool }.

Record previous_stage_info := Previous_stage_info {
  ps_bilou : bilou_type;
  ps_entity : entity_type }.

Record ner_sentence := Ner_sentence {
  size : Z;
  words : list ner_word;
  features : list (list ner_feature);
  probabilities : list probability_info;
  previous_stage : list previous_stage_info }.

Definition set_features (s : ner_sentence) (fs : list (list ner_feature)) : ner_sentence :=
  Ner_sentence (size s) (words s) fs (probabilities s) (previous_stage s).

Definition set_probabilities (s : ner_sentence) (ps : list probability_info) : ner_sentence :=
  Ner_sentence (size s) (words s) (features s) ps (previous_stage s).

(** [size] fits an [int] and every per-token vector holds at least [size]
    entries (the vectors are only ever grown by [resize]). *)
Record sentence_wf (s : ner_sentence) : Prop := {
  wf_size : 0 <= size s < 2 ^ 31;
  wf_words : size s <= Z.of_nat (length (words s));
  wf_features : size s <= Z.of_nat (length (features s));
  wf_probabilities : size s <= Z.of_nat (length (probabilities s));
  wf_previous_stage : size s <= Z.of_nat (length (previous_stage s)) }.

(** ** Loops *)

(** [for (x = lo; <n more rounds>; x++) body], failing as soon as the body does. *)
Fixpoint for_loop {S : Type} (n : nat) (lo : Z) (body : Z -> S -> option S) (s : S) : option S :=
  match n with
  | O => Some s
  | Datatypes.S n' =>
      match body lo s with
      | Some s' => for_loop n' (lo + 1) body s'
      | None => None
      end
  end.

(** A range-based [for (auto&& x : l) body]. *)
Fixpoint for_each {A S : Type} (l : list A) (body : A -> S -> option S) (s : S) : option S :=
  match l with
  | [] => Some s
  | x :: l' =>
      match body x s with
      | Some s' => for_each l' body s'
      | None => None
      end
  end.

(** ** Window emission macros *)

(** [sentence.features[_w].emplace_back(x)]; indexing outside the vector is
    undefined and modelled as failure. *)
Definition features_emplace_back (_w : Z) (x : ner_feature) (s : ner_sentence) : option ner_sentence :=
  if (0 <=? _w) && (_w <? Z.of_nat (length (features s))) then
    Some (set_features s (alter (fun l => l ++ [x]) (Z.to_nat _w) (features s)))
  else None.

(** The macro [apply_in_range(I, Feature, Left, Right)]; [I] is the already
    converted [int(I)]. *)
Definition apply_in_range (I : Z) (Feature : ner_feature) (Left Right : Z)
    (s : ner_sentence) : option ner_sentence :=
  let _feature := Feature in
  if _feature =? ner_feature_unknown then Some s
  else if negb (in_int (I + Left) && in_int (I + Right) && in_int (I + Right + 1)) then None
  else
    let _w0 := if I + Left <? 0 then 0 else I + Left in
    let _end := if I + Right + 1 <? to_int (size s) then I + Right + 1 else to_int (size s) in
    for_loop (Z.to_nat (_end - _w0)) _w0
      (fun _w s => features_emplace_back _w (wrap32 (_feature + _w - I)) s) s.

(** The macro [apply_in_window(I, Feature)]. *)
Definition apply_in_window (window : Z) (I : Z) (Feature : ner_feature)
    (s : ner_sentence) : option ner_sentence :=
  apply_in_range I Feature (- window) window s.


(** The macro [apply_outer_words_in_window(Feature)]: the second centre,
    [sentence.size - 1 + _i], is computed in [unsigned] and converted by the
    [int(I)] of [apply_in_range]. *)
Definition apply_outer_words_in_window (window : Z) (Feature : ner_feature)
    (s : ner_sentence) : option ner_sentence :=
  let _outer_feature := Feature in
  if _outer_feature =? ner_feature_unknown then Some s
  else
    for_loop (Z.to_nat window) 1
      (fun _i s =>
         s ← apply_in_window window (- _i) _outer_feature s;
         apply_in_window window (to_int (wrap32 (size s - 1 + _i))) _outer_feature s) s.

(** ** What a processor has in scope

    The members [window] and [map] of the base class and the three reference
    parameters of [process_sentence]; [total_features] is a pointer, [None]
    when it is null. *)

Record frame := Frame {
  sentence : ner_sentence;
  window : Z;
  map : gmap string ner_feature;
  total_features : option ner_feature;
  buffer : string }.

Definition with_sentence (c : frame) (s : ner_sentence) : frame :=
  Frame s (window c) (map c) (total_features c) (buffer c).

Definition with_buffer (c : frame) (b : string) : frame :=
  Frame (sentence c) (window c) (map c) (total_features c) b.

Definition on_sentence (f : ner_sentence -> option ner_sentence) (c : frame) : option frame :=
  with_sentence c <$> f (sentence c).

(** [apply_in_window(i, f)] inside a processor, [i] an [unsigned] index. *)
Definition emit_in_window (i : Z) (f : ner_feature) (c : frame) : option frame :=
  on_sentence (apply_in_window (window c) (to_int i) f) c.

(** The macro [lookup_empty()], stored into a [ner_feature]. *)
Definition lookup_empty (c : frame) : ner_feature := wrap32 (window c).

(** Modelled from the spec: [feature_processor::lookup] is defined outside
    this file.  For the empty key it returns the sentinel [window]; a key
    already interned returns its centre id; a new key reserves the next
    [2w+1] ids of [total_features] and returns their centre, or, when no
    counter is supplied, the unknown sentinel (the one value the emission
    macros skip). *)
Definition lookup (key : string) (c : frame) : ner_feature * frame :=
  if decide (key = "") then (wrap32 (window c), c)
  else
    match map c !! key with
    | Some f => (f, c)
    | None =>
        match total_features c with
        | None => (ner_feature_unknown, c)
        | Some t =>
            let f := wrap32 (window c + t) in
            (f, Frame (sentence c) (window c) (<[key := f]> (map c))
                  (Some (wrap32 (t + (2 * window c + 1)))) (buffer c))
        end
    end.

(** The character a [const char*] into the [c_str()] of a string points at:
    the terminator at its end. *)
Definition peek (str : string) : Z :=
  match str with
  | EmptyString => 0
  | String a _ => Z.of_N (N_of_ascii a)
  end.

Definition push_back (str : string) (a : ascii) : string := String.append str (String a EmptyString).

(** ** Named entities *)

(** Modelled from the spec: [named_entity] is declared outside this file;
    [start] and [length] count tokens and are unsigned machine integers
    ([size_t], 64 bits), [type] is the short entity tag. *)
Module named_entity.
Record t := make { start : Z; length : Z; type : string }.
End named_entity.

Definition wrap64 (z : Z) : Z := z mod 2 ^ 64.

(** ** Processor state *)

(** The enumeration and the per-phrase record of the [gazetteers] class. *)
Module gazetteers.
Definition G : Z := 0.
Definition U : Z := 1.
Definition B : Z := 2.
Definition L : Z := 3.
Definition I : Z := 4.

Record gazetteer_info := make {
  features : list ner_feature;
  prefix_of_longer : bool }.
End gazetteers.

(** The result of [url_detector::detect]. *)
Inductive url_type := NO_URL | URL | EMAIL.

#[global] Instance url_type_eq_dec : EqDecision url_type.
Proof. solve_decision. Defined.

(** The closed set of processors the factory knows, each with the state its
    class adds to the base class. *)
Inductive feature_processor :=
| BrownClusters (clusters : list (list ner_feature))
| CzechAddContainers
| CzechLemmaTerm
| Form
| FormCapitalization
| Gazetteers (gazetteers_info : list gazetteers.gazetteer_info)
| Lemma
| NumericTimeValue
| PreviousStage
| RawLemma
| RawLemmaCapitalization
| Tag
| URLEmailDetector (url email : entity_type).

(** ** CzechAddContainers *)

Section czech_add_containers.
Import named_entity.

(** [entities[k]]; reading outside the vector is undefined. *)
Definition entity_at (entities : list named_entity.t) (k : Z) : option named_entity.t :=
  if k <? 0 then None else entities !! Z.to_nat k.

(** [j < entities.size() && entities[j].start == entities[j-1].start +
    entities[j-1].length && entities[j].type.compare(ty) == 0] *)
Definition continues (entities : list named_entity.t) (j : Z) (ty : string) : option bool :=
  if j <? Z.of_nat (List.length entities) then
    ej ← entity_at entities j;
    ej1 ← entity_at entities (j - 1);
    Some ((start ej =? wrap64 (start ej1 + length ej1)) && String.eqb (type ej) ty)
  else Some false.

(** [while (... continues ...) j++;] *)
Fixpoint skip_run (fuel : nat) (entities : list named_entity.t) (j : Z) (ty : string) : option Z :=
  match fuel with
  | O => None
  | S fuel' =>
      b ← continues entities j ty;
      if b : bool then skip_run fuel' entities (j + 1) ty else Some j
  end.

(** [!i || entities[i-1].start + entities[i-1].length < entities[i].start ||
    entities[i-1].type.compare(ty) != 0] *)
Definition not_preceded_by (entities : list named_entity.t) (i : Z) (ty : string) : option bool :=
  if i =? 0 then Some true
  else
    ei1 ← entity_at entities (i - 1);
    ei ← entity_at entities i;
    Some ((wrap64 (start ei1 + length ei1) <? start ei) || negb (String.eqb (type ei1) ty)).

(** [buffer.emplace_back(entities[i].start, entities[j-1].start +
    entities[j-1].length - entities[i].start, ty)] *)
Definition emplace_container (entities : list named_entity.t) (i j : Z) (ty : string)
    (buffer : list named_entity.t) : option (list named_entity.t) :=
  ei ← entity_at entities i;
  ej1 ← entity_at entities (j - 1);
  Some (buffer ++ [named_entity.make (start ei) (wrap64 (start ej1 + length ej1 - start ei)) ty]).

(** One round of the loop over [i]. *)
Definition process_entity (entities : list named_entity.t) (i : Z)
    (buffer : list named_entity.t) : option (list named_entity.t) :=
  let fuel := S (List.length entities) in
  ei ← entity_at entities i;
  (* P if ps+ pf+ *)
  first ← (if String.eqb (type ei) "pf" then not_preceded_by entities i "pf" else Some false);
  buffer ←
    (if first : bool then
       j ← skip_run fuel entities (i + 1) "pf";
       b ← continues entities j "ps";
       if b : bool then
         j ← skip_run fuel entities (j + 1) "ps";
         emplace_container entities i j "P" buffer
       else Some buffer
     else Some buffer);
  (* T if td tm ty | td tm *)
  b ← (if String.eqb (type ei) "td" then continues entities (i + 1) "tm" else Some false);
  buffer ←
    (if b : bool then
       let j := i + 2 in
       b ← continues entities j "ty";
       let j := if b : bool then j + 1 else j in
       emplace_container entities i j "T" buffer
     else Some buffer);
  (* T if !td tm ty *)
  first ← (if String.eqb (type ei) "tm" then not_preceded_by entities i "td" else Some false);
  buffer ←
    (if first : bool then
       b ← continues entities (i + 1) "ty";
       if b : bool then emplace_container entities i (i + 2) "T" buffer else Some buffer
     else Some buffer);
  Some (buffer ++ [ei]).

(** [czech_add_containers::process_entities]; the result is the pair of
    the two vectors passed by reference, [entities] and [buffer]. *)
Definition czech_add_containers_process_entities (entities buffer : list named_entity.t)
    : option (list named_entity.t * list named_entity.t) :=
  let buffer := [] in
  buffer ← for_loop (List.length entities) 0 (process_entity entities) buffer;
  Some (if (List.length entities <? List.length buffer)%nat then buffer else entities, buffer).
End czech_add_containers.

(** ** Sentence processors

    The libraries the processors call are outside this repository and are
    taken as parameters: UTF-8 decoding and the Unicode category table of
    unilib, and the URL detector. *)

Section process_sentence.
(** [utf8::decode(const char*& str)]: the code point read and the rest of
    the string; [0] at the terminator. *)
Variable utf8_decode : string -> Z * string.
(** [unicode::category] with the masks [unicode::Lut] and [unicode::Ll]. *)
Variable unicode_category : Z -> Z.
Variables unicode_Lut unicode_Ll : Z.
(** [url_detector::detect]. *)
Variable url_detector_detect : string -> url_type.

(** [sentence.words[i]], undefined outside the vector. *)
Definition word_at (c : frame) (i : Z) : option ner_word :=
  if i <? 0 then None else words (sentence c) !! Z.to_nat i.

(** [if (b) k] *)
Definition when (b : bool) (k : frame -> option frame) (c : frame) : option frame :=
  if b then k c else Some c.

(** The loop [for (unsigned i = 0; i < sentence.size; i++)]. *)
Definition for_tokens (body : Z -> frame -> option frame) (c : frame) : option frame :=
  for_loop (Z.to_nat (size (sentence c))) 0 body c.

(** *** BrownClusters *)

Definition brown_clusters_token (clusters : list (list ner_feature)) (i : Z) (c : frame)
    : option frame :=
  w ← word_at c i;
  match map c !! raw_lemma w with
  | Some it =>
      cluster ← (if it <? 0 then None else clusters !! Z.to_nat it);
      for_each cluster (fun feature c => emit_in_window i feature c) c
  | None => Some c
  end.

Definition brown_clusters_process_sentence (clusters : list (list ner_feature)) (c : frame)
    : option frame :=
  for_tokens (brown_clusters_token clusters) c.

(** *** CzechLemmaTerm *)

Definition czech_lemma_term_pos (i : Z) (lemma_comments : string) (pos : Z) (c : frame)
    : option frame :=
  a ← String.get (Z.to_nat pos) lemma_comments;
  b ← String.get (Z.to_nat (pos + 1)) lemma_comments;
  if Ascii.eqb a "_" && Ascii.eqb b ";" then
    d ← String.get (Z.to_nat (pos + 2)) lemma_comments;
    let c := with_buffer c (String d EmptyString) in
    let '(f, c) := lookup (buffer c) c in
    emit_in_window i f c
  else Some c.

Definition czech_lemma_term_token (i : Z) (c : frame) : option frame :=
  w ← word_at c i;
  for_loop (Z.to_nat (Z.of_nat (String.length (lemma_comments w)) - 2)) 0
    (czech_lemma_term_pos i (lemma_comments w)) c.

Definition czech_lemma_term_process_sentence (c : frame) : option frame :=
  for_tokens czech_lemma_term_token c.

(** *** Form, Lemma, RawLemma, Tag

    The four classes differ only in the field of the word they look up. *)

Definition field_token (field : ner_word -> string) (i : Z) (c : frame) : option frame :=
  w ← word_at c i;
  let '(f, c) := lookup (field w) c in
  emit_in_window i f c.

Definition field_process_sentence (field : ner_word -> string) (c : frame) : option frame :=
  c ← for_tokens (field_token field) c;
  on_sentence (apply_outer_words_in_window (window c) (lookup_empty c)) c.

Definition form_process_sentence : frame -> option frame := field_process_sentence form.
Definition lemma_process_sentence : frame -> option frame := field_process_sentence lemma_id.
Definition raw_lemma_process_sentence : frame -> option frame := field_process_sentence raw_lemma.
Definition tag_process_sentence : frame -> option frame := field_process_sentence tag.

(** *** FormCapitalization, RawLemmaCapitalization

    The two classes differ only in the field they scan. *)

(** The loop [for (bool first = true; (chr = utf8::decode(form)); first = false)];
    [fuel] bounds the number of code points read. *)
Fixpoint capitalization_scan (fuel : nat) (i : Z) (fst_cap : ner_feature) (str : string)
    (first was_upper was_lower : bool) (c : frame) : option (bool * bool * frame) :=
  match fuel with
  | O => None
  | S fuel' =>
      let '(chr, str) := utf8_decode str in
      if chr =? 0 then Some (was_upper, was_lower, c)
      else
        let category := unicode_category chr in
        let was_upper := was_upper || negb (Z.land category unicode_Lut =? 0) in
        let was_lower := was_lower || negb (Z.land category unicode_Ll =? 0) in
        c ← when (first && was_upper) (emit_in_window i fst_cap) c;
        capitalization_scan fuel' i fst_cap str false was_upper was_lower c
  end.

Definition capitalization_token (field : ner_word -> string)
    (fst_cap all_cap mixed_cap : ner_feature) (i : Z) (c : frame) : option frame :=
  w ← word_at c i;
  '(was_upper, was_lower, c) ←
    capitalization_scan (S (String.length (field w))) i fst_cap (field w) true false false c;
  c ← when (was_upper && negb was_lower) (emit_in_window i all_cap) c;
  when (was_upper && was_lower) (emit_in_window i mixed_cap) c.

Definition capitalization_process_sentence (field : ner_word -> string) (c : frame)
    : option frame :=
  let '(fst_cap, c) := lookup "f" (with_buffer c "f") in
  let '(all_cap, c) := lookup "a" (with_buffer c "a") in
  let '(mixed_cap, c) := lookup "m" (with_buffer c "m") in
  for_tokens (capitalization_token field fst_cap all_cap mixed_cap) c.

Definition form_capitalization_process_sentence : frame -> option frame :=
  capitalization_process_sentence form.
Definition raw_lemma_capitalization_process_sentence : frame -> option frame :=
  capitalization_process_sentence raw_lemma.

(** *** Gazetteers *)

(** [feature + role * (2*window + 1)]: the product is an [int]. *)
Definition role_feature (window : Z) (feature : ner_feature) (role : Z) : option ner_feature :=
  if in_int (2 * window) && in_int (2 * window + 1) && in_int (role * (2 * window + 1))
  then Some (wrap32 (feature + role * (2 * window + 1)))
  else None.

Definition emit_role (i : Z) (feature : ner_feature) (role : Z) (c : frame) : option frame :=
  f ← role_feature (window c) feature role;
  emit_in_window i f c.

Definition info_at (gazetteers_info : list gazetteers.gazetteer_info) (it : ner_feature)
    : option gazetteers.gazetteer_info :=
  if it <? 0 then None else gazetteers_info !! Z.to_nat it.

(** The body of [for (unsigned g = i; g <= j; g++)]. *)
Definition gazetteers_span (i j : Z) (feature : ner_feature) (g : Z) (c : frame) : option frame :=
  c ← emit_role g feature gazetteers.G c;
  emit_role g feature
    (if g =? i then gazetteers.B else if g =? j then gazetteers.L else gazetteers.I) c.

(** The loop [for (unsigned j = i + 1; gazetteers_info[it->second].prefix_of_longer
    && j < sentence.size; j++)], [it] the current entry of [map]. *)
Fixpoint gazetteers_extend (fuel : nat) (gazetteers_info : list gazetteers.gazetteer_info)
    (i j : Z) (it : ner_feature) (c : frame) : option frame :=
  match fuel with
  | O => None
  | S fuel' =>
      info ← info_at gazetteers_info it;
      if gazetteers.prefix_of_longer info && (j <? size (sentence c)) then
        wi ← word_at c i;
        wj ← word_at c j;
        let c := if j =? i + 1 then with_buffer c (raw_lemma wi) else c in
        let c := with_buffer c (push_back (buffer c) " ") in
        let c := with_buffer c (String.append (buffer c) (raw_lemma wj)) in
        match map c !! buffer c with
        | None => Some c
        | Some it =>
            info ← info_at gazetteers_info it;
            c ← for_each (gazetteers.features info)
                  (fun feature c =>
                     for_loop (Z.to_nat (j - i + 1)) i (gazetteers_span i j feature) c) c;
            gazetteers_extend fuel' gazetteers_info i (j + 1) it c
        end
      else Some c
  end.

Definition gazetteers_token (gazetteers_info : list gazetteers.gazetteer_info) (i : Z)
    (c : frame) : option frame :=
  w ← word_at c i;
  match map c !! raw_lemma w with
  | None => Some c
  | Some it =>
      info ← info_at gazetteers_info it;
      c ← for_each (gazetteers.features info)
            (fun feature c =>
               c ← emit_role i feature gazetteers.G c;
               emit_role i feature gazetteers.U c) c;
      gazetteers_extend (S (Z.to_nat (size (sentence c) - (i + 1)))) gazetteers_info
        i (i + 1) it c
  end.

Definition gazetteers_process_sentence (gazetteers_info : list gazetteers.gazetteer_info)
    (c : frame) : option frame :=
  for_tokens (gazetteers_token gazetteers_info) c.

(** *** NumericTimeValue *)

(** The loop [for (...; *form; form++) { if ( *form < '0' || *form > '9') break;
    digit = true; num = num * 10 + *form - '0'; }] with [num] an [unsigned]. *)
Fixpoint scan_digits (str : string) (digit : bool) (num : Z) : string * bool * Z :=
  match str with
  | EmptyString => (str, digit, num)
  | String _ rest =>
      if peek str =? 0 then (str, digit, num)
      else if (peek str <? 48) || (57 <? peek str) then (str, digit, num)
      else scan_digits rest true (wrap32 (num * 10 + peek str - 48))
  end.

(** [form++] *)
Definition advance (str : string) : string :=
  match str with
  | EmptyString => EmptyString
  | String _ rest => rest
  end.

Definition number_time_value_token (hour minute time day month year : ner_feature)
    (i : Z) (c : frame) : option frame :=
  w ← word_at c i;
  let '(str, digit, num) := scan_digits (form w) false 0 in
  c ← when (digit && (peek str =? 0))
        (fun c =>
           (* We have a number *)
           c ← when (num <? 24) (emit_in_window i hour) c;
           c ← when (num <? 60) (emit_in_window i minute) c;
           c ← when ((1 <=? num) && (num <=? 31)) (emit_in_window i day) c;
           c ← when ((1 <=? num) && (num <=? 12)) (emit_in_window i month) c;
           when ((1000 <=? num) && (num <=? 2200)) (emit_in_window i year) c) c;
  when (digit && (num <? 24) && ((peek str =? 46) || (peek str =? 58)))
    (fun c =>
       (* Maybe time *)
       let '(str, digit, num) := scan_digits (advance str) false 0 in
       when (digit && (peek str =? 0) && (num <? 60)) (emit_in_window i time) c) c.

Definition number_time_value_process_sentence (c : frame) : option frame :=
  let '(hour, c) := lookup "H" (with_buffer c "H") in
  let '(minute, c) := lookup "M" (with_buffer c "M") in
  let '(time, c) := lookup "t" (with_buffer c "t") in
  let '(day, c) := lookup "d" (with_buffer c "d") in
  let '(month, c) := lookup "m" (with_buffer c "m") in
  let '(year, c) := lookup "y" (with_buffer c "y") in
  for_tokens (number_time_value_token hour minute time day month year) c.

(** *** PreviousStage *)

Definition hex_digit (n : Z) : ascii :=
  default "0"%char (String.get (Z.to_nat n) "0123456789abcdef").

(** [for (; value; value >>= 4) str.push_back("0123456789abcdef"[value & 0xF])];
    eight rounds exhaust a non-negative [int]. *)
Fixpoint append_nibbles (fuel : nat) (str : string) (value : Z) : string :=
  match fuel with
  | O => str
  | S fuel' =>
      if value =? 0 then str
      else append_nibbles fuel' (push_back str (hex_digit (Z.land value 15))) (Z.shiftr value 4)
  end.

(** [append_encoded(str, value)], [value] an [int]; negating the least
    [int] is undefined. *)
Definition append_encoded (str : string) (value : Z) : option string :=
  if value <? 0 then
    if in_int (- value) then Some (append_nibbles 8 (push_back str "-") (- value)) else None
  else Some (append_nibbles 8 str value).

Definition previous_stage_at (c : frame) (i : Z) : option previous_stage_info :=
  if i <? 0 then None else previous_stage (sentence c) !! Z.to_nat i.

Definition previous_stage_token (i : Z) (c : frame) : option frame :=
  ps ← previous_stage_at c i;
  if ps_bilou ps =? bilou_type_unknown then Some c
  else
    let c := with_buffer c EmptyString in
    b ← append_encoded (buffer c) (to_int (ps_bilou ps));
    let c := with_buffer c (push_back b " ") in
    b ← append_encoded (buffer c) (to_int (ps_entity ps));
    let c := with_buffer c b in
    let '(f, c) := lookup (buffer c) c in
    on_sentence (apply_in_range (to_int i) f 1 (window c)) c.

Definition previous_stage_process_sentence (c : frame) : option frame :=
  for_tokens previous_stage_token c.

(** *** URLEmailDetector *)

Definition probabilities_at (c : frame) (i : Z) : option probability_info :=
  if i <? 0 then None else probabilities (sentence c) !! Z.to_nat i.

Definition url_email_detector_token (url email : entity_type) (i : Z) (c : frame)
    : option frame :=
  w ← word_at c i;
  let type := url_detector_detect (form w) in
  match type with
  | NO_URL => Some c
  | _ =>
      p ← probabilities_at c i;
      if local_filled p then Some c
      else
        (* We have found URL or email and the word has not yet been determined *)
        let bilou := (fun _ => Bilou_probability 0%float entity_type_unknown) <$> local_bilou p in
        let bilou :=
          <[Z.to_nat bilou_type_U := Bilou_probability 1%float
              (match type with EMAIL => email | _ => url end)]> bilou in
        Some (with_sentence c
                (set_probabilities (sentence c)
                   (<[Z.to_nat i := Probability_info bilou true]> (probabilities (sentence c)))))
  end.

Definition url_email_detector_process_sentence (url email : entity_type) (c : frame)
    : option frame :=
  for_tokens (url_email_detector_token url email) c.

(** *** Dispatch *)

(** The virtual call [processor->process_sentence(sentence, total_features,
    buffer)].  Modelled from the spec: the default of the base class, which
    [CzechAddContainers] inherits, is declared outside this file and does
    nothing. *)
Definition process_sentence (p : feature_processor) (c : frame) : option frame :=
  match p with
  | BrownClusters clusters => brown_clusters_process_sentence clusters c
  | CzechAddContainers => Some c
  | CzechLemmaTerm => czech_lemma_term_process_sentence c
  | Form => form_process_sentence c
  | FormCapitalization => form_capitalization_process_sentence c
  | Gazetteers gazetteers_info => gazetteers_process_sentence gazetteers_info c
  | Lemma => lemma_process_sentence c
  | NumericTimeValue => number_time_value_process_sentence c
  | PreviousStage => previous_stage_process_sentence c
  | RawLemma => raw_lemma_process_sentence c
  | RawLemmaCapitalization => raw_lemma_capitalization_process_sentence c
  | Tag => tag_process_sentence c
  | URLEmailDetector url email => url_email_detector_process_sentence url email c
  end.

End process_sentence.

(** ** Training-time parsing

    [split] and [parse_int] come from the utility headers outside this file
    and are parameters; a file is the list of lines [getline] yields, [None]
    when the stream cannot be opened.  The call of the base class,
    [feature_processor::parse], is defined outside this file as well: its
    outcome, the members [window] and [map] and the counter it leaves in
    [*total_features], is an argument ([None] when it returned [false]). *)

Record parse_state := Parse_state {
  parsed_window : Z;
  parsed_map : gmap string ner_feature;
  parsed_total_features : ner_feature }.

Section parse.
(** [split(text, sep, tokens)]: the tokens it leaves in [tokens]. *)
Variable split : string -> ascii -> list string.
(** [parse_int(str, value_name)]; [None] when it aborts. *)
Variable parse_int : string -> option Z.

(** *** Gazetteers *)

(** [!tokens[i][0]] *)
Definition first_is_nul (token : string) : bool := peek token =? 0.

(** [for (i...) if (!tokens[i][0]) tokens.erase(tokens.begin() + i--)] *)
Definition erase_empty (tokens : list string) : list string :=
  List.filter (fun token => negb (first_is_nul token)) tokens.

Record gazetteers_state := Gazetteers_state {
  gz_map : gmap string ner_feature;
  gz_info : list gazetteers.gazetteer_info }.

(** One round of [for (unsigned i = 0; i < tokens.size(); i++)]; [last] is
    [!(i + 1 < tokens.size())], [gazetteer] the phrase built so far. *)
Definition gazetteers_add_prefix (window : Z) (total_features : ner_feature)
    (gazetteer : string) (last : bool) (st : gazetteers_state) : option gazetteers_state :=
  let fresh := wrap32 (Z.of_nat (length (gz_info st))) in
  let '(it, m) :=
    match gz_map st !! gazetteer with
    | Some v => (v, gz_map st)
    | None => (fresh, <[gazetteer := fresh]> (gz_map st))
    end in
  let infos :=
    if it =? Z.of_nat (length (gz_info st))
    then gz_info st ++ [gazetteers.make [] false] else gz_info st in
  info ← (if it <? 0 then None else infos !! Z.to_nat it);
  let info :=
    if last then
      let f := wrap32 (total_features + window) in
      if bool_decide (f ∈ gazetteers.features info) then info
      else gazetteers.make (gazetteers.features info ++ [f]) (gazetteers.prefix_of_longer info)
    else gazetteers.make (gazetteers.features info) true in
  Some (Gazetteers_state m (<[Z.to_nat it := info]> infos)).

Fixpoint gazetteers_add_tokens (window : Z) (total_features : ner_feature) (first : bool)
    (gazetteer : string) (tokens : list string) (st : gazetteers_state)
    : option gazetteers_state :=
  match tokens with
  | [] => Some st
  | token :: rest =>
      let gazetteer := if first then gazetteer else push_back gazetteer " " in
      let gazetteer := String.append gazetteer token in
      st ← gazetteers_add_prefix window total_features gazetteer
             (match rest with [] => true | _ => false end) st;
      gazetteers_add_tokens window total_features false gazetteer rest st
  end.

(** The body of [while (getline(in, line))]. *)
Definition gazetteers_add_line (window : Z) (total_features : ner_feature) (line : string)
    (acc : Z * gazetteers_state) : option (Z * gazetteers_state) :=
  let '(longest, st) := acc in
  let tokens := erase_empty (split line " ") in
  let longest :=
    if longest <? Z.of_nat (length tokens) then wrap32 (Z.of_nat (length tokens)) else longest in
  st ← gazetteers_add_tokens window total_features true EmptyString tokens st;
  Some (longest, st).

(** [longest == 0 ? 0 : longest == 1 ? U+1 : longest == 2 ? L+1 : I+1] *)
Definition slots (longest : Z) : Z :=
  if longest =? 0 then 0
  else if longest =? 1 then gazetteers.U + 1
  else if longest =? 2 then gazetteers.L + 1
  else gazetteers.I + 1.

(** The body of [for (auto&& arg : args)] once the file is open: the new
    [*total_features] and the new state. *)
Definition gazetteers_parse_file (window : Z) (lines : list string)
    (acc : ner_feature * gazetteers_state) : option (ner_feature * gazetteers_state) :=
  let '(total_features, st) := acc in
  '(longest, st) ← for_each lines (gazetteers_add_line window total_features) (0, st);
  if in_int (2 * window) && in_int (2 * window + 1) && in_int ((2 * window + 1) * slots longest)
  then Some (wrap32 (total_features + (2 * window + 1) * slots longest), st)
  else None.

(** [gazetteers::parse]: [None] for [false]. *)
Definition gazetteers_parse (base : option parse_state) (window : Z) (args : list string)
    (files : string -> option (list string))
    : option (parse_state * list gazetteers.gazetteer_info) :=
  base ← base;
  '(total_features, st) ←
    for_each args
      (fun arg acc => lines ← files arg; gazetteers_parse_file window lines acc)
      (parsed_total_features base, Gazetteers_state (parsed_map base) []);
  Some (Parse_state (parsed_window base) (gz_map st) total_features, gz_info st).

(** *** BrownClusters *)

(** [string::npos] *)
Definition npos : Z := 2 ^ 64 - 1.

Fixpoint take_chars (n : nat) (str : string) : string :=
  match n, str with
  | S n', String a rest => String a (take_chars n' rest)
  | _, _ => EmptyString
  end.

(** [str.substr(0, count)] *)
Definition substr0 (str : string) (count : Z) : string :=
  if Z.of_nat (String.length str) <=? count then str else take_chars (Z.to_nat count) str.

(** The loop over [args[1..]] filling [substrings]. *)
Fixpoint prefix_lengths (args : list string) (substrings : list Z) : option (list Z) :=
  match args with
  | [] => Some substrings
  | arg :: rest =>
      len ← parse_int arg;
      if len <=? 0 then None else prefix_lengths rest (substrings ++ [len])
  end.

Record brown_state := Brown_state {
  bs_map : gmap string ner_feature;
  bs_clusters : list (list ner_feature);
  bs_cluster_map : gmap string Z;
  bs_prefixes_map : gmap string ner_feature }.

(** One round of [for (auto&& substring : substrings)]: the updated
    [clusters.back()] and [prefixes_map]. *)
Definition brown_add_prefix (window : Z) (total_features : ner_feature) (cluster : string)
    (substring : Z) (acc : list ner_feature * gmap string ner_feature)
    : list ner_feature * gmap string ner_feature :=
  let '(back, prefixes_map) := acc in
  if (substring =? npos) || (substring <? Z.of_nat (String.length cluster)) then
    let key := substr0 cluster substring in
    let fresh :=
      wrap32 (total_features + (2 * window + 1) * Z.of_nat (base.size prefixes_map) + window) in
    match prefixes_map !! key with
    | Some f => (back ++ [f], prefixes_map)
    | None => (back ++ [fresh], <[key := fresh]> prefixes_map)
    end
  else acc.

(** The body of [while (getline(in, line))]. *)
Definition brown_add_line (window : Z) (total_features : ner_feature) (substrings : list Z)
    (line : string) (st : brown_state) : option brown_state :=
  match split line "009" with
  | [cluster; form] =>
      let '(it, st) :=
        match bs_cluster_map st !! cluster with
        | Some id => (id, st)
        | None =>
            let id := wrap32 (Z.of_nat (length (bs_clusters st))) in
            let '(back, prefixes_map) :=
              fold_left (fun acc substring =>
                           brown_add_prefix window total_features cluster substring acc)
                substrings ([], bs_prefixes_map st) in
            (id, Brown_state (bs_map st) (bs_clusters st ++ [back])
                   (<[cluster := id]> (bs_cluster_map st)) prefixes_map)
        end in
      match bs_map st !! form with
      | Some _ => None
      | None =>
          Some (Brown_state (<[form := it]> (bs_map st)) (bs_clusters st)
                  (bs_cluster_map st) (bs_prefixes_map st))
      end
  | _ => None
  end.

(** [brown_clusters::parse]: [None] for [false]; [file] is the stream opened
    on [args[0]]. *)
Definition brown_clusters_parse (base : option parse_state) (window : Z) (args : list string)
    (file : option (list string)) : option (parse_state * list (list ner_feature)) :=
  base ← base;
  match args with
  | [] => None
  | _ :: lengths =>
      lines ← file;
      substrings ← prefix_lengths lengths [npos];
      st ← for_each lines
             (brown_add_line window (parsed_total_features base) substrings)
             (Brown_state (parsed_map base) [] ∅ ∅);
      Some (Parse_state (parsed_window base) (bs_map st)
              (wrap32 (parsed_total_features base
                       + (2 * window + 1) * Z.of_nat (base.size (bs_prefixes_map st)))),
            bs_clusters st)
  end.
End parse.

(** ** Instances of the external functions

    Stand-ins for the libraries, exact on the inputs they are used with:
    ASCII text for unilib, tab- or space-separated fields for [split],
    unsigned decimal numerals for [parse_int]. *)

Definition ascii_decode (str : string) : Z * string :=
  match str with
  | EmptyString => (0, EmptyString)
  | String a rest => (Z.of_N (N_of_ascii a), rest)
  end.

Definition ascii_Lu : Z := 2.
Definition ascii_Ll : Z := 4.
Definition ascii_Lt : Z := 8.
Definition ascii_Lut : Z := Z.lor ascii_Lu ascii_Lt.

Definition ascii_category (chr : Z) : Z :=
  if (65 <=? chr) && (chr <=? 90) then ascii_Lu
  else if (97 <=? chr) && (chr <=? 122) then ascii_Ll
  else 0.

Fixpoint contains_at_sign (str : string) : bool :=
  match str with
  | EmptyString => false
  | String a rest => Ascii.eqb a "@" || contains_at_sign rest
  end.

Definition detect_at_sign (str : string) : url_type :=
  if contains_at_sign str then EMAIL else NO_URL.

Fixpoint split_fields (text : string) (sep : ascii) (current : string) : list string :=
  match text with
  | EmptyString => [current]
  | String a rest =>
      if Ascii.eqb a sep then current :: split_fields rest sep EmptyString
      else split_fields rest sep (push_back current a)
  end.

Definition split_on (text : string) (sep : ascii) : list string :=
  match text with
  | EmptyString => []
  | _ => split_fields text sep EmptyString
  end.

Fixpoint decimal_value (str : string) (acc : Z) : option Z :=
  match str with
  | EmptyString => Some acc
  | String a rest =>
      let d := Z.of_N (N_of_ascii a) - 48 in
      if (0 <=? d) && (d <=? 9) then decimal_value rest (acc * 10 + d) else None
  end.

Definition parse_decimal (str : string) : option Z :=
  match str with
  | EmptyString => None
  | _ => decimal_value str 0
  end.
(** ** Facts about the emission macros *)

Lemma to_int_small (u : Z) : 0 <= u < 2 ^ 31 -> to_int u = u.
Proof. intros H. unfold to_int. destruct (Z.ltb_spec u (2 ^ 31)); lia. Qed.

Lemma in_int_true (z : Z) : - 2 ^ 31 <= z < 2 ^ 31 -> in_int z = true.
Proof. intros H. unfold in_int. apply andb_true_intro. split; [apply Z.leb_le | apply Z.ltb_lt]; lia. Qed.

(** What a position holds after [x] was appended at position [q]. *)
Definition appended_at (q : Z) (x : ner_feature) (p : nat) (F : list ner_feature) : list ner_feature :=
  if decide (Z.of_nat p = q) then F ++ [x] else F.

Lemma features_emplace_back_spec (_w : Z) (x : ner_feature) (s : ner_sentence) :
  0 <= _w < Z.of_nat (length (features s)) ->
  exists s', features_emplace_back _w x s = Some s' /\
    size s' = size s /\ words s' = words s /\
    probabilities s' = probabilities s /\ previous_stage s' = previous_stage s /\
    length (features s') = length (features s) /\
    forall p : nat, features s' !! p = appended_at _w x p <$> features s !! p.
Proof.
  intros H. unfold features_emplace_back.
  destruct (Z.leb_spec 0 _w); [|lia]. destruct (Z.ltb_spec _w (Z.of_nat (length (features s)))); [|lia].
  eexists. split; [reflexivity|]. cbn. repeat split; try reflexivity.
  - apply length_alter.
  - intros p. unfold appended_at. case_decide as Hp.
    + replace (Z.to_nat _w) with p by lia. rewrite list_lookup_alter_eq. reflexivity.
    + rewrite list_lookup_alter_ne by lia. destruct (features s !! p); reflexivity.
Qed.

(** What a position holds after the emission loop ran over [[lo, lo + n)]. *)
Definition appended_in (lo : Z) (n : nat) (g : Z -> ner_feature) (p : nat)
    (F : list ner_feature) : list ner_feature :=
  if decide (lo <= Z.of_nat p < lo + Z.of_nat n) then F ++ [g (Z.of_nat p)] else F.

Lemma emission_loop_spec (g : Z -> ner_feature) (n : nat) :
  forall (lo : Z) (s : ner_sentence),
  (n <> O -> 0 <= lo /\ lo + Z.of_nat n <= Z.of_nat (length (features s))) ->
  exists s', for_loop n lo (fun _w s => features_emplace_back _w (g _w) s) s = Some s' /\
    size s' = size s /\ words s' = words s /\
    probabilities s' = probabilities s /\ previous_stage s' = previous_stage s /\
    length (features s') = length (features s) /\
    forall p : nat, features s' !! p = appended_in lo n g p <$> features s !! p.
Proof.
  induction n as [|n IH]; intros lo s Hn.
  - exists s. cbn. repeat split; try reflexivity.
    intros p. unfold appended_in. case_decide; [lia|]. destruct (features s !! p); reflexivity.
  - destruct Hn as [Hlo Hhi]; [discriminate|].
    destruct (features_emplace_back_spec lo (g lo) s) as (s1 & E1 & Hs1 & Hw1 & Hp1 & Hq1 & Hl1 & Hf1); [lia|].
    destruct (IH (lo + 1) s1) as (s2 & E2 & Hs2 & Hw2 & Hp2 & Hq2 & Hl2 & Hf2); [lia|].
    exists s2. cbn [for_loop]. rewrite E1. split; [exact E2|].
    repeat split; try congruence.
    intros p. rewrite Hf2, Hf1. destruct (features s !! p) as [F|]; [|reflexivity]. cbn. f_equal.
    unfold appended_in, appended_at. repeat case_decide; try lia; try reflexivity.
    subst lo. reflexivity.
Qed.

(** The positions [apply_in_range] reaches: [[max(0, I+Left), min(size-1, I+Right)]]. *)
Definition in_range (s : ner_sentence) (I Left Right : Z) (p : Z) : Prop :=
  Z.max 0 (I + Left) <= p <= Z.min (size s - 1) (I + Right).

#[global] Instance in_range_dec s I Left Right p : Decision (in_range s I Left Right p).
Proof. unfold in_range. apply _. Defined.

(** What position [p] holds after [apply_in_range I f Left Right]. *)
Definition emitted (s : ner_sentence) (I : Z) (f : ner_feature) (Left Right : Z) (p : nat)
    (F : list ner_feature) : list ner_feature :=
  if decide (f <> ner_feature_unknown /\ in_range s I Left Right (Z.of_nat p))
  then F ++ [wrap32 (f + (Z.of_nat p - I))] else F.

Lemma apply_in_range_total (s : ner_sentence) (I : Z) (f : ner_feature) (Left Right : Z) :
  sentence_wf s ->
  - 2 ^ 31 <= I + Left < 2 ^ 31 -> - 2 ^ 31 <= I + Right < 2 ^ 31 - 1 ->
  exists s', apply_in_range I f Left Right s = Some s' /\
    size s' = size s /\ words s' = words s /\
    probabilities s' = probabilities s /\ previous_stage s' = previous_stage s /\
    length (features s') = length (features s) /\
    forall p : nat, features s' !! p = emitted s I f Left Right p <$> features s !! p.
Proof.
  intros [Hsz _ Hfs _ _] HL HR. unfold apply_in_range.
  destruct (Z.eqb_spec f ner_feature_unknown) as [Hu|Hu].
  { exists s. repeat split; try reflexivity. intros p. unfold emitted.
    case_decide as Hd; [tauto|]. destruct (features s !! p); reflexivity. }
  rewrite !in_int_true by lia.
  cbn [andb negb]. rewrite (to_int_small (size s)) by lia.
  set (_w0 := if I + Left <? 0 then 0 else I + Left).
  set (_end := if I + Right + 1 <? size s then I + Right + 1 else size s).
  assert (_w0 = Z.max 0 (I + Left)) as Hw0 by (subst _w0; destruct (Z.ltb_spec (I + Left) 0); lia).
  assert (_end = Z.min (size s) (I + Right + 1)) as Hend
    by (subst _end; destruct (Z.ltb_spec (I + Right + 1) (size s)); lia).
  destruct (emission_loop_spec (fun _w => wrap32 (f + _w - I)) (Z.to_nat (_end - _w0)) _w0 s)
    as (s' & E & Hs & Hw & Hp & Hq & Hl & Hf); [lia|].
  exists s'. split; [exact E|]. repeat split; try assumption.
  intros p. rewrite Hf. destruct (features s !! p) as [F|]; [|reflexivity]. cbn. f_equal.
  unfold appended_in, emitted, in_range.
  repeat case_decide; try reflexivity; try lia; try tauto.
  do 3 f_equal. lia.
Qed.

(** ** Loop rules *)

Lemma for_loop_rule {S : Type} (Inv : S -> Prop) (R : S -> S -> Prop)
    (body : Z -> S -> option S) (n : nat) :
  (forall s, R s s) ->
  (forall a b c, R a b -> R b c -> R a c) ->
  forall (lo : Z) (s : S),
  (forall i s, lo <= i < lo + Z.of_nat n -> Inv s -> exists s', body i s = Some s' /\ Inv s' /\ R s s') ->
  Inv s ->
  exists s', for_loop n lo body s = Some s' /\ Inv s' /\ R s s'.
Proof.
  intros Hrefl Htrans. induction n as [|n IH]; intros lo s Hbody Hs.
  - exists s. cbn. auto.
  - destruct (Hbody lo s) as (s1 & E1 & I1 & R1); [lia|assumption|].
    destruct (IH (lo + 1) s1) as (s2 & E2 & I2 & R2).
    + intros i s' Hi. apply Hbody. lia.
    + assumption.
    + exists s2. cbn. rewrite E1. eauto.
Qed.

Lemma for_each_rule {A S : Type} (Inv : S -> Prop) (R : S -> S -> Prop)
    (body : A -> S -> option S) (l : list A) :
  (forall s, R s s) ->
  (forall a b c, R a b -> R b c -> R a c) ->
  forall s : S,
  (forall x s, x ∈ l -> Inv s -> exists s', body x s = Some s' /\ Inv s' /\ R s s') ->
  Inv s ->
  exists s', for_each l body s = Some s' /\ Inv s' /\ R s s'.
Proof.
  intros Hrefl Htrans. induction l as [|x l IH]; intros s Hbody Hs.
  - exists s. cbn. auto.
  - destruct (Hbody x s) as (s1 & E1 & I1 & R1); [left|assumption|].
    destruct (IH s1) as (s2 & E2 & I2 & R2).
    + intros y s' Hy. apply Hbody. now right.
    + assumption.
    + exists s2. cbn. rewrite E1. eauto.
Qed.

(** ** Frames along a run *)

(** Everything a processor leaves alone: the shape of the sentence, the
    window, and the entries already interned. *)
Record same_shape (c c' : frame) : Prop := {
  ss_window : window c' = window c;
  ss_size : size (sentence c') = size (sentence c);
  ss_words : words (sentence c') = words (sentence c);
  ss_probabilities : probabilities (sentence c') = probabilities (sentence c);
  ss_previous_stage : previous_stage (sentence c') = previous_stage (sentence c);
  ss_length : length (features (sentence c')) = length (features (sentence c));
  ss_map : map c ⊆ map c';
  ss_inference : total_features c = None -> total_features c' = None /\ map c' = map c;
  ss_training : is_Some (total_features c) -> is_Some (total_features c') }.

Lemma same_shape_refl (c : frame) : same_shape c c.
Proof. constructor; auto. Qed.

Lemma same_shape_trans (a b c : frame) : same_shape a b -> same_shape b c -> same_shape a c.
Proof.
  intros [] []. constructor; try congruence.
  - etrans; eassumption.
  - intros H. destruct (ss_inference0 H) as [Hb Hm]. destruct (ss_inference1 Hb) as [Hc Hm'].
    split; congruence.
  - auto.
Qed.

(** The sentence fits the [int] arithmetic of the macros for every centre
    the processors use, the virtual border positions included. *)
Record frame_wf (c : frame) : Prop := {
  fw_sentence : sentence_wf (sentence c);
  fw_window : 0 <= window c;
  fw_int : size (sentence c) + 2 * window c < 2 ^ 31 }.

Lemma frame_wf_same_shape (c c' : frame) : same_shape c c' -> frame_wf c -> frame_wf c'.
Proof.
  intros [] [[] ? ?]. constructor; [constructor|..]; congruence.
Qed.

(** [x] lies in the band of width [2w+1] around the centre [f], in the
    arithmetic of [ner_feature]. *)
Definition in_band (w : Z) (f x : ner_feature) : Prop :=
  exists d, - w <= d <= w /\ x = wrap32 (f + d).

Lemma in_band_exact (w : Z) (f x : ner_feature) :
  w <= f <= 2 ^ 32 - 1 - w -> in_band w f x -> f - w <= x <= f + w.
Proof.
  intros Hf (d & Hd & ->). unfold wrap32. rewrite Z.mod_small; lia.
Qed.

(** Every position of [c'] holds what it held in [c] followed by ids
    satisfying [P]. *)
Definition appended (P : ner_feature -> Prop) (c c' : frame) : Prop :=
  forall (p : nat) (F : list ner_feature),
    features (sentence c) !! p = Some F ->
    exists added, features (sentence c') !! p = Some (F ++ added) /\ Forall P added.

Lemma appended_refl (P : ner_feature -> Prop) (c : frame) : appended P c c.
Proof. intros p F H. exists []. rewrite app_nil_r. auto. Qed.

Lemma appended_trans (P : ner_feature -> Prop) (a b c : frame) :
  appended P a b -> appended P b c -> appended P a c.
Proof.
  intros Hab Hbc p F H. destruct (Hab p F H) as (l1 & E1 & F1).
  destruct (Hbc p _ E1) as (l2 & E2 & F2). exists (l1 ++ l2).
  rewrite app_assoc. split; [assumption|]. apply Forall_app. auto.
Qed.

Lemma appended_weaken (P Q : ner_feature -> Prop) (c c' : frame) :
  (forall x, P x -> Q x) -> appended P c c' -> appended Q c c'.
Proof.
  intros HPQ H p F E. destruct (H p F E) as (l & E' & Hl). exists l. split; [assumption|].
  eapply Forall_impl; eauto.
Qed.

Section grows.
(** The centres a processor may emit around, as a property of the frame
    that can only gain members as the run proceeds. *)
Variable centres : frame -> ner_feature -> Prop.
Hypothesis centres_mono :
  forall c c' f, same_shape c c' -> centres c f -> centres c' f.

Definition banded (c : frame) (x : ner_feature) : Prop :=
  exists f, centres c f /\ in_band (window c) f x.

Definition grows (c c' : frame) : Prop :=
  same_shape c c' /\ appended (banded c') c c'.

Lemma grows_refl (c : frame) : grows c c.
Proof. split; [apply same_shape_refl|apply appended_refl]. Qed.

Lemma banded_mono (c c' : frame) (x : ner_feature) :
  same_shape c c' -> banded c x -> banded c' x.
Proof.
  intros Hs (f & Hf & Hb). exists f. split; [eauto|]. now rewrite (ss_window _ _ Hs).
Qed.

Lemma grows_trans (a b c : frame) : grows a b -> grows b c -> grows a c.
Proof.
  intros [Sab Aab] [Sbc Abc]. split; [eapply same_shape_trans; eassumption|].
  eapply appended_trans; [|eassumption].
  eapply appended_weaken; [|eassumption]. intros x. now apply banded_mono.
Qed.

(** The emission of one feature around an [int] centre [I]. *)
Lemma on_sentence_apply_in_range_grows (c : frame) (I : Z) (f : ner_feature) (Left Right : Z) :
  frame_wf c ->
  - 2 ^ 31 <= I + Left < 2 ^ 31 -> - 2 ^ 31 <= I + Right < 2 ^ 31 - 1 ->
  - window c <= Left -> Right <= window c ->
  (f <> ner_feature_unknown -> centres c f) ->
  exists c', on_sentence (apply_in_range I f Left Right) c = Some c' /\
    frame_wf c' /\ grows c c' /\
    map c' = map c /\ total_features c' = total_features c /\ buffer c' = buffer c.
Proof.
  intros Hwf HL HR HwL HwR Hf.
  destruct (apply_in_range_total (sentence c) I f Left Right (fw_sentence _ Hwf) HL HR)
    as (s' & E & Hs & Hw & Hp & Hq & Hl & Hfs).
  exists (with_sentence c s'). unfold on_sentence. rewrite E. cbn.
  assert (same_shape c (with_sentence c s')) as Hshape.
  { constructor; cbn; auto. }
  split; [reflexivity|]. split; [eapply frame_wf_same_shape; eassumption|].
  split; [|auto]. split; [assumption|].
  intros p F HF. cbn. rewrite Hfs, HF. cbn. unfold emitted.
  case_decide as Hd.
  - eexists. split; [reflexivity|]. constructor; [|constructor].
    exists f. cbn. split; [apply (centres_mono c); [assumption|tauto]|].
    exists (Z.of_nat p - I). split; [|reflexivity].
    destruct Hd as [_ Hr]. unfold in_range in Hr. lia.
  - exists []. rewrite app_nil_r. auto.
Qed.

Lemma emit_in_window_grows (c : frame) (i : Z) (f : ner_feature) :
  frame_wf c -> 0 <= i < size (sentence c) ->
  (f <> ner_feature_unknown -> centres c f) ->
  exists c', emit_in_window i f c = Some c' /\
    frame_wf c' /\ grows c c' /\
    map c' = map c /\ total_features c' = total_features c /\ buffer c' = buffer c.
Proof.
  intros Hwf Hi Hf. unfold emit_in_window, apply_in_window.
  pose proof (wf_size _ (fw_sentence _ Hwf)) as Hsz.
  pose proof (fw_window _ Hwf) as Hw. pose proof (fw_int _ Hwf) as Hint.
  rewrite to_int_small by lia.
  apply on_sentence_apply_in_range_grows; try lia; assumption.
Qed.
End grows.

(** ** The centres of each processor *)

(** An id some key of [map] is interned to. *)
Definition interned (c : frame) (f : ner_feature) : Prop :=
  exists key, map c !! key = Some f.

(** The same, or the reserved id of the empty key. *)
Definition interned_or_empty (c : frame) (f : ner_feature) : Prop :=
  f = lookup_empty c \/ interned c f.

Definition cluster_feature (clusters : list (list ner_feature)) (c : frame) (f : ner_feature) : Prop :=
  exists cluster, cluster ∈ clusters /\ f ∈ cluster.

(** A stored gazetteer feature moved to the band of one of the five roles. *)
Definition gazetteer_feature (gazetteers_info : list gazetteers.gazetteer_info) (c : frame)
    (f : ner_feature) : Prop :=
  exists info feature role,
    info ∈ gazetteers_info /\ feature ∈ gazetteers.features info /\
    gazetteers.G <= role <= gazetteers.I /\
    f = wrap32 (feature + role * (2 * window c + 1)).

(** The band centres of a processor: the ids it hands to the emission
    macros. *)
Definition centres (p : feature_processor) : frame -> ner_feature -> Prop :=
  match p with
  | BrownClusters clusters => cluster_feature clusters
  | Gazetteers gazetteers_info => gazetteer_feature gazetteers_info
  | Form | Lemma | RawLemma | Tag => interned_or_empty
  | CzechLemmaTerm | FormCapitalization | RawLemmaCapitalization
  | NumericTimeValue | PreviousStage => interned
  | CzechAddContainers | URLEmailDetector _ _ => fun _ _ => False
  end.

Lemma interned_mono (c c' : frame) (f : ner_feature) :
  same_shape c c' -> interned c f -> interned c' f.
Proof.
  intros Hs (key & Hk). exists key. eapply lookup_weaken; [eassumption|]. apply (ss_map _ _ Hs).
Qed.

Lemma interned_or_empty_mono (c c' : frame) (f : ner_feature) :
  same_shape c c' -> interned_or_empty c f -> interned_or_empty c' f.
Proof.
  intros Hs [->|H]; [left|right; eauto using interned_mono].
  unfold lookup_empty. now rewrite (ss_window _ _ Hs).
Qed.

Lemma centres_mono (p : feature_processor) (c c' : frame) (f : ner_feature) :
  same_shape c c' -> centres p c f -> centres p c' f.
Proof.
  intros Hs. destruct p; cbn; eauto using interned_mono, interned_or_empty_mono.
  unfold gazetteer_feature. intros (info & feature & role & H1 & H2 & H3 & ->).
  exists info, feature, role. rewrite (ss_window _ _ Hs). auto.
Qed.

(** ** What [lookup] returns *)

Lemma lookup_spec (key : string) (c : frame) :
  exists f c', lookup key c = (f, c') /\
    sentence c' = sentence c /\ window c' = window c /\ buffer c' = buffer c /\
    same_shape c c' /\
    (f <> ner_feature_unknown -> interned_or_empty c' f) /\
    (f <> ner_feature_unknown -> key <> EmptyString -> map c' !! key = Some f).
Proof.
  unfold lookup. case_decide as Hk.
  { exists (wrap32 (window c)), c. repeat split; auto using same_shape_refl.
    - intros _. now left.
    - congruence. }
  destruct (map c !! key) as [f|] eqn:E.
  { exists f, c. repeat split; auto using same_shape_refl.
    intros _. right. now exists key. }
  destruct (total_features c) as [t|] eqn:Et.
  - eexists _, _. split; [reflexivity|]. cbn. repeat split; auto.
    + now apply insert_subseteq.
    + congruence.
    + congruence.
    + intros _. right. exists key. cbn. apply lookup_insert_eq.
    + intros _ _. apply lookup_insert_eq.
  - exists ner_feature_unknown, c. repeat split; auto using same_shape_refl; congruence.
Qed.

Lemma with_buffer_same_shape (c : frame) (b : string) : same_shape c (with_buffer c b).
Proof. constructor; cbn; auto. Qed.

Lemma frame_wf_with_buffer (c : frame) (b : string) : frame_wf c -> frame_wf (with_buffer c b).
Proof. apply frame_wf_same_shape, with_buffer_same_shape. Qed.

(** A step that only changes what is outside the sentence. *)
Lemma grows_same_sentence (centres : frame -> ner_feature -> Prop) (c c' : frame) :
  same_shape c c' -> sentence c' = sentence c -> grows centres c c'.
Proof.
  intros Hs E. split; [assumption|]. intros p F H. exists []. rewrite app_nil_r, E. auto.
Qed.

Lemma word_at_Some (c : frame) (i : Z) :
  frame_wf c -> 0 <= i < size (sentence c) -> exists w, word_at c i = Some w.
Proof.
  intros Hwf Hi. unfold word_at. destruct (Z.ltb_spec i 0); [lia|].
  apply lookup_lt_is_Some_2. pose proof (wf_words _ (fw_sentence _ Hwf)). lia.
Qed.

(** ** Token loops *)

Section token_loops.
Variable centres : frame -> ner_feature -> Prop.
Hypothesis centres_mono :
  forall c c' f, same_shape c c' -> centres c f -> centres c' f.
(** What the processor needs of the frame besides [frame_wf]. *)
Variable extra : frame -> Prop.

Definition step_ok (body : frame -> option frame) (c : frame) : Prop :=
  exists c', body c = Some c' /\ frame_wf c' /\ extra c' /\ grows centres c c'.

Lemma step_ok_bind (k1 k2 : frame -> option frame) (c : frame) :
  step_ok k1 c ->
  (forall c1, frame_wf c1 -> extra c1 -> same_shape c c1 -> step_ok k2 c1) ->
  step_ok (fun c => c1 ← k1 c; k2 c1) c.
Proof.
  intros (c1 & E1 & W1 & X1 & G1) H2.
  destruct (H2 c1 W1 X1 (proj1 G1)) as (c2 & E2 & W2 & X2 & G2).
  exists c2. rewrite E1. cbn. split; [assumption|]. split; [assumption|].
  split; [assumption|]. apply (grows_trans centres centres_mono c c1 c2); assumption.
Qed.

Lemma step_ok_seq (k1 k2 : frame -> option frame) (c : frame) :
  step_ok k1 c ->
  (forall c1, frame_wf c1 -> extra c1 -> same_shape c c1 -> step_ok k2 c1) ->
  exists c', k1 c ≫= k2 = Some c' /\ frame_wf c' /\ extra c' /\ grows centres c c'.
Proof. apply step_ok_bind. Qed.

Lemma step_ok_when (b : bool) (k : frame -> option frame) (c : frame) :
  frame_wf c -> extra c -> (b = true -> step_ok k c) -> step_ok (when b k) c.
Proof.
  intros W X H. destruct b; cbn; [auto|].
  exists c. auto using grows_refl.
Qed.

Lemma for_tokens_ok (body : Z -> frame -> option frame) (c : frame) :
  (forall i c', same_shape c c' -> 0 <= i < size (sentence c') -> frame_wf c' -> extra c' ->
     step_ok (body i) c') ->
  frame_wf c -> extra c -> step_ok (for_tokens body) c.
Proof.
  intros Hbody W X. unfold step_ok, for_tokens.
  destruct (for_loop_rule (fun c' => frame_wf c' /\ extra c' /\ same_shape c c')
              (grows centres) body (Z.to_nat (size (sentence c)))
              (grows_refl centres) (grows_trans centres centres_mono) 0 c)
    as (c' & E & (W' & X' & S') & G').
  - intros i c' Hi (W' & X' & S').
    destruct (Hbody i c' S') as (c'' & E & W'' & X'' & G''); try assumption.
    { rewrite (ss_size _ _ S'). pose proof (wf_size _ (fw_sentence _ W)). lia. }
    exists c''. split; [assumption|]. split; [|assumption].
    split; [assumption|]. split; [assumption|].
    exact (same_shape_trans _ _ _ S' (proj1 G'')).
  - auto using same_shape_refl.
  - exists c'. auto.
Qed.
End token_loops.

(** ** Steps shared by the processors *)

Section steps.
Variable centres : frame -> ner_feature -> Prop.
Hypothesis centres_mono :
  forall c c' f, same_shape c c' -> centres c f -> centres c' f.
Variable extra : frame -> Prop.
(** [extra] does not look at the features. *)
Hypothesis extra_stable :
  forall c c', same_shape c c' -> map c' = map c -> extra c -> extra c'.

Lemma emit_ok (i : Z) (f : ner_feature) (c : frame) :
  frame_wf c -> extra c -> 0 <= i < size (sentence c) ->
  (f <> ner_feature_unknown -> centres c f) ->
  step_ok centres extra (emit_in_window i f) c.
Proof.
  intros W X Hi Hf.
  destruct (emit_in_window_grows centres centres_mono c i f W Hi Hf)
    as (c' & E & W' & G & Hm & _).
  exists c'. split; [assumption|]. split; [assumption|]. split; [|assumption].
  apply (extra_stable c); [apply G|assumption|assumption].
Qed.

(** [extra] does not look at the interned keys either. *)
Hypothesis extra_shape : forall c c', same_shape c c' -> extra c -> extra c'.

Lemma lookup_emit_ok (key : string) (i : Z) (c : frame) :
  (forall c f, interned_or_empty c f -> (key <> EmptyString -> interned c f) -> centres c f) ->
  frame_wf c -> extra c -> 0 <= i < size (sentence c) ->
  step_ok centres extra (fun c => let '(f, c) := lookup key c in emit_in_window i f c) c.
Proof.
  intros HC W X Hi.
  destruct (lookup_spec key c) as (f & c1 & E & Hs & Hw & Hb & Hsh & Hc1 & Hc2).
  unfold step_ok. rewrite E.
  destruct (emit_ok i f c1) as (c2 & E2 & W2 & X2 & G2).
  - eapply frame_wf_same_shape; eassumption.
  - eapply extra_shape; eassumption.
  - now rewrite Hs.
  - intros Hf. apply HC; [auto|]. intros Hk. exists key. auto.
  - exists c2. split; [assumption|]. split; [assumption|]. split; [assumption|].
    apply (grows_trans centres centres_mono c c1 c2); [|assumption].
    now apply grows_same_sentence.
Qed.
End steps.

(** ** Form, Lemma, RawLemma, Tag stay in their bands *)

Lemma with_sentence_with_sentence (c : frame) (s s' : ner_sentence) :
  with_sentence (with_sentence c s) s' = with_sentence c s'.
Proof. reflexivity. Qed.

Lemma on_sentence_for_loop (body : Z -> ner_sentence -> option ner_sentence) (n : nat) :
  forall (lo : Z) (c : frame),
  on_sentence (for_loop n lo body) c = for_loop n lo (fun i => on_sentence (body i)) c.
Proof.
  induction n as [|n IH]; intros lo c; [destruct c; reflexivity|].
  cbn [for_loop]. unfold on_sentence at 1.
  assert (on_sentence (body lo) c = with_sentence c <$> body lo (sentence c)) as -> by reflexivity.
  destruct (body lo (sentence c)) as [s'|]; [|reflexivity]. cbn.
  rewrite <- IH. reflexivity.
Qed.

Lemma apply_outer_words_in_window_eq (w : Z) (f : ner_feature) :
  apply_outer_words_in_window w f =
  if f =? ner_feature_unknown then Some
  else for_loop (Z.to_nat w) 1
         (fun _i s =>
            s0 ← apply_in_window w (- _i) f s;
            apply_in_window w (to_int (wrap32 (size s0 - 1 + _i))) f s0).
Proof. unfold apply_outer_words_in_window. destruct (f =? ner_feature_unknown); reflexivity. Qed.

Lemma outer_words_ok (c : frame) :
  frame_wf c ->
  step_ok interned_or_empty (fun _ => True)
    (on_sentence (apply_outer_words_in_window (window c) (lookup_empty c))) c.
Proof.
  intros W. rewrite apply_outer_words_in_window_eq.
  destruct (Z.eqb_spec (lookup_empty c) ner_feature_unknown) as [Hu|Hu].
  { exists c. split; [destruct c; reflexivity|]. split; [assumption|].
    split; [exact I|]. apply grows_refl. }
  unfold step_ok. rewrite on_sentence_for_loop.
  destruct (for_loop_rule
              (fun c' => frame_wf c' /\ same_shape c c')
              (grows interned_or_empty)
              (fun i => on_sentence (fun s =>
                 s0 ← apply_in_window (window c) (- i) (lookup_empty c) s;
                 apply_in_window (window c) (to_int (wrap32 (size s0 - 1 + i))) (lookup_empty c) s0))
              (Z.to_nat (window c))
              (grows_refl interned_or_empty)
              (grows_trans interned_or_empty interned_or_empty_mono) 1 c)
    as (c' & E & (W' & S') & G').
  - intros i c1 Hi (W1 & S1).
    pose proof (wf_size _ (fw_sentence _ W1)) as Hsz.
    pose proof (fw_window _ W1) as Hw. pose proof (fw_int _ W1) as Hint.
    rewrite <- (ss_window _ _ S1). rewrite <- (ss_window _ _ S1) in Hi.
    assert (lookup_empty c = lookup_empty c1) as ->
      by (unfold lookup_empty; now rewrite (ss_window _ _ S1)).
    destruct (on_sentence_apply_in_range_grows interned_or_empty interned_or_empty_mono
                c1 (- i) (lookup_empty c1) (- window c1) (window c1))
      as (c2 & E2 & W2 & G2 & _); try lia; try assumption.
    { intros _. now left. }
    pose proof (proj1 G2) as S2.
    pose proof (wf_size _ (fw_sentence _ W2)) as Hsz2.
    destruct (on_sentence_apply_in_range_grows interned_or_empty interned_or_empty_mono
                c2 (size (sentence c2) - 1 + i) (lookup_empty c1) (- window c2) (window c2))
      as (c3 & E3 & W3 & G3 & _); try assumption;
      try (rewrite ?(ss_window _ _ S2), ?(ss_size _ _ S2); lia).
    { intros _. left. unfold lookup_empty. now rewrite (ss_window _ _ S2). }
    exists c3. split.
    + pose proof (ss_size _ _ S2) as Hsize2. pose proof (ss_window _ _ S2) as Hwin2.
      clear - E2 E3 Hsize2 Hwin2 Hsz Hi Hint Hw.
      unfold on_sentence in *. unfold apply_in_window.
      destruct (apply_in_range (- i) (lookup_empty c1) (- window c1) (window c1) (sentence c1))
        as [s2|] eqn:Es2; [|discriminate]. cbn in E2. injection E2 as <-.
      cbn [mbind option_bind]. cbn in Hsize2, Hwin2, E3.
      unfold wrap32. rewrite Z.mod_small by lia.
      rewrite to_int_small by lia. exact E3.
    + pose proof (grows_trans interned_or_empty interned_or_empty_mono _ _ _ G2 G3) as G.
      split; [split; [assumption|]|assumption].
      exact (same_shape_trans _ _ _ S1 (proj1 G)).
  - auto using same_shape_refl.
  - exists c'. auto.
Qed.

Lemma field_process_sentence_ok (field : ner_word -> string) (c : frame) :
  frame_wf c -> step_ok interned_or_empty (fun _ => True) (field_process_sentence field) c.
Proof.
  intros W. unfold field_process_sentence.
  apply (step_ok_bind interned_or_empty interned_or_empty_mono).
  - apply for_tokens_ok; [exact interned_or_empty_mono| |assumption|exact I].
    intros i c' _ Hi W' _. unfold field_token, step_ok.
    destruct (word_at_Some c' i W' Hi) as (w & ->). cbn [mbind option_bind].
    apply (lookup_emit_ok interned_or_empty interned_or_empty_mono (fun _ => True));
      auto.
  - intros c1 W1 _ _. now apply outer_words_ok.
Qed.

(** ** The processors that intern their keys stay in their bands *)

Lemma interned_stable (f : ner_feature) (c c' : frame) :
  same_shape c c' ->
  (f <> ner_feature_unknown -> interned c f) -> (f <> ner_feature_unknown -> interned c' f).
Proof. intros Hs H Hf. eapply interned_mono; eauto. Qed.

(** A [lookup(buffer.assign(key), total_features)] ahead of the token loop. *)
Lemma lookup_assign_spec (key : string) (c : frame) :
  key <> EmptyString ->
  exists f c1, lookup key (with_buffer c key) = (f, c1) /\
    same_shape c c1 /\ sentence c1 = sentence c /\
    (f <> ner_feature_unknown -> interned c1 f).
Proof.
  intros Hk.
  destruct (lookup_spec key (with_buffer c key)) as (f & c1 & E & Hs & _ & _ & Hsh & _ & Hi).
  exists f, c1. split; [assumption|]. split.
  { eapply same_shape_trans; [apply with_buffer_same_shape|eassumption]. }
  split; [assumption|]. intros Hf. exists key. auto.
Qed.

Lemma string_get_Some (str : string) :
  forall n : nat, (n < String.length str)%nat -> exists a, String.get n str = Some a.
Proof.
  induction str as [|a str IH]; intros n Hn; cbn in Hn; [lia|].
  destruct n as [|n]; cbn; [eauto|]. apply IH. lia.
Qed.

Lemma czech_lemma_term_process_sentence_ok (c : frame) :
  frame_wf c -> step_ok interned (fun _ => True) czech_lemma_term_process_sentence c.
Proof.
  intros W. apply for_tokens_ok; [exact interned_mono| |assumption|exact I].
  intros i c' _ Hi W' _. unfold czech_lemma_term_token, step_ok.
  destruct (word_at_Some c' i W' Hi) as (w & ->). cbn [mbind option_bind].
  set (lc := lemma_comments w).
  destruct (for_loop_rule (fun c1 => frame_wf c1 /\ same_shape c' c1) (grows interned)
              (czech_lemma_term_pos i lc) (Z.to_nat (Z.of_nat (String.length lc) - 2))
              (grows_refl interned) (grows_trans interned interned_mono) 0 c')
    as (c2 & E & (W2 & S2) & G2).
  - intros pos c1 Hpos (W1 & S1). unfold czech_lemma_term_pos.
    destruct (string_get_Some lc (Z.to_nat pos)) as (a & ->); [lia|].
    destruct (string_get_Some lc (Z.to_nat (pos + 1))) as (b & ->); [lia|].
    cbn [mbind option_bind].
    destruct (Ascii.eqb a "_" && Ascii.eqb b ";").
    + destruct (string_get_Some lc (Z.to_nat (pos + 2))) as (d & ->); [lia|].
      cbn [mbind option_bind].
      destruct (lookup_emit_ok interned interned_mono (fun _ => True)
                  (fun _ _ _ _ x => x) (fun _ _ _ x => x) (String d EmptyString) i
                  (with_buffer c1 (String d EmptyString)))
        as (c3 & E3 & W3 & _ & G3).
      * intros c0 f _ H. now apply H.
      * now apply frame_wf_with_buffer.
      * exact I.
      * cbn. now rewrite (ss_size _ _ S1).
      * exists c3. split; [exact E3|].
        assert (grows interned c1 c3) as G.
        { eapply (grows_trans interned interned_mono); [|eassumption].
          apply grows_same_sentence; [apply with_buffer_same_shape|reflexivity]. }
        split; [split; [assumption|]|assumption].
        exact (same_shape_trans _ _ _ S1 (proj1 G)).
    + exists c1. split; [reflexivity|]. split; [auto|]. apply grows_refl.
  - auto using same_shape_refl.
  - exists c2. auto.
Qed.

Section number_time_value.
Variables hour minute time day month year : ner_feature.

Definition numeric_ids (c : frame) : Prop :=
  Forall (fun f => f <> ner_feature_unknown -> interned c f)
    [hour; minute; time; day; month; year].

Lemma numeric_ids_shape (c c' : frame) : same_shape c c' -> numeric_ids c -> numeric_ids c'.
Proof.
  intros Hs H. unfold numeric_ids in *. eapply Forall_impl; [exact H|].
  intros f. now apply interned_stable.
Qed.

Lemma numeric_emit_ok (f : ner_feature) (i : Z) (c : frame) :
  f ∈ [hour; minute; time; day; month; year] ->
  frame_wf c -> numeric_ids c -> 0 <= i < size (sentence c) ->
  step_ok interned numeric_ids (emit_in_window i f) c.
Proof.
  intros Hf W X Hi. apply emit_ok; try assumption.
  - exact interned_mono.
  - intros c0 c1 Hs _. now apply numeric_ids_shape.
  - unfold numeric_ids in X. rewrite Forall_forall in X. now apply X.
Qed.

Lemma number_time_value_token_ok (i : Z) (c : frame) :
  frame_wf c -> numeric_ids c -> 0 <= i < size (sentence c) ->
  step_ok interned numeric_ids
    (number_time_value_token hour minute time day month year i) c.
Proof.
  intros W X Hi. unfold number_time_value_token, step_ok.
  destruct (word_at_Some c i W Hi) as (w & ->). cbn [mbind option_bind].
  destruct (scan_digits (form w) false 0) as [[str digit] num].
  apply (step_ok_seq interned interned_mono numeric_ids).
  - apply step_ok_when; [assumption|assumption|]. intros _. unfold step_ok.
    repeat (apply (step_ok_seq interned interned_mono numeric_ids);
            [|intros ? ? ? [_ ? _ _ _ _ _ _]; unfold step_ok];
            [apply step_ok_when; [assumption|assumption|]; intros _;
             apply numeric_emit_ok; [apply list_elem_of_In; cbn; auto 10|assumption|assumption|lia]|]).
    apply step_ok_when; [assumption|assumption|]. intros _.
    apply numeric_emit_ok; [apply list_elem_of_In; cbn; auto 10|assumption|assumption|lia].
  - intros c1 W1 X1 [_ Hsz _ _ _ _ _ _].
    apply step_ok_when; [assumption|assumption|]. intros _. unfold step_ok.
    destruct (scan_digits (advance str) false 0) as [[str' digit'] num'].
    apply step_ok_when; [assumption|assumption|]. intros _.
    apply numeric_emit_ok; [apply list_elem_of_In; cbn; auto 10|assumption|assumption|lia].
Qed.
End number_time_value.

Lemma number_time_value_process_sentence_ok (c : frame) :
  frame_wf c -> step_ok interned (fun _ => True) number_time_value_process_sentence c.
Proof.
  intros W. unfold number_time_value_process_sentence, step_ok.
  destruct (lookup_assign_spec "H" c) as (hour & c1 & -> & S1 & E1 & I1); [discriminate|].
  destruct (lookup_assign_spec "M" c1) as (minute & c2 & -> & S2 & E2 & I2); [discriminate|].
  destruct (lookup_assign_spec "t" c2) as (time & c3 & -> & S3 & E3 & I3); [discriminate|].
  destruct (lookup_assign_spec "d" c3) as (day & c4 & -> & S4 & E4 & I4); [discriminate|].
  destruct (lookup_assign_spec "m" c4) as (month & c5 & -> & S5 & E5 & I5); [discriminate|].
  destruct (lookup_assign_spec "y" c5) as (year & c6 & -> & S6 & E6 & I6); [discriminate|].
  assert (same_shape c c6) as S by eauto 10 using same_shape_trans.
  destruct (for_tokens_ok interned interned_mono (numeric_ids hour minute time day month year)
              (number_time_value_token hour minute time day month year) c6)
    as (c' & E & W' & _ & G').
  - intros i c' _ Hi W' X'. now apply number_time_value_token_ok.
  - eapply frame_wf_same_shape; eassumption.
  - unfold numeric_ids. repeat constructor;
      eauto 10 using interned_stable, same_shape_trans.
  - exists c'. split; [assumption|]. split; [assumption|]. split; [exact I|].
    eapply (grows_trans interned interned_mono); [|eassumption].
    apply grows_same_sentence; [assumption|congruence].
Qed.

Section capitalization.
Variable utf8_decode : string -> Z * string.
Variable unicode_category : Z -> Z.
Variables unicode_Lut unicode_Ll : Z.
(** Reading a code point other than the terminator consumes input. *)
Hypothesis utf8_decode_progress :
  forall str chr rest,
    utf8_decode str = (chr, rest) -> chr <> 0 ->
    (String.length rest < String.length str)%nat.

Variables fst_cap all_cap mixed_cap : ner_feature.

Definition capitalization_ids (c : frame) : Prop :=
  Forall (fun f => f <> ner_feature_unknown -> interned c f) [fst_cap; all_cap; mixed_cap].

Lemma capitalization_ids_shape (c c' : frame) :
  same_shape c c' -> capitalization_ids c -> capitalization_ids c'.
Proof.
  intros Hs H. unfold capitalization_ids in *. eapply Forall_impl; [exact H|].
  intros f. now apply interned_stable.
Qed.

Lemma capitalization_emit_ok (f : ner_feature) (i : Z) (c : frame) :
  f ∈ [fst_cap; all_cap; mixed_cap] ->
  frame_wf c -> capitalization_ids c -> 0 <= i < size (sentence c) ->
  step_ok interned capitalization_ids (emit_in_window i f) c.
Proof.
  intros Hf W X Hi. apply emit_ok; try assumption.
  - exact interned_mono.
  - intros c0 c1 Hs _. now apply capitalization_ids_shape.
  - unfold capitalization_ids in X. rewrite Forall_forall in X. now apply X.
Qed.

Lemma capitalization_scan_ok (i : Z) (fuel : nat) :
  forall (str : string) (first was_upper was_lower : bool) (c : frame),
  (String.length str < fuel)%nat ->
  frame_wf c -> capitalization_ids c -> 0 <= i < size (sentence c) ->
  exists was_upper' was_lower' c',
    capitalization_scan utf8_decode unicode_category unicode_Lut unicode_Ll
      fuel i fst_cap str first was_upper was_lower c = Some (was_upper', was_lower', c') /\
    frame_wf c' /\ capitalization_ids c' /\ grows interned c c'.
Proof.
  induction fuel as [|fuel IH]; intros str first wu wl c Hlen W X Hi; [lia|].
  cbn [capitalization_scan].
  destruct (utf8_decode str) as [chr rest] eqn:Ed.
  destruct (Z.eqb_spec chr 0) as [Hz|Hz].
  { exists wu, wl, c. split; [reflexivity|]. split; [assumption|].
    split; [assumption|]. apply grows_refl. }
  pose proof (utf8_decode_progress _ _ _ Ed Hz) as Hlt.
  set (wu' := wu || negb (Z.land (unicode_category chr) unicode_Lut =? 0)).
  set (wl' := wl || negb (Z.land (unicode_category chr) unicode_Ll =? 0)).
  destruct (step_ok_when interned capitalization_ids (first && wu')
              (emit_in_window i fst_cap) c W X) as (c1 & E1 & W1 & X1 & G1).
  { intros _. apply capitalization_emit_ok; [apply list_elem_of_In; cbn; auto 10|assumption..]. }
  rewrite E1. cbn [mbind option_bind].
  destruct (IH rest false wu' wl' c1) as (wu2 & wl2 & c2 & E2 & W2 & X2 & G2);
    [lia|assumption|assumption|rewrite (ss_size _ _ (proj1 G1)); assumption|].
  exists wu2, wl2, c2. split; [assumption|]. split; [assumption|]. split; [assumption|].
  exact (grows_trans interned interned_mono _ _ _ G1 G2).
Qed.

Lemma capitalization_token_ok (field : ner_word -> string) (i : Z) (c : frame) :
  frame_wf c -> capitalization_ids c -> 0 <= i < size (sentence c) ->
  step_ok interned capitalization_ids
    (capitalization_token utf8_decode unicode_category unicode_Lut unicode_Ll
       field fst_cap all_cap mixed_cap i) c.
Proof.
  intros W X Hi. unfold capitalization_token, step_ok.
  destruct (word_at_Some c i W Hi) as (w & ->). cbn [mbind option_bind].
  destruct (capitalization_scan_ok i (S (String.length (field w))) (field w)
              true false false c) as (wu & wl & c1 & -> & W1 & X1 & G1);
    [lia|assumption..|].
  cbn [mbind option_bind].
  pose proof (ss_size _ _ (proj1 G1)) as Hsz.
  destruct (step_ok_seq interned interned_mono capitalization_ids
              (when (wu && negb wl) (emit_in_window i all_cap))
              (when (wu && wl) (emit_in_window i mixed_cap)) c1)
    as (c2 & E2 & W2 & X2 & G2).
  - apply step_ok_when; [assumption|assumption|]. intros _.
    apply capitalization_emit_ok; [apply list_elem_of_In; cbn; auto 10|assumption|assumption|lia].
  - intros c2 W2 X2 [_ Hsz2 _ _ _ _ _ _].
    apply step_ok_when; [assumption|assumption|]. intros _.
    apply capitalization_emit_ok; [apply list_elem_of_In; cbn; auto 10|assumption|assumption|lia].
  - exists c2. split; [exact E2|]. split; [assumption|]. split; [assumption|].
    exact (grows_trans interned interned_mono _ _ _ G1 G2).
Qed.
End capitalization.

Lemma capitalization_process_sentence_ok (utf8_decode : string -> Z * string)
    (unicode_category : Z -> Z) (unicode_Lut unicode_Ll : Z) (field : ner_word -> string)
    (c : frame) :
  (forall str chr rest,
     utf8_decode str = (chr, rest) -> chr <> 0 -> (String.length rest < String.length str)%nat) ->
  frame_wf c ->
  step_ok interned (fun _ => True)
    (capitalization_process_sentence utf8_decode unicode_category unicode_Lut unicode_Ll field) c.
Proof.
  intros Hdec W. unfold capitalization_process_sentence, step_ok.
  destruct (lookup_assign_spec "f" c) as (fst_cap & c1 & -> & S1 & E1 & I1); [discriminate|].
  destruct (lookup_assign_spec "a" c1) as (all_cap & c2 & -> & S2 & E2 & I2); [discriminate|].
  destruct (lookup_assign_spec "m" c2) as (mixed_cap & c3 & -> & S3 & E3 & I3); [discriminate|].
  assert (same_shape c c3) as S by eauto using same_shape_trans.
  destruct (for_tokens_ok interned interned_mono (capitalization_ids fst_cap all_cap mixed_cap)
              (capitalization_token utf8_decode unicode_category unicode_Lut unicode_Ll
                 field fst_cap all_cap mixed_cap) c3)
    as (c' & E & W' & _ & G').
  - intros i c' _ Hi W' X'. now apply capitalization_token_ok.
  - eapply frame_wf_same_shape; eassumption.
  - unfold capitalization_ids. repeat constructor;
      eauto 10 using interned_stable, same_shape_trans.
  - exists c'. split; [assumption|]. split; [assumption|]. split; [exact I|].
    eapply (grows_trans interned interned_mono); [|eassumption].
    apply grows_same_sentence; [assumption|congruence].
Qed.

(** ** PreviousStage stays in its bands *)

(** The values [append_encoded] can negate. *)
Definition encodable (v : Z) : Prop := - 2 ^ 31 < to_int v.

Definition stage_encodable (c : frame) : Prop :=
  Forall (fun ps => ps_bilou ps <> bilou_type_unknown ->
                    encodable (ps_bilou ps) /\ encodable (ps_entity ps))
    (previous_stage (sentence c)).

Lemma stage_encodable_shape (c c' : frame) :
  same_shape c c' -> stage_encodable c -> stage_encodable c'.
Proof. intros Hs. unfold stage_encodable. now rewrite (ss_previous_stage _ _ Hs). Qed.

Lemma push_back_nonempty (str : string) (a : ascii) : push_back str a <> EmptyString.
Proof. destruct str; discriminate. Qed.

Lemma append_nibbles_nonempty (fuel : nat) :
  forall (str : string) (value : Z),
  str <> EmptyString -> append_nibbles fuel str value <> EmptyString.
Proof.
  induction fuel as [|fuel IH]; intros str value H; cbn; [assumption|].
  destruct (value =? 0); [assumption|]. apply IH, push_back_nonempty.
Qed.

Lemma append_encoded_Some (str : string) (value : Z) :
  - 2 ^ 31 < value ->
  exists s, append_encoded str value = Some s /\ (str <> EmptyString -> s <> EmptyString).
Proof.
  intros Hv. unfold append_encoded. destruct (Z.ltb_spec value 0).
  - rewrite in_int_true by lia. eexists. split; [reflexivity|].
    intros _. apply append_nibbles_nonempty, push_back_nonempty.
  - eexists. split; [reflexivity|]. apply append_nibbles_nonempty.
Qed.

Lemma previous_stage_at_Some (c : frame) (i : Z) :
  frame_wf c -> 0 <= i < size (sentence c) ->
  exists ps, previous_stage_at c i = Some ps /\ ps ∈ previous_stage (sentence c).
Proof.
  intros W Hi. unfold previous_stage_at. destruct (Z.ltb_spec i 0); [lia|].
  destruct (lookup_lt_is_Some_2 (previous_stage (sentence c)) (Z.to_nat i)) as [ps E].
  { pose proof (wf_previous_stage _ (fw_sentence _ W)). lia. }
  exists ps. split; [assumption|]. eapply list_elem_of_lookup_2; eassumption.
Qed.

Lemma previous_stage_token_ok (i : Z) (c : frame) :
  frame_wf c -> stage_encodable c -> 0 <= i < size (sentence c) ->
  step_ok interned stage_encodable (previous_stage_token i) c.
Proof.
  intros W X Hi. unfold previous_stage_token, step_ok.
  destruct (previous_stage_at_Some c i W Hi) as (ps & -> & Hps). cbn [mbind option_bind].
  destruct (Z.eqb_spec (ps_bilou ps) bilou_type_unknown) as [Hu|Hu].
  { exists c. split; [reflexivity|]. split; [assumption|]. split; [assumption|]. apply grows_refl. }
  unfold stage_encodable in X. rewrite Forall_forall in X.
  destruct (X ps Hps Hu) as [Hb He].
  destruct (append_encoded_Some EmptyString (to_int (ps_bilou ps)) Hb) as (b1 & E1 & _).
  cbn [buffer with_buffer]. rewrite E1. cbn [mbind option_bind].
  destruct (append_encoded_Some (push_back b1 " ") (to_int (ps_entity ps)) He) as (b2 & E2 & Hne).
  rewrite E2. cbn [mbind option_bind].
  specialize (Hne (push_back_nonempty _ _)).
  set (c0 := with_buffer (with_buffer (with_buffer c EmptyString) (push_back b1 " ")) b2).
  assert (same_shape c c0) as S0 by (constructor; cbn; auto).
  destruct (lookup_spec b2 c0) as (f & c1 & E & Hs & Hw & _ & S1 & _ & Hint).
  rewrite E.
  assert (frame_wf c1) as W1 by eauto using frame_wf_same_shape.
  pose proof (wf_size _ (fw_sentence _ W1)) as Hsz.
  pose proof (fw_window _ W1) as Hwin. pose proof (fw_int _ W1) as Hint1.
  assert (size (sentence c1) = size (sentence c)) as Hsize by (rewrite Hs; reflexivity).
  rewrite (to_int_small i) by lia.
  destruct (on_sentence_apply_in_range_grows interned interned_mono c1 i f 1 (window c1))
    as (c2 & E3 & W2 & G2 & _); try assumption; try lia.
  { intros Hf. exists b2. auto. }
  exists c2. split; [assumption|]. split; [assumption|].
  assert (grows interned c c2) as G.
  { eapply (grows_trans interned interned_mono); [|eassumption].
    apply grows_same_sentence; [eapply same_shape_trans; eassumption|].
    rewrite Hs. reflexivity. }
  split; [|assumption]. eapply stage_encodable_shape; [apply G|].
  unfold stage_encodable. now rewrite Forall_forall.
Qed.

Lemma previous_stage_process_sentence_ok (c : frame) :
  frame_wf c -> stage_encodable c ->
  step_ok interned stage_encodable previous_stage_process_sentence c.
Proof.
  intros W X. apply for_tokens_ok; [exact interned_mono| |assumption|assumption].
  intros i c' _ Hi W' X'. now apply previous_stage_token_ok.
Qed.

(** ** BrownClusters stays in its bands *)

(** Every entry of [map] is an index into [l]. *)
Definition indexes {A : Type} (l : list A) (c : frame) : Prop :=
  forall key it, map c !! key = Some it -> 0 <= it < Z.of_nat (length l).

Lemma indexes_stable {A : Type} (l : list A) (c c' : frame) :
  same_shape c c' -> map c' = map c -> indexes l c -> indexes l c'.
Proof. intros _ Hm H key it. rewrite Hm. apply H. Qed.

Lemma brown_clusters_process_sentence_ok (clusters : list (list ner_feature)) (c : frame) :
  frame_wf c -> indexes clusters c ->
  step_ok (cluster_feature clusters) (indexes clusters)
    (brown_clusters_process_sentence clusters) c.
Proof.
  intros W X.
  assert (forall c c' f, same_shape c c' ->
            cluster_feature clusters c f -> cluster_feature clusters c' f) as Hmono by auto.
  apply for_tokens_ok; [exact Hmono| |assumption|assumption].
  intros i c' _ Hi W' X'. unfold brown_clusters_token, step_ok.
  destruct (word_at_Some c' i W' Hi) as (w & ->). cbn [mbind option_bind].
  destruct (map c' !! raw_lemma w) as [it|] eqn:Eit.
  2:{ exists c'. split; [reflexivity|]. split; [assumption|]. split; [assumption|].
      apply grows_refl. }
  destruct (X' _ _ Eit) as [Hlo Hhi]. destruct (Z.ltb_spec it 0); [lia|].
  destruct (lookup_lt_is_Some_2 clusters (Z.to_nat it)) as [cluster Ec]; [lia|].
  rewrite Ec. cbn [mbind option_bind].
  destruct (for_each_rule
              (fun c1 => frame_wf c1 /\ indexes clusters c1 /\ same_shape c' c1)
              (grows (cluster_feature clusters))
              (fun feature c => emit_in_window i feature c) cluster
              (grows_refl _) (grows_trans _ Hmono) c')
    as (c2 & E2 & (W2 & X2 & S2) & G2).
  - intros feature c1 Hin (W1 & X1 & S1).
    destruct (emit_ok (cluster_feature clusters) Hmono (indexes clusters)
                (indexes_stable clusters) i feature c1) as (c2 & E2 & W2 & X2 & G2);
      try assumption.
    { now rewrite (ss_size _ _ S1). }
    { intros _. exists cluster. split; [|assumption]. eapply list_elem_of_lookup_2; eassumption. }
    exists c2. split; [assumption|]. split; [|assumption].
    split; [assumption|]. split; [assumption|]. exact (same_shape_trans _ _ _ S1 (proj1 G2)).
  - auto using same_shape_refl.
  - exists c2. auto.
Qed.

(** ** Gazetteers stays in its bands *)

(** [map] indexes [gazetteers_info] and the role offsets fit an [int]. *)
Definition gazetteers_fit (gazetteers_info : list gazetteers.gazetteer_info) (c : frame) : Prop :=
  indexes gazetteers_info c /\ gazetteers.I * (2 * window c + 1) < 2 ^ 31.

Lemma gazetteers_fit_stable (gazetteers_info : list gazetteers.gazetteer_info) (c c' : frame) :
  same_shape c c' -> map c' = map c -> gazetteers_fit gazetteers_info c ->
  gazetteers_fit gazetteers_info c'.
Proof.
  intros Hs Hm [H1 H2]. split; [eapply indexes_stable; eassumption|].
  now rewrite (ss_window _ _ Hs).
Qed.

Lemma gazetteer_feature_mono (gazetteers_info : list gazetteers.gazetteer_info)
    (c c' : frame) (f : ner_feature) :
  same_shape c c' -> gazetteer_feature gazetteers_info c f -> gazetteer_feature gazetteers_info c' f.
Proof. apply (centres_mono (Gazetteers gazetteers_info)). Qed.

(** Two frames that differ in [buffer] only. *)
Lemma buffer_only_same_shape (c c' : frame) :
  sentence c' = sentence c -> window c' = window c -> map c' = map c ->
  total_features c' = total_features c -> same_shape c c'.
Proof. intros Hs Hw Hm Ht. constructor; rewrite ?Hs, ?Hm, ?Ht; auto. Qed.

Section gazetteers_bands.
Variable gazetteers_info : list gazetteers.gazetteer_info.

#[local] Abbreviation ok :=
  (step_ok (gazetteer_feature gazetteers_info) (gazetteers_fit gazetteers_info)).

Lemma emit_role_ok (info : gazetteers.gazetteer_info) (feature : ner_feature) (role g : Z)
    (c : frame) :
  info ∈ gazetteers_info -> feature ∈ gazetteers.features info ->
  gazetteers.G <= role <= gazetteers.I ->
  frame_wf c -> gazetteers_fit gazetteers_info c -> 0 <= g < size (sentence c) ->
  ok (emit_role g feature role) c.
Proof.
  intros Hinfo Hfeat Hrole W X Hg. unfold emit_role, step_ok, role_feature.
  pose proof (fw_window _ W) as Hw. destruct X as [X1 X2].
  unfold gazetteers.G, gazetteers.I in *.
  rewrite !in_int_true by nia. cbn [andb mbind option_bind].
  apply emit_ok; try assumption.
  - apply gazetteer_feature_mono.
  - apply gazetteers_fit_stable.
  - split; assumption.
  - intros _. exists info, feature, role. auto.
Qed.

Lemma gazetteers_span_ok (info : gazetteers.gazetteer_info) (feature : ner_feature)
    (i j g : Z) (c : frame) :
  info ∈ gazetteers_info -> feature ∈ gazetteers.features info ->
  frame_wf c -> gazetteers_fit gazetteers_info c -> 0 <= g < size (sentence c) ->
  ok (gazetteers_span i j feature g) c.
Proof.
  intros Hinfo Hfeat W X Hg. unfold gazetteers_span.
  apply (step_ok_bind _ (gazetteer_feature_mono gazetteers_info)).
  - eapply emit_role_ok; try eassumption. unfold gazetteers.G, gazetteers.I. lia.
  - intros c1 W1 X1 S1. eapply emit_role_ok; try eassumption.
    + unfold gazetteers.G, gazetteers.B, gazetteers.L, gazetteers.I.
      destruct (g =? i); [lia|]. destruct (g =? j); lia.
    + now rewrite (ss_size _ _ S1).
Qed.

Lemma info_at_Some (it : ner_feature) (c : frame) (key : string) :
  gazetteers_fit gazetteers_info c -> map c !! key = Some it ->
  exists info, info_at gazetteers_info it = Some info /\ info ∈ gazetteers_info.
Proof.
  intros [X _] Hk. destruct (X _ _ Hk) as [Hlo Hhi]. unfold info_at.
  destruct (Z.ltb_spec it 0); [lia|].
  destruct (lookup_lt_is_Some_2 gazetteers_info (Z.to_nat it)) as [info E]; [lia|].
  exists info. split; [assumption|]. eapply list_elem_of_lookup_2; eassumption.
Qed.

(** All features of one entry emitted over the span [[i, j]]. *)
Lemma gazetteers_match_ok (info : gazetteers.gazetteer_info) (i j : Z) (c : frame) :
  info ∈ gazetteers_info -> 0 <= i -> i <= j < size (sentence c) ->
  frame_wf c -> gazetteers_fit gazetteers_info c ->
  ok (for_each (gazetteers.features info)
        (fun feature c =>
           for_loop (Z.to_nat (j - i + 1)) i (gazetteers_span i j feature) c)) c.
Proof.
  intros Hinfo Hi Hj W X.
  destruct (for_each_rule
              (fun c1 => frame_wf c1 /\ gazetteers_fit gazetteers_info c1 /\ same_shape c c1)
              (grows (gazetteer_feature gazetteers_info))
              (fun feature c =>
                 for_loop (Z.to_nat (j - i + 1)) i (gazetteers_span i j feature) c)
              (gazetteers.features info)
              (grows_refl _) (grows_trans _ (gazetteer_feature_mono gazetteers_info)) c)
    as (c2 & E2 & (W2 & X2 & S2) & G2).
  - intros feature c1 Hfeat (W1 & X1 & S1).
    destruct (for_loop_rule
                (fun c2 => frame_wf c2 /\ gazetteers_fit gazetteers_info c2 /\ same_shape c1 c2)
                (grows (gazetteer_feature gazetteers_info))
                (gazetteers_span i j feature) (Z.to_nat (j - i + 1))
                (grows_refl _) (grows_trans _ (gazetteer_feature_mono gazetteers_info)) i c1)
      as (c3 & E3 & (W3 & X3 & S3) & G3).
    + intros g c2 Hg (W2 & X2 & S2).
      destruct (gazetteers_span_ok info feature i j g c2) as (c3 & E3 & W3 & X3 & G3);
        try assumption.
      { rewrite (ss_size _ _ S2), (ss_size _ _ S1). lia. }
      exists c3. split; [assumption|]. split; [|assumption].
      split; [assumption|]. split; [assumption|].
      exact (same_shape_trans _ _ _ S2 (proj1 G3)).
    + auto using same_shape_refl.
    + exists c3. split; [assumption|]. split; [|assumption].
      split; [assumption|]. split; [assumption|].
      exact (same_shape_trans _ _ _ S1 S3).
  - auto using same_shape_refl.
  - exists c2. auto.
Qed.

Lemma gazetteers_extend_ok (i : Z) (fuel : nat) :
  forall (j : Z) (it : ner_feature) (key : string) (c : frame),
  0 <= i < j -> Z.max 0 (size (sentence c) - j) < Z.of_nat fuel ->
  map c !! key = Some it ->
  frame_wf c -> gazetteers_fit gazetteers_info c ->
  ok (gazetteers_extend fuel gazetteers_info i j it) c.
Proof.
  induction fuel as [|fuel IH]; intros j it key c Hij Hfuel Hit W X.
  { exfalso. lia. }
  unfold step_ok. cbn [gazetteers_extend].
  destruct (info_at_Some it c key X Hit) as (info & -> & _). cbn [mbind option_bind].
  destruct (gazetteers.prefix_of_longer info && (j <? size (sentence c))) eqn:Econd.
  2:{ exists c. split; [reflexivity|]. split; [assumption|]. split; [assumption|].
      apply grows_refl. }
  apply andb_prop in Econd as [_ Hj]. apply Z.ltb_lt in Hj.
  destruct (word_at_Some c i W) as (wi & ->); [lia|].
  destruct (word_at_Some c j W) as (wj & ->); [lia|].
  cbn [mbind option_bind].
  set (c1 := with_buffer _ _).
  assert (same_shape c c1) as S1.
  { apply buffer_only_same_shape; subst c1; destruct (j =? i + 1); reflexivity. }
  assert (map c1 = map c) as Hm1 by (subst c1; destruct (j =? i + 1); reflexivity).
  assert (frame_wf c1) as W1 by eauto using frame_wf_same_shape.
  assert (gazetteers_fit gazetteers_info c1) as X1 by eauto using gazetteers_fit_stable.
  assert (size (sentence c1) = size (sentence c)) as Hsz1 by apply S1.
  assert (sentence c1 = sentence c) as Hs1 by (subst c1; destruct (j =? i + 1); reflexivity).
  clearbody c1.
  destruct (map c1 !! buffer c1) as [it'|] eqn:Eit'.
  2:{ exists c1. split; [reflexivity|]. split; [assumption|]. split; [assumption|].
      now apply grows_same_sentence. }
  destruct (info_at_Some it' c1 _ X1 Eit') as (info' & -> & Hinfo').
  cbn [mbind option_bind].
  destruct (gazetteers_match_ok info' i j c1) as (c2 & E2 & W2 & X2 & G2);
    try assumption; try lia.
  rewrite E2. cbn [mbind option_bind].
  assert (map c2 !! buffer c1 = Some it') as Hit2.
  { eapply lookup_weaken; [eassumption|]. apply (ss_map _ _ (proj1 G2)). }
  destruct (IH (j + 1) it' (buffer c1) c2) as (c3 & E3 & W3 & X3 & G3);
    try assumption; try lia.
  { rewrite (ss_size _ _ (proj1 G2)). lia. }
  exists c3. split; [assumption|]. split; [assumption|]. split; [assumption|].
  eapply (grows_trans _ (gazetteer_feature_mono gazetteers_info)); [|eassumption].
  eapply (grows_trans _ (gazetteer_feature_mono gazetteers_info)); [|eassumption].
  now apply grows_same_sentence.
Qed.

Lemma gazetteers_process_sentence_ok (c : frame) :
  frame_wf c -> gazetteers_fit gazetteers_info c ->
  ok (gazetteers_process_sentence gazetteers_info) c.
Proof.
  intros W X.
  apply for_tokens_ok; [apply gazetteer_feature_mono| |assumption|assumption].
  intros i c' _ Hi W' X'. unfold gazetteers_token, step_ok.
  destruct (word_at_Some c' i W' Hi) as (w & ->). cbn [mbind option_bind].
  destruct (map c' !! raw_lemma w) as [it|] eqn:Eit.
  2:{ exists c'. split; [reflexivity|]. split; [assumption|]. split; [assumption|].
      apply grows_refl. }
  destruct (info_at_Some it c' _ X' Eit) as (info & -> & Hinfo).
  cbn [mbind option_bind].
  destruct (for_each_rule
              (fun c1 => frame_wf c1 /\ gazetteers_fit gazetteers_info c1 /\ same_shape c' c1)
              (grows (gazetteer_feature gazetteers_info))
              (fun feature c =>
                 c ← emit_role i feature gazetteers.G c;
                 emit_role i feature gazetteers.U c)
              (gazetteers.features info)
              (grows_refl _) (grows_trans _ (gazetteer_feature_mono gazetteers_info)) c')
    as (c2 & E2 & (W2 & X2 & S2) & G2).
  - intros feature c1 Hfeat (W1 & X1 & S1).
    destruct (step_ok_seq _ (gazetteer_feature_mono gazetteers_info)
                (gazetteers_fit gazetteers_info)
                (emit_role i feature gazetteers.G) (emit_role i feature gazetteers.U) c1)
      as (c2 & E2 & W2 & X2 & G2).
    + eapply emit_role_ok; try eassumption.
      * unfold gazetteers.G, gazetteers.I. lia.
      * now rewrite (ss_size _ _ S1).
    + intros c2 W2 X2 S2. eapply emit_role_ok; try eassumption.
      * unfold gazetteers.G, gazetteers.U, gazetteers.I. lia.
      * now rewrite (ss_size _ _ S2), (ss_size _ _ S1).
    + exists c2. split; [assumption|]. split; [|assumption].
      split; [assumption|]. split; [assumption|].
      exact (same_shape_trans _ _ _ S1 (proj1 G2)).
  - auto using same_shape_refl.
  - rewrite E2. cbn [mbind option_bind].
    assert (map c2 !! raw_lemma w = Some it) as Hit2.
    { eapply lookup_weaken; [eassumption|]. apply (ss_map _ _ S2). }
    destruct (gazetteers_extend_ok i (S (Z.to_nat (size (sentence c2) - (i + 1))))
                (i + 1) it (raw_lemma w) c2) as (c3 & E3 & W3 & X3 & G3);
      try assumption; try lia.
    exists c3. split; [assumption|]. split; [assumption|]. split; [assumption|].
    exact (grows_trans _ (gazetteer_feature_mono gazetteers_info) _ _ _ G2 G3).
Qed.
End gazetteers_bands.

(** ** URLEmailDetector *)

Lemma for_loop_indexed {St : Type} (Inv : Z -> St -> Prop) (body : Z -> St -> option St)
    (n : nat) :
  forall (lo : Z) (s : St),
  (forall i s, lo <= i < lo + Z.of_nat n -> Inv i s -> exists s', body i s = Some s' /\ Inv (i + 1) s') ->
  Inv lo s ->
  exists s', for_loop n lo body s = Some s' /\ Inv (lo + Z.of_nat n) s'.
Proof.
  induction n as [|n IH]; intros lo s Hbody Hs.
  - exists s. cbn. rewrite Z.add_0_r. auto.
  - destruct (Hbody lo s) as (s1 & E1 & I1); [lia|assumption|].
    destruct (IH (lo + 1) s1) as (s2 & E2 & I2).
    + intros i s' Hi. apply Hbody. lia.
    + assumption.
    + exists s2. cbn [for_loop]. rewrite E1. split; [assumption|].
      replace (lo + Z.of_nat (S n)) with (lo + 1 + Z.of_nat n) by lia. assumption.
Qed.

(** Closes the comparison of two [decide]d conditions that differ in their
    arithmetic part. *)
Ltac decide_cases :=
  repeat case_decide; try reflexivity; exfalso;
  repeat match goal with H : _ /\ _ |- _ => destruct H end;
  match goal with
  | H : ~ _ |- _ => apply H; solve [assumption | lia | split; [lia|assumption]]
  end.

(** The slots a detected token is given: all five zeroed, then [U] set. *)
Definition unit_slots (type : entity_type) : list bilou_probability :=
  [Bilou_probability 0%float entity_type_unknown; Bilou_probability 0%float entity_type_unknown;
   Bilou_probability 0%float entity_type_unknown; Bilou_probability 0%float entity_type_unknown;
   Bilou_probability 1%float type].

Section url_email_detector.
Variable url_detector_detect : string -> url_type.
Variables url email : entity_type.

(** The token is classified as URL or EMAIL and not yet filled. *)
Definition detected (w : ner_word) (p : probability_info) : Prop :=
  url_detector_detect (form w) <> NO_URL /\ local_filled p = false.

#[global] Instance detected_dec w p : Decision (detected w p).
Proof. unfold detected. apply _. Defined.

Definition detected_type (w : ner_word) : entity_type :=
  match url_detector_detect (form w) with EMAIL => email | _ => url end.

(** What [probabilities[i]] holds once the tokens below [k] were visited. *)
Definition filled_upto (k : Z) (i : nat) (w : ner_word) (p : probability_info)
    : probability_info :=
  if decide (Z.of_nat i < k /\ detected w p)
  then Probability_info (unit_slots (detected_type w)) true
  else p.

Record url_run (c : frame) (k : Z) (c' : frame) : Prop := {
  ur_features : features (sentence c') = features (sentence c);
  ur_words : words (sentence c') = words (sentence c);
  ur_size : size (sentence c') = size (sentence c);
  ur_previous_stage : previous_stage (sentence c') = previous_stage (sentence c);
  ur_window : window c' = window c;
  ur_map : map c' = map c;
  ur_total_features : total_features c' = total_features c;
  ur_buffer : buffer c' = buffer c;
  ur_length : length (probabilities (sentence c')) = length (probabilities (sentence c));
  ur_filled : forall (i : nat) w p,
    words (sentence c) !! i = Some w -> probabilities (sentence c) !! i = Some p ->
    probabilities (sentence c') !! i = Some (filled_upto k i w p);
  ur_rest : forall i : nat,
    words (sentence c) !! i = None ->
    probabilities (sentence c') !! i = probabilities (sentence c) !! i }.

Lemma unit_slots_eq (l : list bilou_probability) (type : entity_type) :
  length l = 5%nat ->
  <[Z.to_nat bilou_type_U := Bilou_probability 1%float type]>
    ((fun _ => Bilou_probability 0%float entity_type_unknown) <$> l) = unit_slots type.
Proof.
  intros H. do 6 (destruct l as [|? l]; try discriminate). reflexivity.
Qed.

Lemma url_email_detector_run (c : frame) :
  frame_wf c ->
  Forall (fun p => length (local_bilou p) = 5%nat) (probabilities (sentence c)) ->
  exists c', url_email_detector_process_sentence url_detector_detect url email c = Some c' /\
    url_run c (size (sentence c)) c'.
Proof.
  intros W H5. unfold url_email_detector_process_sentence, for_tokens.
  pose proof (wf_size _ (fw_sentence _ W)) as Hsz.
  pose proof (wf_words _ (fw_sentence _ W)) as Hwords.
  pose proof (wf_probabilities _ (fw_sentence _ W)) as Hprobs.
  destruct (for_loop_indexed (url_run c)
              (url_email_detector_token url_detector_detect url email)
              (Z.to_nat (size (sentence c))) 0 c) as (c' & E & R).
  - intros i c1 Hi R1. unfold url_email_detector_token, word_at, probabilities_at.
    destruct (Z.ltb_spec i 0); [lia|].
    rewrite (ur_words _ _ _ R1).
    destruct (lookup_lt_is_Some_2 (words (sentence c)) (Z.to_nat i)) as [w Ew]; [lia|].
    destruct (lookup_lt_is_Some_2 (probabilities (sentence c)) (Z.to_nat i)) as [p Ep]; [lia|].
    rewrite Ew. cbn [mbind option_bind].
    assert (probabilities (sentence c1) !! Z.to_nat i = Some p) as Ep1.
    { rewrite (ur_filled _ _ _ R1 _ _ _ Ew Ep). unfold filled_upto.
      case_decide; [lia|reflexivity]. }
    assert (forall c2, sentence c2 = sentence c1 -> window c2 = window c1 -> map c2 = map c1 ->
              total_features c2 = total_features c1 -> buffer c2 = buffer c1 ->
              ~ detected w p -> url_run c (i + 1) c2) as Hskip.
    { intros c2 Hs Hw Hm Ht Hb Hnd. destruct R1. constructor; rewrite ?Hs; try congruence; try assumption.
      intros j wj pj Ewj Epj. rewrite (ur_filled0 _ _ _ Ewj Epj). unfold filled_upto.
      destruct (decide (j = Z.to_nat i)) as [->|Hne].
      - assert (wj = w) as -> by congruence. assert (pj = p) as -> by congruence.
        decide_cases.
      - decide_cases. }
    destruct (url_detector_detect (form w)) eqn:Edet.
    + exists c1. split; [reflexivity|]. apply Hskip; auto.
      unfold detected. rewrite Edet. tauto.
    + rewrite Ep1. cbn [mbind option_bind].
      destruct (local_filled p) eqn:Efilled.
      { exists c1. split; [reflexivity|]. apply Hskip; auto.
        unfold detected. rewrite Efilled. intros [_ ?]. discriminate. }
      eexists. split; [reflexivity|].
      rewrite unit_slots_eq
        by (rewrite Forall_forall in H5; apply H5; eapply list_elem_of_lookup_2; eassumption).
      destruct R1. constructor; cbn; try assumption.
      * rewrite length_insert. assumption.
      * intros j wj pj Ewj Epj. destruct (decide (j = Z.to_nat i)) as [->|Hne].
        -- assert (wj = w) as -> by congruence. assert (pj = p) as -> by congruence.
           rewrite list_lookup_insert_eq by lia. unfold filled_upto.
           case_decide as Hd; [unfold detected_type; rewrite Edet; reflexivity|].
           exfalso. apply Hd. split; [lia|]. unfold detected. rewrite Edet, Efilled.
           split; [discriminate|reflexivity].
        -- rewrite list_lookup_insert_ne by congruence.
           rewrite (ur_filled0 _ _ _ Ewj Epj). unfold filled_upto.
           decide_cases.
      * intros j Hj. rewrite list_lookup_insert_ne; [auto|].
        intros <-. congruence.
    + rewrite Ep1. cbn [mbind option_bind].
      destruct (local_filled p) eqn:Efilled.
      { exists c1. split; [reflexivity|]. apply Hskip; auto.
        unfold detected. rewrite Efilled. intros [_ ?]. discriminate. }
      eexists. split; [reflexivity|].
      rewrite unit_slots_eq
        by (rewrite Forall_forall in H5; apply H5; eapply list_elem_of_lookup_2; eassumption).
      destruct R1. constructor; cbn; try assumption.
      * rewrite length_insert. assumption.
      * intros j wj pj Ewj Epj. destruct (decide (j = Z.to_nat i)) as [->|Hne].
        -- assert (wj = w) as -> by congruence. assert (pj = p) as -> by congruence.
           rewrite list_lookup_insert_eq by lia. unfold filled_upto.
           case_decide as Hd; [unfold detected_type; rewrite Edet; reflexivity|].
           exfalso. apply Hd. split; [lia|]. unfold detected. rewrite Edet, Efilled.
           split; [discriminate|reflexivity].
        -- rewrite list_lookup_insert_ne by congruence.
           rewrite (ur_filled0 _ _ _ Ewj Epj). unfold filled_upto.
           decide_cases.
      * intros j Hj. rewrite list_lookup_insert_ne; [auto|].
        intros <-. congruence.
  - constructor; try reflexivity. intros i w p _ Ep. rewrite Ep. unfold filled_upto.
    case_decide; [lia|reflexivity].
  - exists c'. split; [assumption|].
    replace (0 + Z.of_nat (Z.to_nat (size (sentence c)))) with (size (sentence c)) in R by lia.
    assumption.
Qed.
End url_email_detector.

(** * The properties of the specification *)

(** ** Sentences and frames used as instances *)

Definition plain_word (text : string) : ner_word := Ner_word text text text EmptyString EmptyString.

Definition blank_slots : list bilou_probability :=
  replicate 5 (Bilou_probability 0%float entity_type_unknown).

(** The sentence of the given forms, nothing emitted or predicted yet. *)
Definition plain_sentence (texts : list string) : ner_sentence :=
  Ner_sentence (Z.of_nat (length texts)) (plain_word <$> texts)
    ((fun _ => []) <$> texts)
    ((fun _ => Probability_info blank_slots false) <$> texts)
    ((fun _ => Previous_stage_info bilou_type_unknown entity_type_unknown) <$> texts).

(** Training with window 2 on a fresh interning table, id 0 taken. *)
Definition training_frame (texts : list string) : frame :=
  Frame (plain_sentence texts) 2 ∅ (Some 1) EmptyString.

Lemma plain_sentence_wf (texts : list string) :
  Z.of_nat (length texts) < 2 ^ 31 -> sentence_wf (plain_sentence texts).
Proof. intros H. constructor; cbn; rewrite ?length_fmap; lia. Qed.

Lemma training_frame_wf (texts : list string) :
  Z.of_nat (length texts) + 4 < 2 ^ 31 -> frame_wf (training_frame texts).
Proof. intros H. constructor; [apply plain_sentence_wf; lia|cbn; lia|cbn; lia]. Qed.

Lemma ascii_decode_progress (str : string) (chr : Z) (rest : string) :
  ascii_decode str = (chr, rest) -> chr <> 0 -> (String.length rest < String.length str)%nat.
Proof.
  destruct str as [|a str]; cbn; intros [= <- <-] H; [congruence|lia].
Qed.

(** ** C1: the window emission primitive *)

(** C1. For every well-formed sentence, centre [i], base id [f] and range
    [[L, R]] within the [int] arithmetic of the macro, [apply_in_range]
    returns, leaves everything but [features] alone, and position [p] gains
    exactly the one id [f + (p - i)] (in the arithmetic of [ner_feature])
    when [f] is not the unknown sentinel and [p] lies in
    [[max(0, i+L), min(size-1, i+R)]], and gains nothing otherwise. *)
Theorem apply_in_range_emits (s : ner_sentence) (i : Z) (f : ner_feature) (L R : Z) :
  sentence_wf s ->
  - 2 ^ 31 <= i + L < 2 ^ 31 -> - 2 ^ 31 <= i + R < 2 ^ 31 - 1 ->
  exists s', apply_in_range i f L R s = Some s' /\
    size s' = size s /\ words s' = words s /\
    probabilities s' = probabilities s /\ previous_stage s' = previous_stage s /\
    length (features s') = length (features s) /\
    forall (p : nat) (F : list ner_feature),
      features s !! p = Some F ->
      features s' !! p =
        Some (if decide (f <> ner_feature_unknown /\
                         Z.max 0 (i + L) <= Z.of_nat p <= Z.min (size s - 1) (i + R))
              then F ++ [wrap32 (f + (Z.of_nat p - i))] else F).
Proof.
  intros W HL HR.
  destruct (apply_in_range_total s i f L R W HL HR) as (s' & E & Hs & Hw & Hp & Hq & Hl & Hf).
  exists s'. repeat (split; [assumption|]).
  intros p F HF. rewrite Hf, HF. reflexivity.
Qed.

Lemma apply_in_range_emits_witness :
  exists s', apply_in_range 1 10 (-1) 2 (plain_sentence ["a"; "b"; "c"]) = Some s' /\
    features s' !! 0%nat = Some [9] /\ features s' !! 2%nat = Some [11].
Proof.
  destruct (apply_in_range_emits (plain_sentence ["a"; "b"; "c"]) 1 10 (-1) 2)
    as (s' & E & _ & _ & _ & _ & _ & Hf).
  - apply plain_sentence_wf. cbn. lia.
  - lia.
  - lia.
  - exists s'. split; [exact E|]. split.
    + exact (Hf 0%nat [] eq_refl).
    + exact (Hf 2%nat [] eq_refl).
Defined.

(** ** The frames a processor runs in *)

(** What each processor needs of the frame it runs in: the entries of [map]
    index the state of [BrownClusters] and [Gazetteers], the role offsets of
    [Gazetteers] fit an [int], [PreviousStage] can negate the values it
    encodes, and the [local.bilou] arrays hold their five slots. *)
Definition processor_wf (p : feature_processor) (c : frame) : Prop :=
  match p with
  | BrownClusters clusters => indexes clusters c
  | Gazetteers gazetteers_info => gazetteers_fit gazetteers_info c
  | PreviousStage => stage_encodable c
  | URLEmailDetector _ _ =>
      Forall (fun p => length (local_bilou p) = 5%nat) (probabilities (sentence c))
  | _ => True
  end.

(** ** C9: URLEmailDetector *)

(** C9. For every frame whose [local.bilou] arrays hold five slots,
    [URLEmailDetector] returns; [probabilities[i]] of a token [i < size]
    changes exactly when the detector classifies its form as URL or EMAIL
    and [local_filled] is false, and then holds four zeroed slots with the
    unknown entity, slot [U] with probability 1 and the url or email type,
    and [local_filled = true]; every other slot of [probabilities], the
    features and the rest of the frame are unchanged. *)
Theorem url_email_detector_fills (url_detector_detect : string -> url_type)
    (url email : entity_type) (c : frame) :
  frame_wf c ->
  Forall (fun p => length (local_bilou p) = 5%nat) (probabilities (sentence c)) ->
  exists c',
    url_email_detector_process_sentence url_detector_detect url email c = Some c' /\
    features (sentence c') = features (sentence c) /\
    words (sentence c') = words (sentence c) /\
    size (sentence c') = size (sentence c) /\
    previous_stage (sentence c') = previous_stage (sentence c) /\
    map c' = map c /\ total_features c' = total_features c /\
    length (probabilities (sentence c')) = length (probabilities (sentence c)) /\
    (forall (i : nat) (w : ner_word) (p : probability_info),
       words (sentence c) !! i = Some w -> probabilities (sentence c) !! i = Some p ->
       probabilities (sentence c') !! i =
         Some (if decide (Z.of_nat i < size (sentence c) /\
                          url_detector_detect (form w) <> NO_URL /\ local_filled p = false)
               then Probability_info
                      [Bilou_probability 0%float entity_type_unknown;
                       Bilou_probability 0%float entity_type_unknown;
                       Bilou_probability 0%float entity_type_unknown;
                       Bilou_probability 0%float entity_type_unknown;
                       Bilou_probability 1%float
                         (match url_detector_detect (form w) with
                          | EMAIL => email
                          | _ => url
                          end)] true
               else p)) /\
    (forall i : nat,
       words (sentence c) !! i = None ->
       probabilities (sentence c') !! i = probabilities (sentence c) !! i).
Proof.
  intros W H5.
  destruct (url_email_detector_run url_detector_detect url email c W H5) as (c' & E & R).
  exists c'. destruct R. do 8 (split; [assumption|]). split; [|assumption].
  intros i w p Hw Hp. rewrite (ur_filled0 i w p Hw Hp).
  unfold filled_upto, detected, detected_type, unit_slots.
  repeat case_decide; try reflexivity; tauto.
Qed.

Lemma url_email_detector_fills_witness :
  exists c',
    url_email_detector_process_sentence detect_at_sign 7 8
      (training_frame ["hello"; "x@y.z"; "world"]) = Some c' /\
    probabilities (sentence c') !! 1%nat =
      Some (Probability_info
              [Bilou_probability 0%float entity_type_unknown; Bilou_probability 0%float entity_type_unknown;
               Bilou_probability 0%float entity_type_unknown; Bilou_probability 0%float entity_type_unknown;
               Bilou_probability 1%float 8] true) /\
    probabilities (sentence c') !! 0%nat = Some (Probability_info blank_slots false) /\
    probabilities (sentence c') !! 2%nat = Some (Probability_info blank_slots false).
Proof.
  destruct (url_email_detector_fills detect_at_sign 7 8
              (training_frame ["hello"; "x@y.z"; "world"]))
    as (c' & E & _ & _ & _ & _ & _ & _ & _ & Hf & _).
  - apply training_frame_wf. cbn. lia.
  - repeat constructor.
  - exists c'. split; [exact E|]. split; [|split].
    + exact (Hf 1%nat _ _ eq_refl eq_refl).
    + exact (Hf 0%nat _ _ eq_refl eq_refl).
    + exact (Hf 2%nat _ _ eq_refl eq_refl).
Defined.

(** ** C4: CzechAddContainers on the example *)

Definition example_entities : list named_entity.t :=
  [named_entity.make 0 1 "pf"; named_entity.make 1 1 "pf"; named_entity.make 2 1 "ps";
   named_entity.make 5 1 "td"; named_entity.make 6 1 "tm"; named_entity.make 7 1 "ty"].

Definition is_container (e : named_entity.t) : bool :=
  String.eqb (named_entity.type e) "P" || String.eqb (named_entity.type e) "T".

(** C4. On the six example entities [process_entities] replaces the list
    by: the container [(0, 3, P)] immediately before the [pf] at 0, the
    container [(5, 3, T)] immediately before the [td] at 5, and all six
    originals in their order; apart from the two containers the list is the
    input. *)
Theorem czech_add_containers_example (buffer : list named_entity.t) :
  exists entities buffer',
    czech_add_containers_process_entities example_entities buffer = Some (entities, buffer') /\
    entities =
      [named_entity.make 0 3 "P";
       named_entity.make 0 1 "pf"; named_entity.make 1 1 "pf"; named_entity.make 2 1 "ps";
       named_entity.make 5 3 "T";
       named_entity.make 5 1 "td"; named_entity.make 6 1 "tm"; named_entity.make 7 1 "ty"] /\
    List.filter (fun e => negb (is_container e)) entities = example_entities.
Proof.
  eexists _, _. split; [reflexivity|]. split; reflexivity.
Qed.

(** ** Features emitted around a token *)

(** The id [f] was emitted in the window around token [i]: every position
    [p] the window reaches holds [f + (p - i)]. *)
Definition emitted_around (c : frame) (f : ner_feature) (i : Z) : Prop :=
  let lo := Z.max 0 (i - window c) in
  let hi := Z.min (size (sentence c) - 1) (i + window c) in
  Forall (fun p => wrap32 (f + (p - i)) ∈ default [] (features (sentence c) !! Z.to_nat p))
    (seqZ lo (hi - lo + 1)).

#[global] Instance emitted_around_dec c f i : Decision (emitted_around c f i).
Proof. unfold emitted_around. apply _. Defined.

(** The feature interned under [key] was emitted around token [i]. *)
Definition emits (c : frame) (key : string) (i : Z) : Prop :=
  match map c !! key with
  | Some f => emitted_around c f i
  | None => False
  end.

#[global] Instance emits_dec c key i : Decision (emits c key i).
Proof. unfold emits. destruct (map c !! key); apply _. Defined.

Lemma not_emits (c : frame) (key : string) (i : Z) :
  bool_decide (emits c key i) = false -> ~ emits c key i.
Proof. apply bool_decide_eq_false. Qed.

(** The keys among [keys] whose feature was emitted around each token. *)
Definition emission_table (c : frame) (keys : list string) : list (list string) :=
  (fun i => List.filter (fun key => bool_decide (emits c key i)) keys)
    <$> seqZ 0 (size (sentence c)).

(** ** C5: NumericTimeValue on the example *)

Definition numeric_forms : list string := ["7"; "30"; "12:45"; "1999"; "2300"; "13.70"].

Definition numeric_keys : list string := ["H"; "M"; "t"; "d"; "m"; "y"].

(** The scenario as the specification states it: hour, minute, day and
    time around token 2, day, month and year around token 3, hour, day and
    month around token 5.  The code emits only the time feature for a token
    with a separator and only the year for 1999. *)
Lemma number_time_value_example_as_stated_fails :
  ~ (exists c',
       number_time_value_process_sentence (training_frame numeric_forms) = Some c' /\
       (emits c' "H" 0 /\ emits c' "M" 0 /\ emits c' "d" 0 /\ emits c' "m" 0) /\
       (emits c' "M" 1 /\ emits c' "d" 1) /\
       (emits c' "H" 2 /\ emits c' "M" 2 /\ emits c' "d" 2 /\ emits c' "t" 2) /\
       (emits c' "d" 3 /\ emits c' "m" 3 /\ emits c' "y" 3) /\
       Forall (fun key => ~ emits c' key 4) numeric_keys /\
       (emits c' "H" 5 /\ emits c' "d" 5 /\ emits c' "m" 5 /\ ~ emits c' "t" 5)).
Proof.
  intros (c' & E & _ & _ & (H2 & _) & _).
  vm_compute in E. injection E as <-.
  revert H2. apply not_emits. vm_compute. reflexivity.
Qed.

(** C5, amended. On the example [NumericTimeValue] emits hour, minute, day
    and month around token 0, minute and day around token 1, only time
    around token 2, only year around token 3, and nothing around tokens 4
    and 5. *)
Theorem number_time_value_example :
  exists c',
    number_time_value_process_sentence (training_frame numeric_forms) = Some c' /\
    (map c' !! "H", map c' !! "M", map c' !! "t", map c' !! "d", map c' !! "m", map c' !! "y")
      = (Some 3, Some 8, Some 13, Some 18, Some 23, Some 28) /\
    features (sentence c') =
      [[3; 8; 18; 23; 7; 17; 11]; [4; 9; 19; 24; 8; 18; 12; 26];
       [5; 10; 20; 25; 9; 19; 13; 27]; [10; 20; 14; 28]; [15; 29]; [30]] /\
    emission_table c' numeric_keys =
      [["H"; "M"; "d"; "m"]; ["M"; "d"]; ["t"]; ["y"]; []; []].
Proof.
  eexists. split; [vm_compute; reflexivity|]. vm_compute. auto.
Qed.

(** ** C6: FormCapitalization on the example *)

Lemma for_loop_ext {St : Type} (Inv : St -> Prop) (body1 body2 : Z -> St -> option St)
    (n : nat) :
  forall (lo : Z) (s : St),
  (forall i s, lo <= i < lo + Z.of_nat n -> Inv s ->
     body1 i s = body2 i s /\ forall s', body2 i s = Some s' -> Inv s') ->
  Inv s -> for_loop n lo body1 s = for_loop n lo body2 s.
Proof.
  induction n as [|n IH]; intros lo s Hbody Hs; [reflexivity|].
  cbn [for_loop]. destruct (Hbody lo s) as [E Hinv]; [lia|assumption|].
  rewrite E. destruct (body2 lo s) as [s'|]; [|reflexivity].
  apply IH; [|auto]. intros i s1 Hi. apply Hbody. lia.
Qed.

Definition ascii_letter (a : ascii) : Prop :=
  65 <= Z.of_N (N_of_ascii a) <= 90 \/ 97 <= Z.of_N (N_of_ascii a) <= 122.

(** Strings made of the letters A-Z and a-z. *)
Fixpoint letters (str : string) : Prop :=
  match str with
  | EmptyString => True
  | String a rest => ascii_letter a /\ letters rest
  end.

#[global] Instance ascii_letter_dec a : Decision (ascii_letter a).
Proof. unfold ascii_letter. apply _. Defined.

#[global] Instance letters_dec str : Decision (letters str).
Proof. induction str; cbn; apply _. Defined.

Section ascii_text.
Variable utf8_decode : string -> Z * string.
Variable unicode_category : Z -> Z.
Variables unicode_Lut unicode_Ll : Z.
(** On ASCII letters the libraries behave as on any text: a letter is one
    code point, upper case is in [Lut] and not in [Ll], lower case the
    reverse, and the end of the string decodes to 0. *)
Hypothesis decode_end : fst (utf8_decode EmptyString) = 0.
Hypothesis decode_letter :
  forall a rest, ascii_letter a -> utf8_decode (String a rest) = (Z.of_N (N_of_ascii a), rest).
Hypothesis category_upper :
  forall chr, 65 <= chr <= 90 ->
    Z.land (unicode_category chr) unicode_Lut <> 0 /\ Z.land (unicode_category chr) unicode_Ll = 0.
Hypothesis category_lower :
  forall chr, 97 <= chr <= 122 ->
    Z.land (unicode_category chr) unicode_Lut = 0 /\ Z.land (unicode_category chr) unicode_Ll <> 0.

Lemma capitalization_scan_letters (i : Z) (fst_cap : ner_feature) (fuel : nat) :
  forall (str : string) (first was_upper was_lower : bool) (c : frame),
  letters str ->
  capitalization_scan utf8_decode unicode_category unicode_Lut unicode_Ll
    fuel i fst_cap str first was_upper was_lower c =
  capitalization_scan ascii_decode ascii_category ascii_Lut ascii_Ll
    fuel i fst_cap str first was_upper was_lower c.
Proof.
  induction fuel as [|fuel IH]; intros str first wu wl c Hstr; [reflexivity|].
  cbn [capitalization_scan]. destruct str as [|a rest].
  - pose proof decode_end as H0. destruct (utf8_decode EmptyString) as [chr rest].
    cbn in H0. subst chr. reflexivity.
  - destruct Hstr as [Ha Hrest]. rewrite (decode_letter a rest Ha). cbn [ascii_decode].
    set (chr := Z.of_N (N_of_ascii a)) in *.
    assert ((Z.land (unicode_category chr) unicode_Lut =? 0)
            = (Z.land (ascii_category chr) ascii_Lut =? 0)) as ->.
    { unfold ascii_category. destruct Ha as [Ha|Ha].
      - destruct (category_upper chr Ha) as [H1 _].
        replace ((65 <=? chr) && (chr <=? 90)) with true by (symmetry; apply andb_true_intro; split; lia).
        cbn. destruct (Z.eqb_spec (Z.land (unicode_category chr) unicode_Lut) 0); [contradiction|reflexivity].
      - destruct (category_lower chr Ha) as [H1 _].
        replace ((65 <=? chr) && (chr <=? 90)) with false by (symmetry; apply andb_false_intro2; lia).
        replace ((97 <=? chr) && (chr <=? 122)) with true by (symmetry; apply andb_true_intro; split; lia).
        cbn. rewrite H1. reflexivity. }
    assert ((Z.land (unicode_category chr) unicode_Ll =? 0)
            = (Z.land (ascii_category chr) ascii_Ll =? 0)) as ->.
    { unfold ascii_category. destruct Ha as [Ha|Ha].
      - destruct (category_upper chr Ha) as [_ H1].
        replace ((65 <=? chr) && (chr <=? 90)) with true by (symmetry; apply andb_true_intro; split; lia).
        cbn. rewrite H1. reflexivity.
      - destruct (category_lower chr Ha) as [_ H1].
        replace ((65 <=? chr) && (chr <=? 90)) with false by (symmetry; apply andb_false_intro2; lia).
        replace ((97 <=? chr) && (chr <=? 122)) with true by (symmetry; apply andb_true_intro; split; lia).
        cbn. destruct (Z.eqb_spec (Z.land (unicode_category chr) unicode_Ll) 0); [contradiction|reflexivity]. }
    destruct (chr =? 0); [reflexivity|].
    destruct (when _ _ c) as [c1|]; [|reflexivity]. cbn [mbind option_bind].
    apply IH. assumption.
Qed.

(** On a sentence of letters the processor does what it does with the
    ASCII stand-ins. *)
Lemma capitalization_process_sentence_letters (field : ner_word -> string) (c : frame) :
  frame_wf c ->
  Forall (fun w => letters (field w)) (words (sentence c)) ->
  capitalization_process_sentence utf8_decode unicode_category unicode_Lut unicode_Ll field c =
  capitalization_process_sentence ascii_decode ascii_category ascii_Lut ascii_Ll field c.
Proof.
  intros W Hletters. unfold capitalization_process_sentence.
  destruct (lookup_assign_spec "f" c) as (fst_cap & c1 & -> & S1 & E1 & I1); [discriminate|].
  destruct (lookup_assign_spec "a" c1) as (all_cap & c2 & -> & S2 & E2 & I2); [discriminate|].
  destruct (lookup_assign_spec "m" c2) as (mixed_cap & c3 & -> & S3 & E3 & I3); [discriminate|].
  assert (same_shape c c3) as S by eauto using same_shape_trans.
  unfold for_tokens.
  apply (for_loop_ext (fun c' => frame_wf c' /\ capitalization_ids fst_cap all_cap mixed_cap c' /\
                                  same_shape c c')).
  - intros i c' Hi (W' & X' & S'). split.
    + unfold capitalization_token, word_at. destruct (i <? 0); [reflexivity|].
      destruct (words (sentence c') !! Z.to_nat i) as [w|] eqn:Ew; [|reflexivity].
      cbn [mbind option_bind]. rewrite capitalization_scan_letters; [reflexivity|].
      rewrite Forall_forall in Hletters. apply Hletters. rewrite <- (ss_words _ _ S').
      eapply list_elem_of_lookup_2; eassumption.
    + intros c'' E.
      destruct (capitalization_token_ok ascii_decode ascii_category ascii_Lut ascii_Ll
                  ascii_decode_progress fst_cap all_cap mixed_cap field i c')
        as (c3' & E' & W3 & X3 & G3); try assumption.
      { rewrite (ss_size _ _ S'). rewrite (ss_size _ _ S) in Hi.
        pose proof (wf_size _ (fw_sentence _ W)). lia. }
      rewrite E in E'. injection E' as <-. split; [assumption|]. split; [assumption|].
      exact (same_shape_trans _ _ _ S' (proj1 G3)).
  - split; [eapply frame_wf_same_shape; eassumption|]. split; [|assumption].
    unfold capitalization_ids. repeat constructor;
      eauto 10 using interned_stable, same_shape_trans.
Qed.
End ascii_text.

Definition capitalization_forms : list string := ["Prague"; "IS"; "nice"; "mIxEd"].

Definition capitalization_keys : list string := ["f"; "a"; "m"].

(** The scenario as the specification states it, with [f] around token 3;
    "mIxEd" starts with a lower-case letter and the code emits [f] for the
    first code point only. *)
Lemma form_capitalization_example_as_stated_fails :
  ~ (exists c',
       form_capitalization_process_sentence ascii_decode ascii_category ascii_Lut ascii_Ll
         (training_frame capitalization_forms) = Some c' /\
       (emits c' "f" 0 /\ emits c' "f" 1 /\ emits c' "f" 3) /\
       emits c' "a" 1 /\ emits c' "m" 3 /\
       Forall (fun key => ~ emits c' key 2) capitalization_keys).
Proof.
  intros (c' & E & (_ & _ & H3) & _).
  vm_compute in E. injection E as <-.
  revert H3. apply not_emits. vm_compute. reflexivity.
Qed.

(** C6, amended. On the example with window 2 [FormCapitalization] emits
    [f] around tokens 0 and 1, [a] around token 1, [m] around tokens 0 and
    3, and nothing around token 2, whatever the decoder and the category
    table do outside the ASCII letters. *)
Theorem form_capitalization_example (utf8_decode : string -> Z * string)
    (unicode_category : Z -> Z) (unicode_Lut unicode_Ll : Z) :
  fst (utf8_decode EmptyString) = 0 ->
  (forall a rest, ascii_letter a -> utf8_decode (String a rest) = (Z.of_N (N_of_ascii a), rest)) ->
  (forall chr, 65 <= chr <= 90 ->
     Z.land (unicode_category chr) unicode_Lut <> 0 /\ Z.land (unicode_category chr) unicode_Ll = 0) ->
  (forall chr, 97 <= chr <= 122 ->
     Z.land (unicode_category chr) unicode_Lut = 0 /\ Z.land (unicode_category chr) unicode_Ll <> 0) ->
  exists c',
    form_capitalization_process_sentence utf8_decode unicode_category unicode_Lut unicode_Ll
      (training_frame capitalization_forms) = Some c' /\
    (map c' !! "f", map c' !! "a", map c' !! "m") = (Some 3, Some 8, Some 13) /\
    features (sentence c') =
      [[3; 13; 2; 7]; [4; 14; 3; 8; 11]; [5; 15; 4; 9; 12]; [5; 10; 13]] /\
    emission_table c' capitalization_keys = [["f"; "m"]; ["f"; "a"]; []; ["m"]].
Proof.
  intros H0 Hd Hu Hl. unfold form_capitalization_process_sentence.
  rewrite (capitalization_process_sentence_letters utf8_decode unicode_category
             unicode_Lut unicode_Ll H0 Hd Hu Hl).
  - eexists. split; [vm_compute; reflexivity|]. vm_compute. auto.
  - apply training_frame_wf. cbn. lia.
  - apply (bool_decide_unpack _). vm_compute. exact I.
Qed.

Lemma form_capitalization_example_witness :
  exists c',
    form_capitalization_process_sentence ascii_decode ascii_category ascii_Lut ascii_Ll
      (training_frame capitalization_forms) = Some c' /\
    (map c' !! "f", map c' !! "a", map c' !! "m") = (Some 3, Some 8, Some 13) /\
    features (sentence c') =
      [[3; 13; 2; 7]; [4; 14; 3; 8; 11]; [5; 15; 4; 9; 12]; [5; 10; 13]] /\
    emission_table c' capitalization_keys = [["f"; "m"]; ["f"; "a"]; []; ["m"]].
Proof.
  apply (form_capitalization_example ascii_decode ascii_category ascii_Lut ascii_Ll).
  - reflexivity.
  - reflexivity.
  - intros chr H. unfold ascii_category.
    replace ((65 <=? chr) && (chr <=? 90)) with true
      by (symmetry; apply andb_true_intro; split; lia).
    split; [discriminate|reflexivity].
  - intros chr H. unfold ascii_category.
    replace ((65 <=? chr) && (chr <=? 90)) with false
      by (symmetry; apply andb_false_intro2; lia).
    replace ((97 <=? chr) && (chr <=? 122)) with true
      by (symmetry; apply andb_true_intro; split; lia).
    split; [reflexivity|discriminate].
Defined.

(** ** C7: PreviousStage looks forward only *)

(** The key [previous_stage_token] builds in [buffer]. *)
Definition stage_key (ps : previous_stage_info) : option string :=
  b ← append_encoded EmptyString (to_int (ps_bilou ps));
  append_encoded (push_back b " ") (to_int (ps_entity ps)).

(** The id the key of [ps] is interned to in [m], the unknown sentinel when
    it is not interned. *)
Definition stage_feature (m : gmap string ner_feature) (ps : previous_stage_info) : ner_feature :=
  default ner_feature_unknown (key ← stage_key ps; m !! key).

(** What token [i] contributes to position [p]: its encoded feature moved
    by [p - i] when its [bilou] is known, the feature is interned and [p] is
    one of the at most [window] positions to its right. *)
Definition stage_emission (c : frame) (p : nat) (i : nat) : list ner_feature :=
  match previous_stage (sentence c) !! i with
  | Some ps =>
      if decide (ps_bilou ps <> bilou_type_unknown /\
                 stage_feature (map c) ps <> ner_feature_unknown /\
                 Z.of_nat i + 1 <= Z.of_nat p <=
                   Z.min (size (sentence c) - 1) (Z.of_nat i + window c))
      then [wrap32 (stage_feature (map c) ps + (Z.of_nat p - Z.of_nat i))]
      else []
  | None => []
  end.

(** The key of token [j] will be read the same from now on: it is interned,
    or nothing is interned any more. *)
Definition resolved (c : frame) (j : nat) : Prop :=
  forall ps, previous_stage (sentence c) !! j = Some ps ->
    ps_bilou ps <> bilou_type_unknown ->
    total_features c = None \/ exists key, stage_key ps = Some key /\ is_Some (map c !! key).

Lemma resolved_shape (c c' : frame) (j : nat) :
  same_shape c c' -> resolved c j -> resolved c' j.
Proof.
  intros Hs H ps Hps Hk. rewrite (ss_previous_stage _ _ Hs) in Hps.
  destruct (H ps Hps Hk) as [Hn|(key & Ek & [f Ef])].
  - left. apply (ss_inference _ _ Hs Hn).
  - right. exists key. split; [assumption|]. exists f.
    eapply lookup_weaken; [eassumption|]. apply (ss_map _ _ Hs).
Qed.

Lemma stage_emission_stable (c c' : frame) (p j : nat) :
  same_shape c c' -> resolved c j -> stage_emission c p j = stage_emission c' p j.
Proof.
  intros Hs Hr. unfold stage_emission.
  rewrite (ss_previous_stage _ _ Hs), (ss_size _ _ Hs), (ss_window _ _ Hs).
  destruct (previous_stage (sentence c) !! j) as [ps|] eqn:Eps; [|reflexivity].
  destruct (decide (ps_bilou ps = bilou_type_unknown)) as [Hu|Hk].
  { repeat case_decide; try reflexivity; tauto. }
  assert (stage_feature (map c') ps = stage_feature (map c) ps) as ->; [|reflexivity].
  destruct (Hr ps Eps Hk) as [Hn|(key & Ek & [f Ef])].
  - now rewrite (proj2 (ss_inference _ _ Hs Hn)).
  - unfold stage_feature. rewrite Ek. cbn. rewrite Ef.
    now rewrite (lookup_weaken _ _ _ _ Ef (ss_map _ _ Hs)).
Qed.

Lemma previous_stage_token_exact (i : Z) (c : frame) :
  frame_wf c -> stage_encodable c -> 0 <= i < size (sentence c) ->
  exists c', previous_stage_token i c = Some c' /\
    frame_wf c' /\ same_shape c c' /\ resolved c' (Z.to_nat i) /\
    forall (p : nat) (F : list ner_feature),
      features (sentence c) !! p = Some F ->
      features (sentence c') !! p = Some (F ++ stage_emission c' p (Z.to_nat i)).
Proof.
  intros W X Hi. unfold previous_stage_token.
  destruct (previous_stage_at_Some c i W Hi) as (ps & Eat & Hps). rewrite Eat.
  cbn [mbind option_bind].
  assert (previous_stage (sentence c) !! Z.to_nat i = Some ps) as Eps.
  { unfold previous_stage_at in Eat. destruct (i <? 0); [discriminate|assumption]. }
  destruct (Z.eqb_spec (ps_bilou ps) bilou_type_unknown) as [Hu|Hu].
  { exists c. split; [reflexivity|]. split; [assumption|]. split; [apply same_shape_refl|].
    split.
    - intros ps' Hps'. rewrite Eps in Hps'. injection Hps' as <-. contradiction.
    - intros p F HF. unfold stage_emission. rewrite Eps.
      case_decide; [tauto|]. now rewrite app_nil_r. }
  unfold stage_encodable in X. rewrite Forall_forall in X.
  destruct (X ps Hps Hu) as [Hb He].
  destruct (append_encoded_Some EmptyString (to_int (ps_bilou ps)) Hb) as (b1 & E1 & _).
  cbn [buffer with_buffer]. rewrite E1. cbn [mbind option_bind].
  destruct (append_encoded_Some (push_back b1 " ") (to_int (ps_entity ps)) He) as (b2 & E2 & Hne).
  rewrite E2. cbn [mbind option_bind].
  specialize (Hne (push_back_nonempty _ _)).
  assert (stage_key ps = Some b2) as Ekey by (unfold stage_key; rewrite E1; exact E2).
  set (c0 := with_buffer (with_buffer (with_buffer c EmptyString) (push_back b1 " ")) b2).
  assert (same_shape c c0) as S0 by (constructor; cbn; auto).
  assert (frame_wf c0) as W0 by eauto using frame_wf_same_shape.
  (* the lookup *)
  assert (exists f c1, lookup b2 c0 = (f, c1) /\ sentence c1 = sentence c /\
            window c1 = window c /\ same_shape c c1 /\
            stage_feature (map c1) ps = f /\
            (total_features c1 = None \/ is_Some (map c1 !! b2)))
    as (f & c1 & E & Hs & Hw & S1 & Hf & Hres).
  { unfold lookup. case_decide; [contradiction|]. unfold stage_feature. rewrite Ekey.
    cbn [mbind option_bind]. change (map c0) with (map c).
    change (total_features c0) with (total_features c).
    destruct (map c !! b2) as [v|] eqn:Ev.
    - exists v, c0. repeat split; try reflexivity; try assumption; try apply S0.
      + change (map c0) with (map c). now rewrite Ev.
      + right. change (map c0) with (map c). rewrite Ev. eauto.
    - destruct (total_features c) as [t|] eqn:Et.
      + eexists _, _. split; [reflexivity|]. cbn.
        split; [reflexivity|]. split; [reflexivity|]. split.
        { constructor; cbn; auto; try congruence; try (now apply insert_subseteq); eauto. }
        split; [now rewrite lookup_insert_eq|]. right. rewrite lookup_insert_eq. eauto.
      + exists ner_feature_unknown, c0. split; [reflexivity|]. split; [reflexivity|].
        split; [reflexivity|]. split; [assumption|]. split.
        * change (map c0) with (map c). now rewrite Ev.
        * left. exact Et. }
  rewrite E.
  assert (frame_wf c1) as W1 by eauto using frame_wf_same_shape.
  pose proof (wf_size _ (fw_sentence _ W)) as Hsz.
  pose proof (fw_window _ W) as Hwin. pose proof (fw_int _ W) as Hint.
  rewrite (to_int_small i) by lia. unfold on_sentence.
  destruct (apply_in_range_total (sentence c1) i f 1 (window c1) (fw_sentence _ W1))
    as (s' & Es & Hs1 & Hs2 & Hs3 & Hs4 & Hs5 & Hs6); [lia|rewrite Hw; lia|].
  rewrite Es. cbn [fmap option_fmap option_map].
  exists (with_sentence c1 s').
  assert (same_shape c1 (with_sentence c1 s')) as S2 by (constructor; cbn; auto).
  assert (same_shape c (with_sentence c1 s')) as S by eauto using same_shape_trans.
  split; [reflexivity|]. split; [eauto using frame_wf_same_shape|]. split; [assumption|].
  split.
  - intros ps' Hps' _. cbn in Hps'. rewrite Hs4, Hs in Hps'. rewrite Eps in Hps'.
    injection Hps' as <-. cbn. destruct Hres as [Hn|Hk]; [left; assumption|].
    right. exists b2. auto.
  - intros p F HF. cbn. rewrite Hs6, Hs, HF. cbn. f_equal.
    unfold emitted, stage_emission, in_range. cbn. rewrite Hs4, Hs, Eps, Hs1, Hs, Hf, Hw.
    repeat case_decide; try reflexivity.
    + do 3 f_equal. lia.
    + exfalso. match goal with H : ~ _ |- _ => apply H end. repeat split; try tauto; lia.
    + exfalso. match goal with H : ~ _ |- _ => apply H end. repeat split; try tauto; lia.
    + rewrite app_nil_r. reflexivity.
Qed.

Lemma previous_stage_run (c : frame) :
  frame_wf c -> stage_encodable c ->
  exists c', previous_stage_process_sentence c = Some c' /\
    same_shape c c' /\
    forall (p : nat) (F : list ner_feature),
      features (sentence c) !! p = Some F ->
      features (sentence c') !! p =
        Some (F ++ concat (stage_emission c' p <$> seq 0 (Z.to_nat (size (sentence c))))).
Proof.
  intros W X. unfold previous_stage_process_sentence, for_tokens.
  destruct (for_loop_indexed
              (fun k c1 =>
                 frame_wf c1 /\ same_shape c c1 /\
                 (forall j, (j < Z.to_nat k)%nat -> resolved c1 j) /\
                 forall (p : nat) (F : list ner_feature),
                   features (sentence c) !! p = Some F ->
                   features (sentence c1) !! p =
                     Some (F ++ concat (stage_emission c1 p <$> seq 0 (Z.to_nat k))))
              previous_stage_token (Z.to_nat (size (sentence c))) 0 c)
    as (c' & E & _ & S' & _ & H').
  - intros i c1 Hi (W1 & S1 & R1 & F1).
    pose proof (wf_size _ (fw_sentence _ W)) as Hsz.
    destruct (previous_stage_token_exact i c1) as (c2 & E2 & W2 & S2 & R2 & F2);
      [assumption|eauto using stage_encodable_shape|rewrite (ss_size _ _ S1); lia|].
    exists c2. split; [assumption|]. split; [assumption|].
    split; [eauto using same_shape_trans|]. split.
    + intros j Hj. destruct (decide (j = Z.to_nat i)) as [->|Hne]; [assumption|].
      apply (resolved_shape c1); [assumption|]. apply R1. lia.
    + intros p F HF. rewrite (F2 p _ (F1 p F HF)). f_equal. rewrite <- app_assoc. f_equal.
      replace (Z.to_nat (i + 1)) with (S (Z.to_nat i)) by lia.
      rewrite seq_S, fmap_app, concat_app. cbn. rewrite app_nil_r. f_equal.
      f_equal. apply list_fmap_ext. intros k j Hj.
      apply lookup_seq in Hj as [-> Hlt]. cbn.
      apply stage_emission_stable; [assumption|]. apply R1. lia.
  - split; [assumption|]. split; [apply same_shape_refl|]. split; [lia|].
    intros p F HF. cbn. now rewrite app_nil_r.
  - exists c'. split; [assumption|]. split; [assumption|].
    replace (0 + Z.of_nat (Z.to_nat (size (sentence c)))) with (size (sentence c)) in H'
      by (pose proof (wf_size _ (fw_sentence _ W)); lia).
    assumption.
Qed.

(** What token [i] of the sentence of [c] contributes to position [p] when
    the encoded features are read from the interning table [m]: one id at
    each of the positions [i+1 .. min(size-1, i+window)] when
    [previous_stage[i].bilou] is known and the feature is interned, nothing
    anywhere else. *)
Definition forward_emission (c : frame) (m : gmap string ner_feature) (p i : nat)
    : list ner_feature :=
  match previous_stage (sentence c) !! i with
  | Some ps =>
      if decide (ps_bilou ps <> bilou_type_unknown /\
                 stage_feature m ps <> ner_feature_unknown /\
                 Z.of_nat i + 1 <= Z.of_nat p <=
                   Z.min (size (sentence c) - 1) (Z.of_nat i + window c))
      then [wrap32 (stage_feature m ps + (Z.of_nat p - Z.of_nat i))]
      else []
  | None => []
  end.

Lemma stage_emission_forward (c c' : frame) (p i : nat) :
  same_shape c c' -> stage_emission c' p i = forward_emission c (map c') p i.
Proof.
  intros Hs. unfold stage_emission, forward_emission.
  now rewrite (ss_previous_stage _ _ Hs), (ss_size _ _ Hs), (ss_window _ _ Hs).
Qed.

(** C7. For every frame [PreviousStage] can run in, [process_sentence]
    returns and [features[p]] gains, for the tokens [i] in order, the
    encoded feature of token [i] moved by [p - i] exactly when
    [previous_stage[i].bilou] is known, the key is interned and
    [i+1 <= p <= min(size-1, i+w)]; a token contributes nothing to a
    position [p <= i], and a token whose [bilou] is unknown contributes
    nothing at all. *)
Theorem previous_stage_forward_only (c : frame) :
  frame_wf c -> stage_encodable c ->
  exists c', previous_stage_process_sentence c = Some c' /\
    (forall (p : nat) (F : list ner_feature),
       features (sentence c) !! p = Some F ->
       features (sentence c') !! p =
         Some (F ++ concat ((fun i => forward_emission c (map c') p i)
                              <$> seq 0 (Z.to_nat (size (sentence c)))))) /\
    (forall p i : nat, (p <= i)%nat -> forward_emission c (map c') p i = []) /\
    (forall (p i : nat) ps,
       previous_stage (sentence c) !! i = Some ps -> ps_bilou ps = bilou_type_unknown ->
       forward_emission c (map c') p i = []).
Proof.
  intros W X. destruct (previous_stage_run c W X) as (c' & E & S & H).
  exists c'. split; [assumption|]. split; [|split].
  - intros p F HF. rewrite (H p F HF). do 3 f_equal.
    apply list_fmap_ext. intros k i _. now apply stage_emission_forward.
  - intros p i Hpi. unfold forward_emission.
    destruct (previous_stage (sentence c) !! i); [|reflexivity].
    case_decide as Hd; [|reflexivity]. lia.
  - intros p i ps Hps Hu. unfold forward_emission. rewrite Hps.
    case_decide as Hd; [|reflexivity]. tauto.
Qed.

(** A sentence of five tokens, the third predicted [(B, 3)] by the previous
    stage. *)
Definition stage_frame : frame :=
  let s := plain_sentence ["a"; "b"; "c"; "d"; "e"] in
  Frame (Ner_sentence (size s) (words s) (features s) (probabilities s)
           (<[2%nat := Previous_stage_info bilou_type_B 3]> (previous_stage s)))
    2 ∅ (Some 1) EmptyString.

#[global] Instance stage_encodable_dec c : Decision (stage_encodable c).
Proof. unfold stage_encodable, encodable. apply _. Defined.

Lemma previous_stage_forward_only_witness :
  exists c', previous_stage_process_sentence stage_frame = Some c' /\
    features (sentence c') = [[]; []; []; [4]; [5]].
Proof.
  destruct (previous_stage_forward_only stage_frame) as (c' & E & _).
  - constructor; [constructor; cbn; lia|cbn; lia|cbn; lia].
  - apply (bool_decide_unpack _). vm_compute. exact I.
  - exists c'. split; [exact E|]. vm_compute in E. injection E as <-. reflexivity.
Defined.

(** ** C8: BrownClusters on the example *)

(** The line of the cluster file: the bits, a tab, the form. *)
Definition bank_line : string := String.append "110100" (String "009" "bank").

(** The state [brown_clusters::parse] starts its loop in. *)
Definition brown_start (base : parse_state) : brown_state :=
  Brown_state (parsed_map base) [] ∅ ∅.

Lemma brown_add_line_bank (split : string -> ascii -> list string) (base : parse_state)
    (w : Z) :
  split bank_line "009"%char = ["110100"; "bank"] ->
  parsed_map base !! "bank" = None ->
  brown_add_line split w (parsed_total_features base) [npos; 4; 6] bank_line (brown_start base) =
  Some (Brown_state (<["bank" := 0]> (parsed_map base))
          [[wrap32 (parsed_total_features base + (2 * w + 1) * 0 + w);
            wrap32 (parsed_total_features base + (2 * w + 1) * 1 + w)]]
          {["110100" := 0]}
          (<["1101" := wrap32 (parsed_total_features base + (2 * w + 1) * 1 + w)]>
             {["110100" := wrap32 (parsed_total_features base + (2 * w + 1) * 0 + w)]})).
Proof.
  intros Hsplit Hbank. unfold brown_add_line, brown_start. rewrite Hsplit.
  cbn [bs_cluster_map bs_clusters bs_prefixes_map bs_map]. rewrite fin_maps.lookup_empty.
  cbn [fold_left length app].
  unfold brown_add_prefix at 3.
  replace ((npos =? npos) || (npos <? Z.of_nat (String.length "110100"))) with true by reflexivity.
  replace (substr0 "110100" npos) with "110100" by reflexivity.
  rewrite fin_maps.lookup_empty, map_size_empty. cbn [app].
  unfold brown_add_prefix at 2.
  replace ((4 =? npos) || (4 <? Z.of_nat (String.length "110100"))) with true by reflexivity.
  replace (substr0 "110100" 4) with "1101" by reflexivity.
  rewrite lookup_insert_ne by discriminate. rewrite fin_maps.lookup_empty.
  rewrite map_size_insert_None by apply fin_maps.lookup_empty. rewrite map_size_empty. cbn [app].
  unfold brown_add_prefix.
  replace ((6 =? npos) || (6 <? Z.of_nat (String.length "110100"))) with false by reflexivity.
  cbn [bs_map]. rewrite Hbank. reflexivity.
Qed.

(** *** Emissions stay where they are *)

Lemma emitted_around_spec (c : frame) (f : ner_feature) (i : Z) :
  emitted_around c f i <->
  forall p : Z,
    Z.max 0 (i - window c) <= p <= Z.min (size (sentence c) - 1) (i + window c) ->
    wrap32 (f + (p - i)) ∈ default [] (features (sentence c) !! Z.to_nat p).
Proof.
  unfold emitted_around. cbv zeta. rewrite Forall_forall. split.
  - intros H p Hp. apply H. apply elem_of_seqZ. lia.
  - intros H p Hp. apply elem_of_seqZ in Hp. apply H. lia.
Qed.

Lemma emitted_around_appended (P : ner_feature -> Prop) (c c' : frame) (f : ner_feature) (i : Z) :
  frame_wf c -> same_shape c c' -> appended P c c' ->
  emitted_around c f i -> emitted_around c' f i.
Proof.
  intros W Hs Ha. rewrite !emitted_around_spec.
  rewrite (ss_window _ _ Hs), (ss_size _ _ Hs). intros H p Hp. specialize (H p Hp).
  destruct (lookup_lt_is_Some_2 (features (sentence c)) (Z.to_nat p)) as [F HF].
  { pose proof (wf_features _ (fw_sentence _ W)). lia. }
  destruct (Ha _ _ HF) as (added & E & _). unfold ner_feature in *.
  rewrite HF in H. rewrite E. cbn in *.
  apply elem_of_app. now left.
Qed.

Lemma emit_in_window_emitted (c : frame) (i : Z) (f : ner_feature) :
  frame_wf c -> 0 <= i < size (sentence c) -> f <> ner_feature_unknown ->
  exists c', emit_in_window i f c = Some c' /\
    frame_wf c' /\ same_shape c c' /\ appended (fun _ => True) c c' /\ map c' = map c /\
    emitted_around c' f i.
Proof.
  intros W Hi Hf. unfold emit_in_window, apply_in_window, on_sentence.
  pose proof (wf_size _ (fw_sentence _ W)) as Hsz.
  pose proof (wf_features _ (fw_sentence _ W)) as Hfs.
  pose proof (fw_window _ W) as Hw. pose proof (fw_int _ W) as Hint.
  rewrite to_int_small by lia.
  destruct (apply_in_range_total (sentence c) i f (- window c) (window c) (fw_sentence _ W))
    as (s' & E & Hs1 & Hs2 & Hs3 & Hs4 & Hs5 & Hs6); [lia|lia|].
  rewrite E. cbn [fmap option_fmap option_map]. exists (with_sentence c s').
  assert (same_shape c (with_sentence c s')) as S by (constructor; cbn; auto).
  split; [reflexivity|]. split; [eauto using frame_wf_same_shape|]. split; [assumption|].
  split; [|split; [reflexivity|]].
  - intros p F HF. cbn. rewrite Hs6, HF. cbn. unfold emitted.
    case_decide.
    + eexists. split; [reflexivity|]. repeat constructor.
    + exists []. rewrite app_nil_r. split; [reflexivity|constructor].
  - apply emitted_around_spec. cbn. rewrite Hs1. intros p Hp.
    destruct (lookup_lt_is_Some_2 (features (sentence c)) (Z.to_nat p)) as [F HF]; [lia|].
    unfold ner_feature in *.
    rewrite Hs6, HF. cbn. unfold emitted, in_range. case_decide as Hd.
    + apply elem_of_app. right. replace (Z.of_nat (Z.to_nat p)) with p by lia.
      apply list_elem_of_singleton. reflexivity.
    + exfalso. apply Hd. split; [assumption|]. lia.
Qed.

(** *** The scenario *)



(** ** C3: the ids a gazetteer file reserves *)

(** The tokens of a line after the empty ones were dropped. *)
Definition phrase_length (split : string -> ascii -> list string) (line : string) : Z :=
  Z.of_nat (length (erase_empty (split line " "%char))).

(** The longest phrase of a file, 0 for a file without phrases. *)
Definition longest_phrase (split : string -> ascii -> list string) (lines : list string) : Z :=
  foldr Z.max 0 (phrase_length split <$> lines).

(** Every phrase of [map] has its record in [gazetteers_info]. *)
Definition gz_indexed (st : gazetteers_state) : Prop :=
  forall key it, gz_map st !! key = Some it -> key <> EmptyString ->
    0 <= it < Z.of_nat (length (gz_info st)).

Lemma append_nonempty (a b : string) : b <> EmptyString -> String.append a b <> EmptyString.
Proof. destruct a; cbn; [auto|discriminate]. Qed.

Lemma erase_empty_nonempty (tokens : list string) :
  Forall (fun token => token <> EmptyString) (erase_empty tokens).
Proof.
  unfold erase_empty. apply Forall_forall. intros token Hin.
  apply list_elem_of_In, filter_In in Hin as [_ Hnz]. intros ->. discriminate.
Qed.

Lemma gazetteers_add_prefix_ok (window : Z) (total_features : ner_feature) (gazetteer : string)
    (last : bool) (st : gazetteers_state) :
  gz_indexed st -> gazetteer <> EmptyString ->
  exists st', gazetteers_add_prefix window total_features gazetteer last st = Some st' /\
    gz_indexed st'.
Proof.
  intros Hst Hne. unfold gazetteers_add_prefix.
  set (len := Z.of_nat (length (gz_info st))).
  set (update := fun info : gazetteers.gazetteer_info =>
         if last then
           if bool_decide (wrap32 (total_features + window) ∈ gazetteers.features info) then info
           else gazetteers.make (gazetteers.features info ++ [wrap32 (total_features + window)])
                  (gazetteers.prefix_of_longer info)
         else gazetteers.make (gazetteers.features info) true).
  destruct (gz_map st !! gazetteer) as [v|] eqn:Ev.
  - destruct (Hst _ _ Ev Hne) as [Hlo Hhi]. fold len in Hhi.
    destruct (Z.eqb_spec v len) as [?|_]; [lia|].
    destruct (Z.ltb_spec v 0); [lia|].
    destruct (lookup_lt_is_Some_2 (gz_info st) (Z.to_nat v)) as [info ->]; [lia|].
    cbn [mbind option_bind]. eexists. split; [reflexivity|].
    intros key it Hk Hkne. cbn in *. rewrite length_insert. exact (Hst _ _ Hk Hkne).
  - assert (0 <= wrap32 len < 2 ^ 32) as Hfresh by (unfold wrap32; apply Z.mod_pos_bound; lia).
    assert (wrap32 len <= len) as Hle by (unfold wrap32; apply Z.mod_le; lia).
    destruct (Z.ltb_spec (wrap32 len) 0); [lia|].
    destruct (Z.eqb_spec (wrap32 len) len) as [Heq|Hneq].
    + destruct (lookup_lt_is_Some_2 (gz_info st ++ [gazetteers.make [] false])
                  (Z.to_nat (wrap32 len))) as [info ->].
      { rewrite length_app. cbn. lia. }
      cbn [mbind option_bind]. eexists. split; [reflexivity|].
      intros key it Hk Hkne. cbn in *. rewrite length_insert, length_app. cbn.
      destruct (decide (key = gazetteer)) as [->|Hkg].
      * rewrite lookup_insert_eq in Hk. injection Hk as <-. lia.
      * rewrite lookup_insert_ne in Hk by congruence. specialize (Hst _ _ Hk Hkne). lia.
    + destruct (lookup_lt_is_Some_2 (gz_info st) (Z.to_nat (wrap32 len))) as [info ->]; [lia|].
      cbn [mbind option_bind]. eexists. split; [reflexivity|].
      intros key it Hk Hkne. cbn in *. rewrite length_insert.
      destruct (decide (key = gazetteer)) as [->|Hkg].
      * rewrite lookup_insert_eq in Hk. injection Hk as <-. lia.
      * rewrite lookup_insert_ne in Hk by congruence. exact (Hst _ _ Hk Hkne).
Qed.

Lemma gazetteers_add_tokens_ok (window : Z) (total_features : ner_feature) (tokens : list string) :
  forall (first : bool) (gazetteer : string) (st : gazetteers_state),
  Forall (fun token => token <> EmptyString) tokens -> gz_indexed st ->
  exists st',
    gazetteers_add_tokens window total_features first gazetteer tokens st = Some st' /\
    gz_indexed st'.
Proof.
  induction tokens as [|token rest IH]; intros first gazetteer st Htok Hst.
  - exists st. auto.
  - apply Forall_cons in Htok as [Hne Hrest]. cbn [gazetteers_add_tokens].
    set (g := String.append _ token).
    destruct (gazetteers_add_prefix_ok window total_features g
                (match rest with [] => true | _ => false end) st Hst) as (st1 & -> & Hst1).
    { now apply append_nonempty. }
    cbn [mbind option_bind]. now apply IH.
Qed.

Lemma gazetteers_lines_ok (split : string -> ascii -> list string) (window : Z)
    (total_features : ner_feature) (lines : list string) :
  forall (longest : Z) (st : gazetteers_state),
  0 <= longest ->
  Forall (fun line => phrase_length split line < 2 ^ 32) lines ->
  gz_indexed st ->
  exists st',
    for_each lines (gazetteers_add_line split window total_features) (longest, st) =
      Some (Z.max longest (longest_phrase split lines), st') /\
    gz_indexed st'.
Proof.
  induction lines as [|line lines IH]; intros longest st Hl Hlen Hst.
  - exists st. cbn. rewrite Z.max_l by assumption. auto.
  - apply Forall_cons in Hlen as [Hline Hlines]. cbn [for_each].
    unfold gazetteers_add_line at 1. unfold phrase_length in Hline.
    set (tokens := erase_empty (split line " "%char)) in *.
    destruct (gazetteers_add_tokens_ok window total_features tokens true EmptyString st
                (erase_empty_nonempty _) Hst) as (st1 & -> & Hst1).
    cbn [mbind option_bind].
    set (n := Z.of_nat (length tokens)) in *.
    assert (0 <= n) as Hn by (subst n; lia).
    assert ((if longest <? n then wrap32 n else longest) = Z.max longest n) as ->.
    { destruct (Z.ltb_spec longest n); [|lia]. unfold wrap32. rewrite Z.mod_small; lia. }
    destruct (IH (Z.max longest n) st1) as (st2 & -> & Hst2); [lia|assumption|assumption|].
    exists st2. split; [|assumption]. do 2 f_equal.
    unfold longest_phrase. cbn [fmap list_fmap foldr].
    change (phrase_length split line) with n. lia.
Qed.

(** The roles a file reserves, in the words of the specification: none for
    a file without phrases, [G, U] when the longest phrase has one token,
    [G, U, B, L] when it has two, all five when it has three or more. *)
Definition reserved_roles (longest : Z) : Z :=
  if longest =? 0 then 0 else if longest =? 1 then 2 else if longest =? 2 then 4 else 5.

Lemma slots_reserved_roles (longest : Z) : slots longest = reserved_roles longest.
Proof. reflexivity. Qed.

(** C3. Reading one gazetteer file returns and leaves in [total_features]
    its old value plus [(2w+1) * s] (in the arithmetic of [ner_feature]),
    [s] being 0, 2, 4 or 5 as the longest phrase of the file, empty tokens
    dropped, has 0, 1, 2 or at least 3 tokens. *)
Theorem gazetteers_parse_file_reserves (split : string -> ascii -> list string) (window : Z)
    (lines : list string) (total_features : ner_feature) (st : gazetteers_state) :
  0 <= window -> 5 * (2 * window + 1) < 2 ^ 31 ->
  Forall (fun line => phrase_length split line < 2 ^ 32) lines ->
  gz_indexed st ->
  exists st',
    gazetteers_parse_file split window lines (total_features, st) =
      Some (wrap32 (total_features
                    + (2 * window + 1) * reserved_roles (longest_phrase split lines)), st') /\
    gz_indexed st'.
Proof.
  intros Hw Hint Hlen Hst. unfold gazetteers_parse_file.
  destruct (gazetteers_lines_ok split window total_features lines 0 st) as (st' & -> & Hst');
    [lia|assumption|assumption|].
  cbn [mbind option_bind].
  assert (0 <= longest_phrase split lines) as Hlong.
  { unfold longest_phrase. clear. induction lines; cbn; lia. }
  rewrite Z.max_r by assumption. rewrite slots_reserved_roles.
  assert (0 <= reserved_roles (longest_phrase split lines) <= 5) as Hroles.
  { unfold reserved_roles. repeat match goal with |- context [?a =? ?b] => destruct (a =? b) end; lia. }
  rewrite !in_int_true by nia. cbn [andb]. exists st'. auto.
Qed.

Definition example_gazetteer : list string := ["new york"; "new york city"; "york"].

Lemma gazetteers_parse_file_reserves_witness :
  exists st',
    gazetteers_parse_file split_on 2 example_gazetteer (1, Gazetteers_state ∅ []) =
      Some (26, st') /\
    gz_indexed st'.
Proof.
  apply (gazetteers_parse_file_reserves split_on 2 example_gazetteer 1 (Gazetteers_state ∅ [])).
  - lia.
  - lia.
  - apply (bool_decide_unpack _). vm_compute. exact I.
  - intros key it Hk. cbn in Hk. rewrite fin_maps.lookup_empty in Hk. discriminate.
Defined.

(** * Further properties of the processors *)

(** ** CzechAddContainers on any entity list *)

(** [x] is a container opened at [e]: it starts where [e] starts, ends
    where some entity of the list ends, and is a [P] opened at a [pf] or a
    [T] opened at a [td] or a [tm]. *)
Definition container_of (all : list named_entity.t) (e x : named_entity.t) : Prop :=
  named_entity.start x = named_entity.start e /\
  (exists e', e' ∈ all /\
     named_entity.length x =
       wrap64 (named_entity.start e' + named_entity.length e' - named_entity.start e)) /\
  (named_entity.type x = "P" /\ named_entity.type e = "pf" \/
   named_entity.type x = "T" /\ (named_entity.type e = "td" \/ named_entity.type e = "tm")).

(** [out] is [entities] with at most one container put immediately before
    each entity. *)
Inductive interleaved (all : list named_entity.t)
    : list named_entity.t -> list named_entity.t -> Prop :=
| interleaved_nil : interleaved all [] []
| interleaved_keep e es out :
    interleaved all es out -> interleaved all (e :: es) (e :: out)
| interleaved_add x e es out :
    container_of all e x -> interleaved all es out ->
    interleaved all (e :: es) (x :: e :: out).

(** No entity of the list can open a container. *)
Definition plain (entities : list named_entity.t) : Prop :=
  Forall (fun e => named_entity.type e <> "pf" /\ named_entity.type e <> "td" /\
                   named_entity.type e <> "tm") entities.

Lemma interleaved_snoc all es out e :
  interleaved all es out -> interleaved all (es ++ [e]) (out ++ [e]).
Proof.
  induction 1; cbn.
  - apply interleaved_keep, interleaved_nil.
  - apply interleaved_keep. assumption.
  - apply interleaved_add; assumption.
Qed.

Lemma interleaved_snoc_add all es out e x :
  container_of all e x -> interleaved all es out ->
  interleaved all (es ++ [e]) (out ++ [x; e]).
Proof.
  intros Hx. induction 1; cbn.
  - apply interleaved_add; [assumption|apply interleaved_nil].
  - apply interleaved_keep. assumption.
  - apply interleaved_add; assumption.
Qed.

Lemma interleaved_refl all es : interleaved all es es.
Proof. induction es; constructor; assumption. Qed.

Lemma interleaved_sublist all es out : interleaved all es out -> es `sublist_of` out.
Proof.
  induction 1.
  - constructor.
  - apply sublist_skip. assumption.
  - apply sublist_cons, sublist_skip. assumption.
Qed.

Lemma interleaved_length all es out :
  interleaved all es out -> (length es <= length out <= 2 * length es)%nat.
Proof. induction 1; cbn; lia. Qed.

Lemma interleaved_plain all es out : plain es -> interleaved all es out -> out = es.
Proof.
  intros Hp. induction 1 as [|e es out _ IH|x e es out Hx _ _].
  - reflexivity.
  - inversion Hp; subst. f_equal. auto.
  - exfalso. inversion Hp as [|? ? (Hpf & Htd & Htm) _]; subst.
    destruct Hx as (_ & _ & [[_ ?]|[_ [?|?]]]); congruence.
Qed.

Section process_entities.
Variable entities : list named_entity.t.

Lemma entity_at_Some (k : Z) :
  0 <= k < Z.of_nat (length entities) -> exists e, entity_at entities k = Some e /\ e ∈ entities.
Proof.
  intros Hk. unfold entity_at. destruct (Z.ltb_spec k 0); [lia|].
  destruct (lookup_lt_is_Some_2 entities (Z.to_nat k)) as [e E]; [lia|].
  exists e. split; [assumption|]. eapply list_elem_of_lookup_2. eassumption.
Qed.

(** The loop condition can be evaluated at every [j >= 1], and holds only
    below the size of the vector. *)
Lemma continues_total (j : Z) (ty : string) :
  1 <= j ->
  exists b, continues entities j ty = Some b /\ (b = true -> j < Z.of_nat (length entities)).
Proof.
  intros Hj. unfold continues. destruct (Z.ltb_spec j (Z.of_nat (length entities))).
  - destruct (entity_at_Some j) as (ej & -> & _); [lia|].
    destruct (entity_at_Some (j - 1)) as (ej1 & -> & _); [lia|].
    cbn. eexists. split; [reflexivity|]. intros _. assumption.
  - exists false. split; [reflexivity|discriminate].
Qed.

(** The [while] loop leaves [j] within the vector. *)
Lemma skip_run_total (ty : string) (fuel : nat) :
  forall j : Z,
  1 <= j <= Z.of_nat (length entities) ->
  Z.of_nat (length entities) - j < Z.of_nat fuel ->
  exists j', skip_run fuel entities j ty = Some j' /\ j <= j' <= Z.of_nat (length entities).
Proof.
  induction fuel as [|fuel IH]; intros j Hj Hfuel; [lia|].
  cbn [skip_run]. destruct (continues_total j ty) as (b & -> & Hb); [lia|].
  cbn. destruct b.
  - specialize (Hb eq_refl). destruct (IH (j + 1)) as (j' & -> & Hj'); [lia|lia|].
    exists j'. split; [reflexivity|lia].
  - exists j. split; [reflexivity|lia].
Qed.

Lemma emplace_container_spec (i j : Z) (ty : string) (buffer : list named_entity.t)
    (ei : named_entity.t) :
  entity_at entities i = Some ei ->
  1 <= j <= Z.of_nat (length entities) ->
  exists x, emplace_container entities i j ty buffer = Some (buffer ++ [x]) /\
    named_entity.start x = named_entity.start ei /\
    named_entity.type x = ty /\
    exists e', e' ∈ entities /\
      named_entity.length x =
        wrap64 (named_entity.start e' + named_entity.length e' - named_entity.start ei).
Proof.
  intros Ei Hj. unfold emplace_container. rewrite Ei.
  destruct (entity_at_Some (j - 1)) as (ej1 & -> & Hin); [lia|].
  cbn. eexists. split; [reflexivity|]. cbn. split; [reflexivity|]. split; [reflexivity|].
  exists ej1. split; [assumption|reflexivity].
Qed.

Lemma not_preceded_by_total (i : Z) (ty : string) :
  0 <= i < Z.of_nat (length entities) -> exists b, not_preceded_by entities i ty = Some b.
Proof.
  intros Hi. unfold not_preceded_by. destruct (Z.eqb_spec i 0); [eauto|].
  destruct (entity_at_Some (i - 1)) as (? & -> & _); [lia|].
  destruct (entity_at_Some i) as (? & -> & _); [lia|].
  cbn. eauto.
Qed.

(** One round of the loop: the entity is appended, after at most one
    container opened at it. *)
Lemma process_entity_spec (i : Z) (buffer : list named_entity.t) (ei : named_entity.t) :
  0 <= i < Z.of_nat (length entities) ->
  entity_at entities i = Some ei ->
  exists buffer', process_entity entities i buffer = Some buffer' /\
    (buffer' = buffer ++ [ei] \/
     exists x, container_of entities ei x /\ buffer' = buffer ++ [x; ei]).
Proof.
  intros Hi Ei. unfold process_entity. rewrite Ei. cbn [mbind option_bind].
  destruct (String.eqb_spec (named_entity.type ei) "pf") as [Epf|Npf].
  - (* a P container may be opened; the two T blocks are skipped *)
    rewrite Epf. cbn [String.eqb Ascii.eqb Bool.eqb andb].
    destruct (not_preceded_by_total i "pf" Hi) as (first & ->). cbn [mbind option_bind].
    destruct first; cbn [mbind option_bind]; [|eexists; split; [reflexivity|left; reflexivity]].
    destruct (skip_run_total "pf" (S (length entities)) (i + 1)) as (j & -> & Hj); [lia|lia|].
    cbn [mbind option_bind].
    destruct (continues_total j "ps") as (b & -> & Hb); [lia|]. cbn [mbind option_bind].
    destruct b; cbn [mbind option_bind]; [|eexists; split; [reflexivity|left; reflexivity]].
    specialize (Hb eq_refl).
    destruct (skip_run_total "ps" (S (length entities)) (j + 1)) as (j' & -> & Hj'); [lia|lia|].
    cbn [mbind option_bind].
    destruct (emplace_container_spec i j' "P" buffer ei Ei) as (x & -> & Hs & Ht & He); [lia|].
    cbn [mbind option_bind]. eexists. split; [reflexivity|]. right. exists x.
    split; [|rewrite <- app_assoc; reflexivity].
    split; [assumption|]. split; [assumption|]. left. split; assumption.
  - replace (String.eqb (named_entity.type ei) "pf") with false
      by (symmetry; apply String.eqb_neq; assumption).
    cbn [mbind option_bind].
    destruct (String.eqb_spec (named_entity.type ei) "td") as [Etd|Ntd].
    + (* a T container opened at a td; the tm block is skipped *)
      rewrite Etd. cbn [String.eqb Ascii.eqb Bool.eqb andb].
      destruct (continues_total (i + 1) "tm") as (b & -> & Hb); [lia|]. cbn [mbind option_bind].
      destruct b; cbn [mbind option_bind]; [|eexists; split; [reflexivity|left; reflexivity]].
      specialize (Hb eq_refl).
      destruct (continues_total (i + 2) "ty") as (b & -> & Hb'); [lia|]. cbn [mbind option_bind].
      destruct (emplace_container_spec i (if b then i + 2 + 1 else i + 2) "T" buffer ei Ei)
        as (x & -> & Hs & Ht & He).
      { destruct b; [specialize (Hb' eq_refl)|]; lia. }
      cbn [mbind option_bind]. eexists. split; [reflexivity|]. right. exists x.
      split; [|rewrite <- app_assoc; reflexivity].
      split; [assumption|]. split; [assumption|]. right. split; [assumption|left; assumption].
    + replace (String.eqb (named_entity.type ei) "td") with false
        by (symmetry; apply String.eqb_neq; assumption).
      cbn [mbind option_bind].
      destruct (String.eqb_spec (named_entity.type ei) "tm") as [Etm|Ntm];
        [|eexists; split; [reflexivity|left; reflexivity]].
      (* a T container opened at a tm *)
      destruct (not_preceded_by_total i "td" Hi) as (first & ->). cbn [mbind option_bind].
      destruct first; cbn [mbind option_bind]; [|eexists; split; [reflexivity|left; reflexivity]].
      destruct (continues_total (i + 1) "ty") as (b & -> & Hb); [lia|]. cbn [mbind option_bind].
      destruct b; cbn [mbind option_bind]; [|eexists; split; [reflexivity|left; reflexivity]].
      specialize (Hb eq_refl).
      destruct (emplace_container_spec i (i + 2) "T" buffer ei Ei) as (x & -> & Hs & Ht & He);
        [lia|].
      cbn [mbind option_bind]. eexists. split; [reflexivity|]. right. exists x.
      split; [|rewrite <- app_assoc; reflexivity].
      split; [assumption|]. split; [assumption|]. right. split; [assumption|right; assumption].
Qed.

(** The whole loop, whatever [buffer] held before. *)
Lemma process_entities_spec (buffer : list named_entity.t) :
  exists out,
    czech_add_containers_process_entities entities buffer =
      Some (if (length entities <? length out)%nat then out else entities, out) /\
    interleaved entities entities out.
Proof.
  unfold czech_add_containers_process_entities.
  destruct (for_loop_indexed
              (fun i out => interleaved entities (take (Z.to_nat i) entities) out)
              (process_entity entities) (length entities) 0 []) as (out & -> & Hout).
  - intros i out Hi Hinv.
    destruct (entity_at_Some i) as (ei & Ei & _); [lia|].
    destruct (process_entity_spec i out ei) as (out' & -> & Hout'); [lia|assumption|].
    exists out'. split; [reflexivity|].
    assert (take (Z.to_nat (i + 1)) entities = take (Z.to_nat i) entities ++ [ei]) as ->.
    { replace (Z.to_nat (i + 1)) with (S (Z.to_nat i)) by lia.
      apply take_S_r. unfold entity_at in Ei. destruct (Z.ltb_spec i 0); [lia|assumption]. }
    destruct Hout' as [->|(x & Hx & ->)].
    + apply interleaved_snoc. assumption.
    + apply interleaved_snoc_add; assumption.
  - apply interleaved_nil.
  - cbn [mbind option_bind]. exists out. split; [reflexivity|].
    replace (Z.to_nat (0 + Z.of_nat (length entities))) with (length entities) in Hout by lia.
    rewrite firstn_all in Hout. assumption.
Qed.
End process_entities.

(** X1. [process_entities] returns for every entity list, whatever the
    buffer held, and the list it leaves is the input with at most one
    container put immediately before each entity: a [P] before a [pf] or a
    [T] before a [td] or [tm], starting where that entity starts and ending
    where some entity of the input ends.  No entity is dropped, changed or
    moved. *)
Theorem czech_add_containers_interleaves (entities buffer : list named_entity.t) :
  exists entities' buffer',
    czech_add_containers_process_entities entities buffer = Some (entities', buffer') /\
    interleaved entities entities entities' /\
    entities `sublist_of` entities' /\
    (length entities <= length entities' <= 2 * length entities)%nat.
Proof.
  destruct (process_entities_spec entities buffer) as (out & E & Hout).
  eexists _, _. split; [exact E|].
  assert (interleaved entities entities
            (if (length entities <? length out)%nat then out else entities)) as H.
  { destruct (Nat.ltb_spec (length entities) (length out)); [assumption|].
    apply interleaved_refl. }
  split; [assumption|]. split.
  - eapply interleaved_sublist. eassumption.
  - eapply interleaved_length. eassumption.
Qed.

(** X2. A list in which no entity has type [pf], [td] or [tm] is returned
    as it is: [process_entities] adds containers only at such entities. *)
Theorem czech_add_containers_plain (entities buffer : list named_entity.t) :
  plain entities ->
  czech_add_containers_process_entities entities buffer = Some (entities, entities).
Proof.
  intros Hp. destruct (process_entities_spec entities buffer) as (out & -> & Hout).
  rewrite (interleaved_plain _ _ _ Hp Hout). rewrite Nat.ltb_irrefl. reflexivity.
Qed.

Lemma czech_add_containers_plain_witness :
  czech_add_containers_process_entities
    [named_entity.make 0 1 "ps"; named_entity.make 1 2 "gc"; named_entity.make 3 1 "ty"]
    [named_entity.make 9 9 "P"] =
  Some ([named_entity.make 0 1 "ps"; named_entity.make 1 2 "gc"; named_entity.make 3 1 "ty"],
        [named_entity.make 0 1 "ps"; named_entity.make 1 2 "gc"; named_entity.make 3 1 "ty"]).
Proof.
  apply czech_add_containers_plain.
  repeat (constructor; [repeat split; discriminate|]). constructor.
Defined.

(** ** URLEmailDetector run twice *)

Lemma url_run_frame_wf (detect : string -> url_type) (url email : entity_type)
    (c c' : frame) (k : Z) :
  url_run detect url email c k c' -> frame_wf c -> frame_wf c'.
Proof.
  intros [] [[] ? ?]. constructor; [constructor|..]; try congruence; lia.
Qed.

Lemma url_run_slots (detect : string -> url_type) (url email : entity_type)
    (c c' : frame) (k : Z) :
  url_run detect url email c k c' ->
  Forall (fun p => length (local_bilou p) = 5%nat) (probabilities (sentence c)) ->
  Forall (fun p => length (local_bilou p) = 5%nat) (probabilities (sentence c')).
Proof.
  intros R H5. apply Forall_lookup. intros i p' Ep'.
  destruct (words (sentence c) !! i) as [w|] eqn:Ew.
  - destruct (probabilities (sentence c) !! i) as [p|] eqn:Ep.
    + rewrite (ur_filled _ _ _ _ _ _ R _ _ _ Ew Ep) in Ep'. injection Ep' as <-.
      unfold filled_upto. case_decide; [reflexivity|].
      eapply (Forall_lookup_1 _ _ _ _ H5). eassumption.
    + apply lookup_ge_None in Ep.
      rewrite lookup_ge_None_2 in Ep' by (rewrite (ur_length _ _ _ _ _ _ R); lia).
      discriminate.
  - rewrite (ur_rest _ _ _ _ _ _ R i Ew) in Ep'.
    eapply (Forall_lookup_1 _ _ _ _ H5). eassumption.
Qed.

(** A run over a frame that an earlier run produced changes nothing. *)
Lemma url_run_again (detect : string -> url_type) (url email : entity_type)
    (c c' c'' : frame) (k : Z) :
  url_run detect url email c k c' -> url_run detect url email c' k c'' -> c'' = c'.
Proof.
  intros R R'.
  assert (probabilities (sentence c'') = probabilities (sentence c')) as Hp.
  { apply list_eq. intros i.
    destruct (words (sentence c') !! i) as [w|] eqn:Ew'; [|apply (ur_rest _ _ _ _ _ _ R' i Ew')].
    destruct (probabilities (sentence c') !! i) as [p'|] eqn:Ep'.
    - rewrite (ur_filled _ _ _ _ _ _ R' _ _ _ Ew' Ep').
      assert (words (sentence c) !! i = Some w) as Ew by (rewrite <- (ur_words _ _ _ _ _ _ R); assumption).
      destruct (probabilities (sentence c) !! i) as [p|] eqn:Ep.
      + rewrite (ur_filled _ _ _ _ _ _ R _ _ _ Ew Ep) in Ep'. injection Ep' as <-.
        f_equal. unfold filled_upto at 1. case_decide as Hd; [|reflexivity].
        destruct Hd as (Hi & Hdet & Hfilled). unfold filled_upto in *.
        case_decide as Hd'; [discriminate|].
        exfalso. apply Hd'. split; [assumption|]. split; assumption.
      + apply lookup_ge_None in Ep. apply lookup_lt_Some in Ep'.
        rewrite (ur_length _ _ _ _ _ _ R) in Ep'. lia.
    - apply lookup_ge_None in Ep'. apply lookup_ge_None.
      rewrite (ur_length _ _ _ _ _ _ R'). assumption. }
  destruct R'. destruct c'' as [[? ? ? ? ?] ? ? ? ?], c' as [[? ? ? ? ?] ? ? ? ?].
  cbn in *. congruence.
Qed.

(** X3. Running URLEmailDetector a second time changes nothing: the tokens
    it detected are marked [local_filled] by the first run and skipped by
    the second. *)
Theorem url_email_detector_idempotent (url_detector_detect : string -> url_type)
    (url email : entity_type) (c : frame) :
  frame_wf c ->
  Forall (fun p => length (local_bilou p) = 5%nat) (probabilities (sentence c)) ->
  exists c',
    url_email_detector_process_sentence url_detector_detect url email c = Some c' /\
    url_email_detector_process_sentence url_detector_detect url email c' = Some c'.
Proof.
  intros W H5.
  destruct (url_email_detector_run url_detector_detect url email c W H5) as (c' & E & R).
  exists c'. split; [assumption|].
  destruct (url_email_detector_run url_detector_detect url email c') as (c'' & E' & R').
  - eapply url_run_frame_wf; eassumption.
  - eapply url_run_slots; eassumption.
  - rewrite E'. f_equal. eapply url_run_again; [eassumption|].
    rewrite <- (ur_size _ _ _ _ _ _ R). exact R'.
Qed.

Lemma url_email_detector_idempotent_witness :
  exists c',
    url_email_detector_process_sentence detect_at_sign 7 8
      (training_frame ["mail"; "a@b.c"; "now"]) = Some c' /\
    url_email_detector_process_sentence detect_at_sign 7 8 c' = Some c'.
Proof.
  apply url_email_detector_idempotent.
  - apply training_frame_wf. cbn. lia.
  - repeat constructor.
Defined.

(** ** Binary models: [save] and [load] *)

(** Modelled from the spec: [binary_encoder] and [binary_decoder] are
    defined outside this file.  The encoder appends to a vector of bytes,
    the decoder reads from the front of one; a [4B] value is its four bytes,
    lowest first; a read past the end of the data fails. *)
Definition unsigned_char (val : Z) : Byte.byte :=
  default Byte.x00 (Byte.of_N (Z.to_N (val mod 256))).

Definition byte_value (b : Byte.byte) : Z := Z.of_N (Byte.to_N b).

Definition bytes_4B (val : Z) : list Byte.byte :=
  [unsigned_char val; unsigned_char (Z.shiftr val 8); unsigned_char (Z.shiftr val 16);
   unsigned_char (Z.shiftr val 24)].

Definition add_1B (val : Z) (data : list Byte.byte) : list Byte.byte :=
  data ++ [unsigned_char val].

Definition add_4B (val : Z) (data : list Byte.byte) : list Byte.byte :=
  data ++ bytes_4B val.

Definition next_1B (data : list Byte.byte) : option (Z * list Byte.byte) :=
  match data with
  | b :: data => Some (byte_value b, data)
  | [] => None
  end.

Definition next_4B (data : list Byte.byte) : option (Z * list Byte.byte) :=
  match data with
  | b0 :: b1 :: b2 :: b3 :: data =>
      Some (byte_value b0 + Z.shiftl (byte_value b1) 8 + Z.shiftl (byte_value b2) 16 +
            Z.shiftl (byte_value b3) 24, data)
  | _ => None
  end.

(** [v.resize(n)] on a vector: cut, or filled up with value-initialised
    elements. *)
Definition resize {A : Type} (n : Z) (x : A) (v : list A) : list A :=
  take (Z.to_nat n) v ++ replicate (Z.to_nat n - length v) x.

(** [for (auto&& x : v) <read x from data>]: every element of the vector is
    overwritten in turn, the decoder advancing. *)
Fixpoint read_each {A : Type} (read : A -> list Byte.byte -> option (A * list Byte.byte))
    (v : list A) (data : list Byte.byte) : option (list A * list Byte.byte) :=
  match v with
  | [] => Some ([], data)
  | x :: v =>
      '(x, data) ← read x data;
      '(v, data) ← read_each read v data;
      Some (x :: v, data)
  end.

Section models.
(** The state of the base class, and its [save] and [load], which are
    defined outside this file. *)
Variable base_state : Type.
Variable feature_processor_save : base_state -> list Byte.byte -> list Byte.byte.
Variable feature_processor_load : list Byte.byte -> option (base_state * list Byte.byte).

(** [brown_clusters::save] *)
Definition brown_clusters_save (base : base_state) (clusters : list (list ner_feature))
    (enc : list Byte.byte) : list Byte.byte :=
  let enc := feature_processor_save base enc in
  let enc := add_4B (Z.of_nat (length clusters)) enc in
  fold_left
    (fun enc cluster =>
       let enc := add_4B (Z.of_nat (length cluster)) enc in
       fold_left (fun enc feature => add_4B feature enc) cluster enc)
    clusters enc.

(** [brown_clusters::load], into a processor that holds [clusters]. *)
Definition brown_clusters_load (clusters : list (list ner_feature)) (data : list Byte.byte)
    : option (base_state * list (list ner_feature) * list Byte.byte) :=
  '(base, data) ← feature_processor_load data;
  '(n, data) ← next_4B data;
  '(clusters, data) ←
    read_each
      (fun cluster data =>
         '(n, data) ← next_4B data;
         read_each (fun _ data => next_4B data) (resize n 0 cluster) data)
      (resize n [] clusters) data;
  Some (base, clusters, data).

(** [gazetteers::save]; a [bool] is written as 0 or 1. *)
Definition gazetteers_save (base : base_state)
    (gazetteers_info : list gazetteers.gazetteer_info) (enc : list Byte.byte)
    : list Byte.byte :=
  let enc := feature_processor_save base enc in
  let enc := add_4B (Z.of_nat (length gazetteers_info)) enc in
  fold_left
    (fun enc gazetteer =>
       let enc := add_1B (if gazetteers.prefix_of_longer gazetteer then 1 else 0) enc in
       let enc := add_1B (Z.of_nat (length (gazetteers.features gazetteer))) enc in
       fold_left (fun enc feature => add_4B feature enc) (gazetteers.features gazetteer) enc)
    gazetteers_info enc.

(** [gazetteers::load]; a byte read into a [bool] is true unless it is 0. *)
Definition gazetteers_load (gazetteers_info : list gazetteers.gazetteer_info)
    (data : list Byte.byte)
    : option (base_state * list gazetteers.gazetteer_info * list Byte.byte) :=
  '(base, data) ← feature_processor_load data;
  '(n, data) ← next_4B data;
  '(gazetteers_info, data) ←
    read_each
      (fun gazetteer data =>
         '(prefix_of_longer, data) ← next_1B data;
         '(n, data) ← next_1B data;
         '(features, data) ←
           read_each (fun _ data => next_4B data)
             (resize n 0 (gazetteers.features gazetteer)) data;
         Some (gazetteers.make features (negb (prefix_of_longer =? 0)), data))
      (resize n (gazetteers.make [] false) gazetteers_info) data;
  Some (base, gazetteers_info, data).

(** [url_email_detector::save] *)
Definition url_email_detector_save (base : base_state) (url email : entity_type)
    (enc : list Byte.byte) : list Byte.byte :=
  let enc := feature_processor_save base enc in
  let enc := add_4B url enc in
  add_4B email enc.

(** [url_email_detector::load] *)
Definition url_email_detector_load (data : list Byte.byte)
    : option (base_state * entity_type * entity_type * list Byte.byte) :=
  '(base, data) ← feature_processor_load data;
  '(url, data) ← next_4B data;
  '(email, data) ← next_4B data;
  Some (base, url, email, data).
End models.

(** *** Bytes *)

Lemma byte_value_unsigned_char (val : Z) : byte_value (unsigned_char val) = val mod 256.
Proof.
  unfold byte_value, unsigned_char.
  assert (0 <= val mod 256 < 256) as H by (apply Z.mod_pos_bound; lia).
  destruct (Byte.of_N (Z.to_N (val mod 256))) as [b|] eqn:E.
  - cbn. rewrite (Byte.to_of_N _ E). lia.
  - apply Byte.of_N_None_iff in E. lia.
Qed.

Lemma byte_value_bounded (b : Byte.byte) : 0 <= byte_value b <= 255.
Proof. unfold byte_value. pose proof (Byte.to_N_bounded b). lia. Qed.

Lemma next_1B_add (val : Z) (rest : list Byte.byte) :
  next_1B (unsigned_char val :: rest) = Some (val mod 256, rest).
Proof. cbn. rewrite byte_value_unsigned_char. reflexivity. Qed.

Lemma next_4B_bytes (val : Z) (rest : list Byte.byte) :
  next_4B (bytes_4B val ++ rest) = Some (wrap32 val, rest).
Proof.
  cbn. rewrite !byte_value_unsigned_char. do 2 f_equal. unfold wrap32.
  rewrite !Z.shiftr_div_pow2, !Z.shiftl_mul_pow2 by lia.
  change (2 ^ 8) with 256. change (2 ^ 16) with 65536. change (2 ^ 24) with 16777216.
  change (2 ^ 32) with 4294967296.
  Z.to_euclidean_division_equations. lia.
Qed.

(** *** Vectors written and read element by element *)

Lemma length_resize {A : Type} (n : Z) (x : A) (v : list A) :
  length (resize n x v) = Z.to_nat n.
Proof. unfold resize. rewrite length_app, length_take, length_replicate. lia. Qed.

Lemma fold_left_encoded {A : Type} (encode : A -> list Byte.byte)
    (step : list Byte.byte -> A -> list Byte.byte) (xs : list A) :
  (forall enc x, step enc x = enc ++ encode x) ->
  forall enc, fold_left step xs enc = enc ++ concat (encode <$> xs).
Proof.
  intros Hstep. induction xs as [|x xs IH]; intros enc; cbn.
  - rewrite app_nil_r. reflexivity.
  - rewrite IH, Hstep, <- app_assoc. reflexivity.
Qed.

Lemma read_each_encoded {A : Type} (encode : A -> list Byte.byte)
    (read : A -> list Byte.byte -> option (A * list Byte.byte)) (P : A -> Prop) :
  (forall x old rest, P x -> read old (encode x ++ rest) = Some (x, rest)) ->
  forall (xs olds : list A) (rest : list Byte.byte),
  Forall P xs -> length olds = length xs ->
  read_each read olds (concat (encode <$> xs) ++ rest) = Some (xs, rest).
Proof.
  intros Hread. induction xs as [|x xs IH]; intros olds rest HP Hlen.
  - destruct olds; [reflexivity|discriminate].
  - destruct olds as [|old olds]; [discriminate|].
    inversion HP; subst. cbn. rewrite <- app_assoc, Hread by assumption. cbn.
    rewrite IH by (try assumption; cbn in Hlen; lia). reflexivity.
Qed.

Lemma read_each_Forall {A : Type}
    (read : A -> list Byte.byte -> option (A * list Byte.byte)) (Q : A -> Prop) :
  (forall x data x' data', read x data = Some (x', data') -> Q x') ->
  forall (v v' : list A) (data data' : list Byte.byte),
  read_each read v data = Some (v', data') -> Forall Q v' /\ length v' = length v.
Proof.
  intros Hread. induction v as [|x v IH]; intros v' data data' E; cbn in E.
  - injection E as <- <-. split; [constructor|reflexivity].
  - destruct (read x data) as [[x1 data1]|] eqn:E1; [|discriminate]. cbn in E.
    destruct (read_each read v data1) as [[v1 data2]|] eqn:E2; [|discriminate]. cbn in E.
    injection E as <- <-. destruct (IH _ _ _ E2) as [HQ Hlen]. split.
    + constructor; [eapply Hread; eassumption|assumption].
    + cbn. lia.
Qed.

(** The features of one cluster or gazetteer, written and read back. *)
Lemma features_round_trip (features old : list ner_feature) (rest : list Byte.byte) :
  Forall (fun feature => 0 <= feature < 2 ^ 32) features ->
  length old = length features ->
  read_each (fun _ data => next_4B data) old (concat (bytes_4B <$> features) ++ rest) =
    Some (features, rest).
Proof.
  apply (read_each_encoded bytes_4B (fun _ data => next_4B data)
           (fun feature => 0 <= feature < 2 ^ 32)).
  intros x _ rest' Hx. rewrite next_4B_bytes. unfold wrap32. rewrite Z.mod_small by lia.
  reflexivity.
Qed.

(** Ids and sizes that fit the four bytes they are written to. *)
Definition fits_4B (features : list ner_feature) : Prop :=
  Z.of_nat (length features) < 2 ^ 32 /\ Forall (fun feature => 0 <= feature < 2 ^ 32) features.

(** A gazetteer entry whose number of features fits the one byte it is
    written to. *)
Definition fits_1B (gazetteer : gazetteers.gazetteer_info) : Prop :=
  Z.of_nat (length (gazetteers.features gazetteer)) < 256 /\
  Forall (fun feature => 0 <= feature < 2 ^ 32) (gazetteers.features gazetteer).

Section round_trips.
Variable base_state : Type.
Variable feature_processor_save : base_state -> list Byte.byte -> list Byte.byte.
Variable feature_processor_load : list Byte.byte -> option (base_state * list Byte.byte).
Variable base : base_state.

(** The base class reads back what it wrote, and nothing more. *)
Hypothesis base_round_trip : forall rest : list Byte.byte,
  feature_processor_load (feature_processor_save base [] ++ rest) = Some (base, rest).

(** X4. BrownClusters reads back what it saved, whatever the loading
    processor held before, provided the number of clusters, the size of
    each cluster and every feature id fit four bytes; the bytes after the
    processor are left in the decoder. *)
Theorem brown_clusters_round_trip (clusters old : list (list ner_feature))
    (rest : list Byte.byte) :
  Z.of_nat (length clusters) < 2 ^ 32 ->
  Forall fits_4B clusters ->
  brown_clusters_load base_state feature_processor_load old
    (brown_clusters_save base_state feature_processor_save base clusters [] ++ rest) =
  Some (base, clusters, rest).
Proof.
  intros Hn Hfit. unfold brown_clusters_save, brown_clusters_load.
  rewrite (fold_left_encoded
             (fun cluster => bytes_4B (Z.of_nat (length cluster)) ++ concat (bytes_4B <$> cluster))).
  2:{ intros enc cluster. cbn zeta.
      rewrite (fold_left_encoded bytes_4B) by reflexivity.
      unfold add_4B. rewrite <- app_assoc. reflexivity. }
  unfold add_4B. rewrite <- !app_assoc, base_round_trip. cbn [mbind option_bind].
  rewrite next_4B_bytes. cbn [mbind option_bind]. unfold wrap32 at 1.
  rewrite Z.mod_small by lia.
  rewrite (read_each_encoded
             (fun cluster => bytes_4B (Z.of_nat (length cluster)) ++ concat (bytes_4B <$> cluster))
             _ fits_4B).
  - reflexivity.
  - intros cluster old' rest' [Hlen Hfs]. rewrite <- app_assoc, next_4B_bytes.
    cbn [mbind option_bind]. unfold wrap32. rewrite Z.mod_small by lia.
    apply features_round_trip; [assumption|]. rewrite length_resize. lia.
  - assumption.
  - rewrite length_resize. lia.
Qed.

(** X5. Gazetteers reads back what it saved, whatever the loading processor
    held before, provided the number of entries and every feature id fit
    four bytes and the number of features of each entry fits one byte. *)
Theorem gazetteers_round_trip (gazetteers_info old : list gazetteers.gazetteer_info)
    (rest : list Byte.byte) :
  Z.of_nat (length gazetteers_info) < 2 ^ 32 ->
  Forall fits_1B gazetteers_info ->
  gazetteers_load base_state feature_processor_load old
    (gazetteers_save base_state feature_processor_save base gazetteers_info [] ++ rest) =
  Some (base, gazetteers_info, rest).
Proof.
  intros Hn Hfit. unfold gazetteers_save, gazetteers_load.
  rewrite (fold_left_encoded
             (fun gazetteer =>
                [unsigned_char (if gazetteers.prefix_of_longer gazetteer then 1 else 0);
                 unsigned_char (Z.of_nat (length (gazetteers.features gazetteer)))] ++
                concat (bytes_4B <$> gazetteers.features gazetteer))).
  2:{ intros enc gazetteer. cbn zeta.
      rewrite (fold_left_encoded bytes_4B) by reflexivity.
      unfold add_1B. rewrite <- !app_assoc. reflexivity. }
  unfold add_4B. rewrite <- !app_assoc, base_round_trip. cbn [mbind option_bind].
  rewrite next_4B_bytes. cbn [mbind option_bind]. unfold wrap32 at 1.
  rewrite Z.mod_small by lia.
  rewrite (read_each_encoded
             (fun gazetteer =>
                [unsigned_char (if gazetteers.prefix_of_longer gazetteer then 1 else 0);
                 unsigned_char (Z.of_nat (length (gazetteers.features gazetteer)))] ++
                concat (bytes_4B <$> gazetteers.features gazetteer))
             _ fits_1B).
  - reflexivity.
  - intros [features prefix_of_longer] old' rest' [Hlen Hfs]. cbn in *.
    rewrite !byte_value_unsigned_char. rewrite (Z.mod_small (Z.of_nat _)) by lia.
    rewrite features_round_trip by (try assumption; rewrite length_resize; lia).
    cbn. destruct prefix_of_longer; reflexivity.
  - assumption.
  - rewrite length_resize. lia.
Qed.

(** X6. URLEmailDetector reads back the two entity types it saved. *)
Theorem url_email_detector_round_trip (url email : entity_type) (rest : list Byte.byte) :
  0 <= url < 2 ^ 32 -> 0 <= email < 2 ^ 32 ->
  url_email_detector_load base_state feature_processor_load
    (url_email_detector_save base_state feature_processor_save base url email [] ++ rest) =
  Some (base, url, email, rest).
Proof.
  intros Hurl Hemail. unfold url_email_detector_save, url_email_detector_load, add_4B.
  rewrite <- !app_assoc, base_round_trip. cbn [mbind option_bind].
  rewrite !next_4B_bytes. cbn [mbind option_bind]. rewrite next_4B_bytes. cbn.
  unfold wrap32. rewrite !Z.mod_small by lia. reflexivity.
Qed.
End round_trips.

(** X7. Whatever data Gazetteers loads, no entry it builds has more than
    255 features: their number is read from a single byte.  An entry with
    more features is therefore never read back as it was saved. *)
Theorem gazetteers_load_one_byte (base_state : Type)
    (feature_processor_load : list Byte.byte -> option (base_state * list Byte.byte))
    (old gazetteers_info : list gazetteers.gazetteer_info) (data rest : list Byte.byte)
    (base : base_state) :
  gazetteers_load base_state feature_processor_load old data =
    Some (base, gazetteers_info, rest) ->
  Forall (fun gazetteer => (length (gazetteers.features gazetteer) <= 255)%nat) gazetteers_info.
Proof.
  unfold gazetteers_load. intros E.
  destruct (feature_processor_load data) as [[base' data1]|]; [|discriminate]. cbn in E.
  destruct (next_4B data1) as [[n data2]|]; [|discriminate]. cbn [mbind option_bind] in E.
  match type of E with
  | context [read_each ?read ?v ?d] => destruct (read_each read v d) as [[v' data3]|] eqn:E3
  end; [|discriminate].
  cbn in E. injection E as _ <- _.
  eapply (fun H => proj1 (read_each_Forall _ _ H _ _ _ _ E3)).
  clear. intros gazetteer data x' data' E.
  destruct (next_1B data) as [[p data1]|]; [|discriminate]. cbn [mbind option_bind] in E.
  destruct (next_1B data1) as [[n data2]|] eqn:En; [|discriminate]. cbn [mbind option_bind] in E.
  match type of E with
  | context [read_each ?read ?v ?d] => destruct (read_each read v d) as [[v' data3]|] eqn:E3
  end; [|discriminate].
  cbn in E. injection E as <- _. cbn.
  destruct (read_each_Forall (fun _ data => next_4B data) (fun _ => True)
              (fun _ _ _ _ _ => I) _ _ _ _ E3) as [_ Hlen].
  rewrite length_resize in Hlen.
  destruct data1 as [|b data1]; [discriminate|]. cbn in En. injection En as <- _.
  pose proof (byte_value_bounded b). unfold ner_feature in *. lia.
Qed.

Lemma brown_clusters_round_trip_witness :
  brown_clusters_load Z next_4B [[9]]
    (brown_clusters_save Z add_4B 2 [[5; 6]; []; [4294967295]] [] ++ [Byte.xff]) =
  Some (2, [[5; 6]; []; [4294967295]], [Byte.xff]).
Proof.
  apply (brown_clusters_round_trip Z add_4B next_4B 2).
  - intros rest. reflexivity.
  - cbn. lia.
  - repeat constructor; cbn; lia.
Defined.

Lemma gazetteers_round_trip_witness :
  gazetteers_load Z next_4B [gazetteers.make [1; 2; 3] false]
    (gazetteers_save Z add_4B 2 [gazetteers.make [7; 12] true; gazetteers.make [] true] [] ++
     [Byte.x01]) =
  Some (2, [gazetteers.make [7; 12] true; gazetteers.make [] true], [Byte.x01]).
Proof.
  apply (gazetteers_round_trip Z add_4B next_4B 2).
  - intros rest. reflexivity.
  - cbn. lia.
  - repeat constructor; cbn; lia.
Defined.

Lemma url_email_detector_round_trip_witness :
  url_email_detector_load Z next_4B (url_email_detector_save Z add_4B 2 7 8 [] ++ []) =
  Some (2, 7, 8, []).
Proof.
  apply (url_email_detector_round_trip Z add_4B next_4B 2).
  - intros rest. reflexivity.
  - lia.
  - lia.
Defined.

Lemma gazetteers_load_one_byte_witness :
  Forall (fun gazetteer => (length (gazetteers.features gazetteer) <= 255)%nat)
    [gazetteers.make [7; 12] true].
Proof.
  apply (gazetteers_load_one_byte Z next_4B [] [gazetteers.make [7; 12] true]
           (gazetteers_save Z add_4B 2 [gazetteers.make [7; 12] true] []) [] 2).
  reflexivity.
Defined.

(** ** The keys of PreviousStage *)

(** The value of a hexadecimal digit, none for any other character. *)
Fixpoint index_of (a : ascii) (s : string) (n : Z) : option Z :=
  match s with
  | EmptyString => None
  | String b s => if Ascii.eqb a b then Some n else index_of a s (n + 1)
  end.

Definition hex_value (a : ascii) : option Z := index_of a "0123456789abcdef" 0.

(** The number a string of digits, lowest first, stands for. *)
Fixpoint decode_nibbles (s : string) : option Z :=
  match s with
  | EmptyString => Some 0
  | String a s => d ← hex_value a; v ← decode_nibbles s; Some (d + 16 * v)
  end.

(** The text before and after the first space. *)
Fixpoint split_space (s : string) : string * string :=
  match s with
  | EmptyString => (EmptyString, EmptyString)
  | String a s =>
      if Ascii.eqb a " " then (EmptyString, s)
      else let '(x, y) := split_space s in (String a x, y)
  end.

Fixpoint no_space (s : string) : Prop :=
  match s with
  | EmptyString => True
  | String a s => a <> " "%char /\ no_space s
  end.

(** What [append_encoded] appends for [value]. *)
Definition encoded (value : Z) : string :=
  if value <? 0 then String "-" (append_nibbles 8 EmptyString (- value))
  else append_nibbles 8 EmptyString value.

Lemma string_app_assoc (s1 s2 s3 : string) : (s1 +:+ s2) +:+ s3 = s1 +:+ (s2 +:+ s3).
Proof.
  induction s1 as [|a s1 IH]; [reflexivity|].
  change (String a ((s1 +:+ s2) +:+ s3) = String a (s1 +:+ (s2 +:+ s3))). f_equal. exact IH.
Qed.

Lemma string_app_nil_r (s : string) : s +:+ EmptyString = s.
Proof.
  induction s as [|a s IH]; [reflexivity|].
  change (String a (s +:+ EmptyString) = String a s). f_equal. exact IH.
Qed.

Lemma push_back_app (a : ascii) (s : string) : push_back EmptyString a +:+ s = String a s.
Proof. reflexivity. Qed.

Lemma nibble_range (value : Z) : 0 <= Z.land value 15 < 16.
Proof.
  change 15 with (Z.ones 4). rewrite Z.land_ones by lia. apply Z.mod_pos_bound. lia.
Qed.

Lemma hex_value_digit (n : Z) : 0 <= n < 16 -> hex_value (hex_digit n) = Some n.
Proof.
  intros H. rewrite <- (Z2Nat.id n) by lia.
  assert (Z.to_nat n < 16)%nat as Hk by lia. revert Hk. generalize (Z.to_nat n) as k.
  intros k Hk. do 16 (destruct k as [|k]; [reflexivity|]). lia.
Qed.

Lemma hex_digit_no_space (n : Z) : 0 <= n < 16 -> hex_digit n <> " "%char.
Proof.
  intros H E. apply hex_value_digit in H. rewrite E in H. discriminate.
Qed.

Lemma append_nibbles_app (fuel : nat) :
  forall (str : string) (value : Z),
  append_nibbles fuel str value = str +:+ append_nibbles fuel EmptyString value.
Proof.
  induction fuel as [|fuel IH]; intros str value; cbn [append_nibbles].
  - symmetry. apply string_app_nil_r.
  - destruct (value =? 0).
    + symmetry. apply string_app_nil_r.
    + rewrite IH. rewrite (IH (push_back EmptyString _)).
      unfold push_back. rewrite string_app_assoc. reflexivity.
Qed.

Lemma decode_nibbles_append (fuel : nat) :
  forall value : Z,
  0 <= value < 16 ^ Z.of_nat fuel ->
  decode_nibbles (append_nibbles fuel EmptyString value) = Some value.
Proof.
  induction fuel as [|fuel IH]; intros value Hv.
  - cbn in *. f_equal. lia.
  - cbn [append_nibbles]. destruct (Z.eqb_spec value 0) as [->|Hne]; [reflexivity|].
    rewrite append_nibbles_app, push_back_app. cbn [decode_nibbles].
    rewrite hex_value_digit by apply nibble_range. cbn [mbind option_bind].
    rewrite IH.
    + cbn. f_equal. change 15 with (Z.ones 4). rewrite Z.land_ones by lia.
      rewrite Z.shiftr_div_pow2 by lia. change (2 ^ 4) with 16.
      pose proof (Z.div_mod value 16). lia.
    + rewrite Z.shiftr_div_pow2 by lia. change (2 ^ 4) with 16.
      replace (16 ^ Z.of_nat (S fuel)) with (16 * 16 ^ Z.of_nat fuel) in Hv
        by (rewrite Nat2Z.inj_succ, Z.pow_succ_r by lia; reflexivity).
      split; [apply Z.div_pos; lia|]. apply Z.div_lt_upper_bound; lia.
Qed.

Lemma no_space_nibbles (fuel : nat) :
  forall value : Z, no_space (append_nibbles fuel EmptyString value).
Proof.
  induction fuel as [|fuel IH]; intros value; cbn [append_nibbles]; [exact I|].
  destruct (value =? 0); [exact I|].
  rewrite append_nibbles_app, push_back_app. split; [|apply IH].
  apply hex_digit_no_space, nibble_range.
Qed.

Lemma no_space_encoded (value : Z) : no_space (encoded value).
Proof.
  unfold encoded. destruct (value <? 0); [|apply no_space_nibbles].
  split; [discriminate|apply no_space_nibbles].
Qed.

Lemma split_space_app (s1 s2 : string) :
  no_space s1 -> split_space (s1 +:+ String " " s2) = (s1, s2).
Proof.
  induction s1 as [|a s1 IH]; intros Hs.
  - reflexivity.
  - change (split_space (String a (s1 +:+ String " " s2)) = (String a s1, s2)).
    cbn [split_space].
    destruct Hs as [Ha Hs]. destruct (Ascii.eqb_spec a " "); [contradiction|].
    rewrite IH by assumption. reflexivity.
Qed.

(** [append_encoded] appends, and what it appends tells the value. *)
Lemma append_encoded_app (str s : string) (value : Z) :
  append_encoded str value = Some s -> s = str +:+ encoded value /\ - 2 ^ 31 < value.
Proof.
  unfold append_encoded, encoded, in_int. destruct (Z.ltb_spec value 0).
  - destruct (Z.leb_spec (- 2 ^ 31) (- value)); cbn [andb]; [|discriminate].
    destruct (Z.ltb_spec (- value) (2 ^ 31)); cbn [andb]; [|discriminate].
    intros E. assert (s = append_nibbles 8 (push_back str "-") (- value)) as -> by congruence.
    rewrite append_nibbles_app. unfold push_back.
    rewrite string_app_assoc. split; [reflexivity|lia].
  - intros E. assert (s = append_nibbles 8 str value) as -> by congruence.
    split; [apply append_nibbles_app|lia].
Qed.

Lemma string_cons_inj (a : ascii) (s s' : string) : String a s = String a s' -> s = s'.
Proof. intros [= ->]. reflexivity. Qed.

Lemma decode_nibbles_dash (s : string) : decode_nibbles (String "-" s) = None.
Proof. reflexivity. Qed.

Lemma encoded_inj (v1 v2 : Z) :
  - 2 ^ 31 < v1 < 2 ^ 31 -> - 2 ^ 31 < v2 < 2 ^ 31 -> encoded v1 = encoded v2 -> v1 = v2.
Proof.
  intros H1 H2. unfold encoded.
  assert (forall v, 0 <= v < 2 ^ 31 ->
            decode_nibbles (append_nibbles 8 EmptyString v) = Some v) as Hdec.
  { intros v Hv. apply decode_nibbles_append. change (16 ^ Z.of_nat 8) with (2 ^ 32). lia. }
  destruct (Z.ltb_spec v1 0), (Z.ltb_spec v2 0); intros E.
  - apply string_cons_inj, (f_equal decode_nibbles) in E.
    rewrite !Hdec in E by lia. assert (- v1 = - v2) by congruence. lia.
  - apply (f_equal decode_nibbles) in E.
    rewrite decode_nibbles_dash, (Hdec v2) in E by lia. discriminate.
  - apply (f_equal decode_nibbles) in E.
    rewrite decode_nibbles_dash, (Hdec v1) in E by lia. discriminate.
  - apply (f_equal decode_nibbles) in E. rewrite !Hdec in E by lia. congruence.
Qed.

Lemma to_int_range (u : Z) : 0 <= u < 2 ^ 32 -> - 2 ^ 31 <= to_int u < 2 ^ 31.
Proof. intros H. unfold to_int. destruct (Z.ltb_spec u (2 ^ 31)); lia. Qed.

Lemma to_int_inj (u v : Z) :
  0 <= u < 2 ^ 32 -> 0 <= v < 2 ^ 32 -> to_int u = to_int v -> u = v.
Proof.
  unfold to_int. intros Hu Hv.
  destruct (Z.ltb_spec u (2 ^ 31)), (Z.ltb_spec v (2 ^ 31)); lia.
Qed.

(** X8. Two previous-stage predictions that get the same key are the same
    prediction: the key built from [bilou] and [entity] by [append_encoded]
    tells both values apart. *)
Theorem stage_key_injective (ps1 ps2 : previous_stage_info) (key : string) :
  0 <= ps_bilou ps1 < 2 ^ 32 -> 0 <= ps_entity ps1 < 2 ^ 32 ->
  0 <= ps_bilou ps2 < 2 ^ 32 -> 0 <= ps_entity ps2 < 2 ^ 32 ->
  stage_key ps1 = Some key -> stage_key ps2 = Some key ->
  ps1 = ps2.
Proof.
  intros Hb1 He1 Hb2 He2 E1 E2. unfold stage_key in *.
  destruct (append_encoded EmptyString (to_int (ps_bilou ps1))) as [b1|] eqn:B1; [|discriminate].
  destruct (append_encoded EmptyString (to_int (ps_bilou ps2))) as [b2|] eqn:B2; [|discriminate].
  cbn [mbind option_bind] in E1, E2.
  apply append_encoded_app in B1, B2, E1, E2.
  destruct B1 as [-> Lb1], B2 as [-> Lb2], E1 as [E1 Le1], E2 as [E2 Le2].
  cbn [String.append] in E1, E2. unfold push_back in *.
  rewrite string_app_assoc in E1, E2. cbn [String.append] in E1, E2.
  assert (split_space key = (encoded (to_int (ps_bilou ps1)), encoded (to_int (ps_entity ps1))))
    as S1 by (rewrite E1; apply split_space_app, no_space_encoded).
  assert (split_space key = (encoded (to_int (ps_bilou ps2)), encoded (to_int (ps_entity ps2))))
    as S2 by (rewrite E2; apply split_space_app, no_space_encoded).
  rewrite S1 in S2. injection S2 as Hb He.
  pose proof (to_int_range _ Hb1). pose proof (to_int_range _ Hb2).
  pose proof (to_int_range _ He1). pose proof (to_int_range _ He2).
  apply encoded_inj in Hb; [|lia|lia]. apply encoded_inj in He; [|lia|lia].
  apply to_int_inj in Hb; [|assumption|assumption].
  apply to_int_inj in He; [|assumption|assumption].
  destruct ps1, ps2. cbn in *. congruence.
Qed.

Lemma stage_key_injective_witness :
  Previous_stage_info bilou_type_U 3 = Previous_stage_info bilou_type_U 3.
Proof.
  apply (stage_key_injective _ _ "4 3");
    first [reflexivity | cbn [ps_bilou ps_entity]; unfold bilou_type_U; lia].
Defined.

(** ** What [brown_clusters::parse] leaves *)

(** The centre of the [k]-th band reserved from [t0] on. *)
Definition band_centre (w t0 k : Z) : ner_feature := wrap32 (t0 + (2 * w + 1) * k + w).

(** [f] is the centre of one of the first [n] bands. *)
Definition reserved_centre (w t0 : Z) (n : nat) (f : ner_feature) : Prop :=
  exists k, 0 <= k < Z.of_nat n /\ f = band_centre w t0 k.

Section brown_parse.
Variable split : string -> ascii -> list string.
Variables (w t0 : Z) (m0 : gmap string ner_feature).

(** The prefixes seen so far own the first bands from [t0] on, one each. *)
Definition prefixes_ok (prefixes_map : gmap string ner_feature) : Prop :=
  forall key f, prefixes_map !! key = Some f ->
    reserved_centre w t0 (base.size prefixes_map) f.

Record brown_inv (st : brown_state) : Prop := {
  bi_prefixes : prefixes_ok (bs_prefixes_map st);
  bi_clusters :
    Forall (Forall (fun f => exists key, bs_prefixes_map st !! key = Some f)) (bs_clusters st);
  bi_cluster_map : forall key id,
    bs_cluster_map st !! key = Some id -> 0 <= id < Z.of_nat (length (bs_clusters st));
  bi_map : forall form it,
    bs_map st !! form = Some it ->
    m0 !! form = Some it \/ 0 <= it < Z.of_nat (length (bs_clusters st));
  bi_grows : m0 ⊆ bs_map st }.

Lemma brown_add_prefix_inv (cluster : string) (substring : Z)
    (back : list ner_feature) (pm : gmap string ner_feature) :
  prefixes_ok pm ->
  Forall (fun f => exists key, pm !! key = Some f) back ->
  exists back' pm',
    brown_add_prefix w t0 cluster substring (back, pm) = (back', pm') /\
    prefixes_ok pm' /\ pm ⊆ pm' /\
    Forall (fun f => exists key, pm' !! key = Some f) back'.
Proof.
  intros Hpm Hback. unfold brown_add_prefix.
  destruct ((substring =? npos) || (substring <? Z.of_nat (String.length cluster)));
    [|exists back, pm; auto].
  destruct (pm !! substr0 cluster substring) as [f|] eqn:E.
  - exists (back ++ [f]), pm. split; [reflexivity|]. split; [assumption|]. split; [reflexivity|].
    apply Forall_app. split; [assumption|]. repeat constructor. eauto.
  - eexists _, _. split; [reflexivity|]. split; [|split].
    + intros key f. rewrite map_size_insert_None by assumption.
      destruct (decide (key = substr0 cluster substring)) as [->|Hne].
      * rewrite lookup_insert_eq. intros [= <-]. exists (Z.of_nat (base.size pm)).
        split; [lia|reflexivity].
      * rewrite lookup_insert_ne by congruence. intros Hf.
        destruct (Hpm key f Hf) as (k & Hk & ->). exists k. split; [lia|reflexivity].
    + apply insert_subseteq. assumption.
    + apply Forall_app. split.
      * eapply Forall_impl; [exact Hback|]. intros f (key & Hf). exists key.
        rewrite lookup_insert_ne; [assumption|]. intros <-. congruence.
      * repeat constructor. eexists. apply lookup_insert_eq.
Qed.

Lemma brown_add_prefixes_inv (cluster : string) (substrings : list Z) :
  forall (back : list ner_feature) (pm : gmap string ner_feature),
  prefixes_ok pm ->
  Forall (fun f => exists key, pm !! key = Some f) back ->
  exists back' pm',
    fold_left (fun acc substring => brown_add_prefix w t0 cluster substring acc)
      substrings (back, pm) = (back', pm') /\
    prefixes_ok pm' /\ pm ⊆ pm' /\
    Forall (fun f => exists key, pm' !! key = Some f) back'.
Proof.
  induction substrings as [|substring substrings IH]; intros back pm Hpm Hback; cbn [fold_left].
  - exists back, pm. auto.
  - destruct (brown_add_prefix_inv cluster substring back pm Hpm Hback)
      as (back1 & pm1 & -> & Hpm1 & Hsub1 & Hback1).
    destruct (IH back1 pm1 Hpm1 Hback1) as (back2 & pm2 & -> & Hpm2 & Hsub2 & Hback2).
    exists back2, pm2. split; [reflexivity|]. split; [assumption|]. split; [|assumption].
    etrans; eassumption.
Qed.

Lemma brown_add_line_inv (substrings : list Z) (line : string) (st st' : brown_state) :
  brown_inv st -> brown_add_line split w t0 substrings line st = Some st' -> brown_inv st'.
Proof.
  intros Hinv. unfold brown_add_line.
  destruct (split line "009") as [|cluster [|form [|? ?]]]; try discriminate.
  destruct (bs_cluster_map st !! cluster) as [id|] eqn:Ec.
  - (* a cluster seen before *)
    destruct (bs_map st !! form) eqn:Ef; [discriminate|]. intros [= <-].
    destruct Hinv. constructor; cbn; try assumption.
    + intros form' it. destruct (decide (form' = form)) as [->|Hne].
      * rewrite lookup_insert_eq. intros [= <-]. right. eauto.
      * rewrite lookup_insert_ne by congruence. auto.
    + etrans; [eassumption|]. apply insert_subseteq. assumption.
  - (* a new cluster *)
    destruct (brown_add_prefixes_inv cluster substrings [] (bs_prefixes_map st))
      as (back & pm & E & Hpm & Hsub & Hback); [apply Hinv|constructor|].
    rewrite E. cbn [bs_map bs_clusters bs_cluster_map bs_prefixes_map].
    destruct (bs_map st !! form) eqn:Ef; [discriminate|]. intros [= <-].
    assert (0 <= wrap32 (Z.of_nat (length (bs_clusters st))) <
            Z.of_nat (length (bs_clusters st ++ [back]))) as Hid.
    { rewrite length_app. cbn. unfold wrap32.
      pose proof (Z.mod_pos_bound (Z.of_nat (length (bs_clusters st))) (2 ^ 32)).
      pose proof (Z.mod_le (Z.of_nat (length (bs_clusters st))) (2 ^ 32)). lia. }
    destruct Hinv. constructor; cbn; try assumption.
    + apply Forall_app. split; [|repeat constructor; assumption].
      eapply Forall_impl; [eassumption|]. intros cl Hcl.
      eapply Forall_impl; [exact Hcl|]. intros f (key & Hf). exists key.
      eapply lookup_weaken; eassumption.
    + intros key id. destruct (decide (key = cluster)) as [->|Hne].
      * rewrite lookup_insert_eq. intros [= <-]. assumption.
      * rewrite lookup_insert_ne by congruence. intros Hk.
        specialize (bi_cluster_map0 _ _ Hk). rewrite length_app. cbn. lia.
    + intros form' it. destruct (decide (form' = form)) as [->|Hne].
      * rewrite lookup_insert_eq. intros [= <-]. right. assumption.
      * rewrite lookup_insert_ne by congruence. intros Hk.
        destruct (bi_map0 _ _ Hk) as [?|?]; [left; assumption|right].
        rewrite length_app. cbn. lia.
    + etrans; [eassumption|]. apply insert_subseteq. assumption.
Qed.

Lemma brown_lines_inv (substrings : list Z) (lines : list string) :
  forall st st' : brown_state,
  brown_inv st -> for_each lines (brown_add_line split w t0 substrings) st = Some st' ->
  brown_inv st'.
Proof.
  induction lines as [|line lines IH]; intros st st' Hinv; cbn [for_each].
  - intros [= <-]. assumption.
  - destruct (brown_add_line split w t0 substrings line st) as [st1|] eqn:E1; [|discriminate].
    apply IH. eapply brown_add_line_inv; eassumption.
Qed.
End brown_parse.

(** The stored features are centres of the reserved bands. *)
Lemma brown_inv_centres (w t0 : Z) (m0 : gmap string ner_feature) (st : brown_state) :
  brown_inv w t0 m0 st ->
  Forall (Forall (reserved_centre w t0 (base.size (bs_prefixes_map st)))) (bs_clusters st).
Proof.
  intros []. eapply Forall_impl; [eassumption|]. intros cl Hcl.
  eapply Forall_impl; [exact Hcl|]. intros f (key & Hf). eapply bi_prefixes0. eassumption.
Qed.

(** A successful [parse] ran its loop to a state that satisfies the
    invariant, and returns that state. *)
Lemma brown_clusters_parse_inv (split : string -> ascii -> list string)
    (parse_int : string -> option Z) (base : parse_state) (window : Z) (args : list string)
    (file : option (list string)) (ps : parse_state) (clusters : list (list ner_feature)) :
  brown_clusters_parse split parse_int (Some base) window args file = Some (ps, clusters) ->
  exists st : brown_state,
    brown_inv window (parsed_total_features base) (parsed_map base) st /\
    clusters = bs_clusters st /\
    ps = Parse_state (parsed_window base) (bs_map st)
           (wrap32 (parsed_total_features base +
                    (2 * window + 1) * Z.of_nat (base.size (bs_prefixes_map st)))).
Proof.
  unfold brown_clusters_parse. cbn [mbind option_bind].
  destruct args as [|path lengths]; [discriminate|].
  destruct file as [lines|]; [|discriminate]. cbn [mbind option_bind].
  destruct (prefix_lengths parse_int lengths [npos]) as [substrings|]; [|discriminate].
  cbn [mbind option_bind].
  destruct (for_each lines _ _) as [st|] eqn:E; [|discriminate].
  cbn [mbind option_bind]. intros [= <- <-]. exists st. split; [|auto].
  eapply brown_lines_inv; [|exact E]. constructor; cbn.
  - intros key f. rewrite fin_maps.lookup_empty. discriminate.
  - constructor.
  - intros key id. rewrite fin_maps.lookup_empty. discriminate.
  - auto.
  - reflexivity.
Qed.


(** The bank example: the state before and after [parse], and a frame
    that holds the parsed table. *)
Definition bank_base : parse_state := Parse_state 2 ∅ 1.

Definition bank_parsed : parse_state := Parse_state 2 {["bank" := 0]} 11.

Definition bank_frame : frame :=
  Frame (plain_sentence ["bank"; "river"]) 2 (parsed_map bank_parsed) None EmptyString.


(** The ids of the band around a reserved centre lie in the reserved
    range. *)
Lemma reserved_band (w t0 : Z) (n : nat) (f x : ner_feature) :
  0 <= w -> 0 <= t0 -> t0 + (2 * w + 1) * Z.of_nat n < 2 ^ 32 ->
  reserved_centre w t0 n f -> in_band w f x ->
  t0 <= x < t0 + (2 * w + 1) * Z.of_nat n.
Proof.
  intros Hw Ht Hfit (k & Hk & ->) Hb.
  assert ((2 * w + 1) * k + 2 * w < (2 * w + 1) * Z.of_nat n) as Hlt by nia.
  assert (0 <= (2 * w + 1) * k) as Hge by nia.
  unfold band_centre in Hb.
  assert (wrap32 (t0 + (2 * w + 1) * k + w) = t0 + (2 * w + 1) * k + w) as E
    by (unfold wrap32; apply Z.mod_small; lia).
  rewrite E in Hb. apply in_band_exact in Hb; lia.
Qed.



(** ** NumericTimeValue, token by token *)

(** The scan stops at [rest]: it is at the end, or does not start with a
    digit. *)
Definition stops (rest : string) : Prop := peek rest = 0 \/ peek rest < 48 \/ 57 < peek rest.

(** What a token whose digits read [num] gets: the five rows of the table. *)
Definition number_rows (hour minute day month year : ner_feature) (i num : Z) (c : frame)
    : option frame :=
  c ← when (num <? 24) (emit_in_window i hour) c;
  c ← when (num <? 60) (emit_in_window i minute) c;
  c ← when ((1 <=? num) && (num <=? 31)) (emit_in_window i day) c;
  c ← when ((1 <=? num) && (num <=? 12)) (emit_in_window i month) c;
  when ((1000 <=? num) && (num <=? 2200)) (emit_in_window i year) c.

Lemma string_app_cons (a : ascii) (s rest : string) :
  String a s +:+ rest = String a (s +:+ rest).
Proof. reflexivity. Qed.

Lemma scan_digits_stops (rest : string) (digit : bool) (num : Z) :
  stops rest -> scan_digits rest digit num = (rest, digit, num).
Proof.
  intros H. destruct rest as [|a rest]; [reflexivity|]. cbn [scan_digits].
  destruct (Z.eqb_spec (peek (String a rest)) 0); [reflexivity|].
  destruct (Z.ltb_spec (peek (String a rest)) 48); [reflexivity|].
  destruct (Z.ltb_spec 57 (peek (String a rest))); [reflexivity|].
  destruct H as [?|[?|?]]; lia.
Qed.

(** The digit run reads the decimal value of the digits, in the 32-bit
    arithmetic of [num], and stops behind them. *)
Lemma scan_digits_decimal (s : string) :
  forall (acc v : Z) (rest : string) (digit : bool) (num : Z),
  decimal_value s acc = Some v -> num = wrap32 acc -> stops rest ->
  scan_digits (s +:+ rest) digit num =
    (rest, match s with EmptyString => digit | _ => true end,
     match s with EmptyString => num | _ => wrap32 v end).
Proof.
  induction s as [|a s IH]; intros acc v rest digit num Hv Hnum Hrest.
  - apply scan_digits_stops. assumption.
  - rewrite string_app_cons. cbn [scan_digits decimal_value] in *.
    change (peek (String a (s +:+ rest))) with (Z.of_N (N_of_ascii a)).
    destruct (Z.leb_spec 0 (Z.of_N (N_of_ascii a) - 48)); [|discriminate].
    destruct (Z.leb_spec (Z.of_N (N_of_ascii a) - 48) 9); [|discriminate].
    cbn [andb] in Hv.
    destruct (Z.eqb_spec (Z.of_N (N_of_ascii a)) 0); [lia|].
    destruct (Z.ltb_spec (Z.of_N (N_of_ascii a)) 48); [lia|].
    destruct (Z.ltb_spec 57 (Z.of_N (N_of_ascii a))); [lia|]. cbn [orb].
    assert (wrap32 (num * 10 + Z.of_N (N_of_ascii a) - 48) =
            wrap32 (acc * 10 + (Z.of_N (N_of_ascii a) - 48))) as Hstep.
    { subst num. unfold wrap32.
      replace (acc mod 2 ^ 32 * 10 + Z.of_N (N_of_ascii a) - 48)
        with (acc mod 2 ^ 32 * 10 + (Z.of_N (N_of_ascii a) - 48)) by lia.
      rewrite Z.add_mod, Z.mul_mod_idemp_l, <- Z.add_mod by lia. reflexivity. }
    rewrite (IH _ v rest true _ Hv Hstep Hrest).
    destruct s; [|reflexivity]. cbn in Hv. injection Hv as <-.
    rewrite Hstep. reflexivity.
Qed.

Lemma option_bind_Some {A : Type} (m : option A) : m ≫= Some = m.
Proof. destruct m; reflexivity. Qed.

(** X11. A token made of decimal digits only gets the rows of the table its
    value selects, the value taken modulo [2^32] as the 32-bit [num] holds
    it, and never the time feature. *)
Theorem number_time_value_number (hour minute time day month year : ner_feature)
    (i v : Z) (c : frame) (word : ner_word) :
  word_at c i = Some word ->
  form word <> EmptyString ->
  decimal_value (form word) 0 = Some v ->
  number_time_value_token hour minute time day month year i c =
    number_rows hour minute day month year i (wrap32 v) c.
Proof.
  intros Hword Hne Hv. unfold number_time_value_token. rewrite Hword. cbn [mbind option_bind].
  rewrite <- (string_app_nil_r (form word)).
  rewrite (scan_digits_decimal (form word) 0 v EmptyString false 0 Hv);
    [|reflexivity|left; reflexivity].
  destruct (form word) as [|a s]; [congruence|].
  cbn [peek andb orb]. change (0 =? 0) with true. change (0 =? 46) with false.
  change (0 =? 58) with false. cbn [orb].
  rewrite Bool.andb_false_r. cbn [when]. unfold number_rows.
  match goal with |- ?m ≫= _ = _ => change (m ≫= Some = m) end.
  apply option_bind_Some.
Qed.

(** X12. A token made of decimal digits, a dot or a colon, and decimal
    digits again gets the time feature exactly when the first number is below
    24 and the second below 60 (both modulo [2^32]), and no other feature. *)
Theorem number_time_value_time (hour minute time day month year : ner_feature)
    (i v1 v2 : Z) (c : frame) (word : ner_word) (s1 s2 : string) (sep : ascii) :
  word_at c i = Some word ->
  form word = s1 +:+ String sep s2 ->
  s1 <> EmptyString -> decimal_value s1 0 = Some v1 ->
  sep = "."%char \/ sep = ":"%char ->
  s2 <> EmptyString -> decimal_value s2 0 = Some v2 ->
  number_time_value_token hour minute time day month year i c =
    when ((wrap32 v1 <? 24) && (wrap32 v2 <? 60)) (emit_in_window i time) c.
Proof.
  intros Hword Hform Hne1 Hv1 Hsep Hne2 Hv2.
  unfold number_time_value_token. rewrite Hword. cbn [mbind option_bind]. rewrite Hform.
  assert (peek (String sep s2) = 46 \/ peek (String sep s2) = 58) as Hpeek
    by (destruct Hsep as [->| ->]; [left|right]; reflexivity).
  rewrite (scan_digits_decimal s1 0 v1 (String sep s2) false 0 Hv1);
    [|reflexivity|unfold stops; lia].
  destruct s1 as [|a1 s1]; [congruence|].
  replace (peek (String sep s2) =? 0) with false by (symmetry; apply Z.eqb_neq; lia).
  replace ((peek (String sep s2) =? 46) || (peek (String sep s2) =? 58)) with true
    by (symmetry; apply Bool.orb_true_iff; rewrite !Z.eqb_eq; assumption).
  cbn [andb when mbind option_bind advance]. rewrite Bool.andb_true_r.
  rewrite <- (string_app_nil_r s2).
  rewrite (scan_digits_decimal s2 0 v2 EmptyString false 0 Hv2);
    [|reflexivity|left; reflexivity].
  destruct s2 as [|a2 s2]; [congruence|].
  cbn [peek andb]. change (0 =? 0) with true. cbn [andb].
  destruct (wrap32 v1 <? 24); reflexivity.
Qed.

(** X13. A token that does not start with a digit, or whose leading digits
    are followed by a character other than a digit, a dot or a colon, gets
    no feature at all. *)
Theorem number_time_value_other (hour minute time day month year : ner_feature)
    (i v : Z) (c : frame) (word : ner_word) (s rest : string) :
  word_at c i = Some word ->
  form word = s +:+ rest ->
  decimal_value s 0 = Some v ->
  stops rest ->
  s = EmptyString \/ (peek rest <> 0 /\ peek rest <> 46 /\ peek rest <> 58) ->
  number_time_value_token hour minute time day month year i c = Some c.
Proof.
  intros Hword Hform Hv Hrest Hcase.
  unfold number_time_value_token. rewrite Hword. cbn [mbind option_bind]. rewrite Hform.
  rewrite (scan_digits_decimal s 0 v rest false 0 Hv); [|reflexivity|assumption].
  destruct Hcase as [->|(H0 & H46 & H58)].
  - reflexivity.
  - replace (peek rest =? 0) with false by (symmetry; apply Z.eqb_neq; assumption).
    replace (peek rest =? 46) with false by (symmetry; apply Z.eqb_neq; assumption).
    replace (peek rest =? 58) with false by (symmetry; apply Z.eqb_neq; assumption).
    rewrite !Bool.andb_false_r. reflexivity.
Qed.

Lemma number_time_value_number_witness :
  number_time_value_token 3 8 13 18 23 28 0 (training_frame ["4294967303"]) =
    number_rows 3 8 18 23 28 0 (wrap32 4294967303) (training_frame ["4294967303"]).
Proof.
  apply (number_time_value_number 3 8 13 18 23 28 0 4294967303 _ (plain_word "4294967303")).
  - reflexivity.
  - discriminate.
  - reflexivity.
Defined.

Lemma number_time_value_time_witness :
  number_time_value_token 3 8 13 18 23 28 0 (training_frame ["12:45"]) =
    when ((wrap32 12 <? 24) && (wrap32 45 <? 60)) (emit_in_window 0 13)
      (training_frame ["12:45"]).
Proof.
  apply (number_time_value_time 3 8 13 18 23 28 0 12 45 _ (plain_word "12:45") "12" "45" ":").
  - reflexivity.
  - reflexivity.
  - discriminate.
  - reflexivity.
  - right. reflexivity.
  - discriminate.
  - reflexivity.
Defined.

Lemma number_time_value_other_witness :
  number_time_value_token 3 8 13 18 23 28 0 (training_frame ["12th"]) =
    Some (training_frame ["12th"]).
Proof.
  apply (number_time_value_other 3 8 13 18 23 28 0 12 _ (plain_word "12th") "12" "th").
  - reflexivity.
  - reflexivity.
  - reflexivity.
  - right. right. cbn. lia.
  - right. cbn. lia.
Defined.

(** ** Sentences that give a processor nothing to do *)

Lemma for_tokens_skip (body : Z -> frame -> option frame) (c : frame) :
  (forall i, 0 <= i < size (sentence c) -> body i c = Some c) ->
  for_tokens body c = Some c.
Proof.
  intros Hbody. unfold for_tokens.
  destruct (for_loop_indexed (fun _ c' => c' = c) body (Z.to_nat (size (sentence c))) 0 c)
    as (c' & E & ->); [|reflexivity|assumption].
  intros i c' Hi ->. exists c. split; [apply Hbody; lia|reflexivity].
Qed.

(** X14. BrownClusters and Gazetteers leave a sentence alone when no
    [raw_lemma] of its tokens is a key of [map], whatever clusters or
    gazetteers they hold: a form that is not found emits nothing and no
    state of the processor is read. *)
Theorem unknown_lemmas_untouched (clusters : list (list ner_feature))
    (gazetteers_info : list gazetteers.gazetteer_info) (c : frame) :
  frame_wf c ->
  (forall (i : Z) (word : ner_word),
     0 <= i < size (sentence c) -> word_at c i = Some word ->
     map c !! raw_lemma word = None) ->
  brown_clusters_process_sentence clusters c = Some c /\
  gazetteers_process_sentence gazetteers_info c = Some c.
Proof.
  intros W Hwords. split.
  - apply for_tokens_skip. intros i Hi. unfold brown_clusters_token.
    destruct (word_at_Some c i W Hi) as (word & Eword). rewrite Eword. cbn [mbind option_bind].
    pose proof (Hwords i word Hi Eword) as Hnone. unfold ner_feature in *.
    rewrite Hnone. reflexivity.
  - apply for_tokens_skip. intros i Hi. unfold gazetteers_token.
    destruct (word_at_Some c i W Hi) as (word & Eword). rewrite Eword. cbn [mbind option_bind].
    pose proof (Hwords i word Hi Eword) as Hnone. unfold ner_feature in *.
    rewrite Hnone. reflexivity.
Qed.

Lemma unknown_lemmas_untouched_witness :
  brown_clusters_process_sentence [[3; 8]] (training_frame ["river"; "side"]) =
    Some (training_frame ["river"; "side"]) /\
  gazetteers_process_sentence [gazetteers.make [3] true] (training_frame ["river"; "side"]) =
    Some (training_frame ["river"; "side"]).
Proof.
  apply unknown_lemmas_untouched.
  - apply training_frame_wf. cbn. lia.
  - intros i word Hi Hword. apply fin_maps.lookup_empty.
Defined.

(** In a sentence without tokens the emission macros reach no position. *)
Lemma apply_in_range_empty (s : ner_sentence) (I : Z) (f : ner_feature) (Left Right : Z) :
  size s = 0 ->
  - 2 ^ 31 <= I + Left < 2 ^ 31 -> - 2 ^ 31 <= I + Right < 2 ^ 31 - 1 ->
  apply_in_range I f Left Right s = Some s.
Proof.
  intros Hsize HL HR. unfold apply_in_range.
  destruct (f =? ner_feature_unknown); [reflexivity|].
  rewrite !in_int_true by lia. cbn [andb negb]. rewrite Hsize.
  change (to_int 0) with 0.
  replace (Z.to_nat _) with O; [reflexivity|].
  destruct (Z.ltb_spec (I + Left) 0), (Z.ltb_spec (I + Right + 1) 0); lia.
Qed.

Lemma apply_outer_words_in_window_empty (s : ner_sentence) (w : Z) (f : ner_feature) :
  size s = 0 -> 0 <= w -> 2 * w < 2 ^ 31 ->
  apply_outer_words_in_window w f s = Some s.
Proof.
  intros Hsize Hw Hint. rewrite apply_outer_words_in_window_eq.
  destruct (f =? ner_feature_unknown); [reflexivity|].
  destruct (for_loop_indexed (fun _ s' => s' = s)
              (fun _i s =>
                 s0 ← apply_in_window w (- _i) f s;
                 apply_in_window w (to_int (wrap32 (size s0 - 1 + _i))) f s0)
              (Z.to_nat w) 1 s) as (s' & E & ->); [|reflexivity|assumption].
  intros _i s' Hi ->. exists s. split; [|reflexivity].
  unfold apply_in_window. rewrite apply_in_range_empty by (try assumption; lia).
  cbn [mbind option_bind]. rewrite Hsize.
  replace (to_int (wrap32 (0 - 1 + _i))) with (_i - 1).
  - apply apply_in_range_empty; [assumption|lia|lia].
  - unfold wrap32. rewrite Z.mod_small by lia. rewrite to_int_small; lia.
Qed.

Lemma lookup_sentence (key : string) (c : frame) : sentence (lookup key c).2 = sentence c.
Proof.
  destruct (lookup_spec key c) as (f & c' & E & Hs & _). rewrite E. exact Hs.
Qed.

(** X15. On a sentence without tokens every processor returns and leaves
    the sentence as it is: no feature is emitted, also not by the border
    emissions of Form, Lemma, RawLemma and Tag, and no vector is read. *)
Theorem process_sentence_empty (utf8_decode : string -> Z * string)
    (unicode_category : Z -> Z) (unicode_Lut unicode_Ll : Z)
    (url_detector_detect : string -> url_type) (p : feature_processor) (c : frame) :
  frame_wf c -> size (sentence c) = 0 ->
  exists c',
    process_sentence utf8_decode unicode_category unicode_Lut unicode_Ll url_detector_detect p c
      = Some c' /\
    sentence c' = sentence c.
Proof.
  intros W Hsize.
  assert (forall body c1, sentence c1 = sentence c -> for_tokens body c1 = Some c1) as Hloop.
  { intros body c1 Hs. unfold for_tokens. rewrite Hs, Hsize. reflexivity. }
  assert (forall field, exists c',
            field_process_sentence field c = Some c' /\ sentence c' = sentence c) as Hfield.
  { intros field. unfold field_process_sentence. rewrite Hloop by reflexivity.
    cbn [mbind option_bind]. unfold on_sentence.
    rewrite apply_outer_words_in_window_empty;
      [|assumption|apply (fw_window _ W)|pose proof (fw_int _ W); lia].
    eexists. split; [reflexivity|]. reflexivity. }
  assert (forall field, exists c',
            capitalization_process_sentence utf8_decode unicode_category unicode_Lut
              unicode_Ll field c = Some c' /\ sentence c' = sentence c) as Hcap.
  { intros field. unfold capitalization_process_sentence.
    destruct (lookup "f" (with_buffer c "f")) as [f1 c1] eqn:E1.
    destruct (lookup "a" (with_buffer c1 "a")) as [f2 c2] eqn:E2.
    destruct (lookup "m" (with_buffer c2 "m")) as [f3 c3] eqn:E3.
    assert (sentence c3 = sentence c) as Hs.
    { pose proof (lookup_sentence "f" (with_buffer c "f")) as H1. rewrite E1 in H1.
      pose proof (lookup_sentence "a" (with_buffer c1 "a")) as H2. rewrite E2 in H2.
      pose proof (lookup_sentence "m" (with_buffer c2 "m")) as H3. rewrite E3 in H3.
      cbn in *. congruence. }
    exists c3. split; [apply Hloop; assumption|assumption]. }
  destruct p; cbn [process_sentence]; try (apply Hfield); try (apply Hcap);
    try (eexists; split; [apply Hloop; reflexivity|reflexivity]).
  - exists c. split; reflexivity.
  - unfold number_time_value_process_sentence.
    destruct (lookup "H" (with_buffer c "H")) as [f1 c1] eqn:E1.
    destruct (lookup "M" (with_buffer c1 "M")) as [f2 c2] eqn:E2.
    destruct (lookup "t" (with_buffer c2 "t")) as [f3 c3] eqn:E3.
    destruct (lookup "d" (with_buffer c3 "d")) as [f4 c4] eqn:E4.
    destruct (lookup "m" (with_buffer c4 "m")) as [f5 c5] eqn:E5.
    destruct (lookup "y" (with_buffer c5 "y")) as [f6 c6] eqn:E6.
    assert (sentence c6 = sentence c) as Hs.
    { pose proof (lookup_sentence "H" (with_buffer c "H")) as H1. rewrite E1 in H1.
      pose proof (lookup_sentence "M" (with_buffer c1 "M")) as H2. rewrite E2 in H2.
      pose proof (lookup_sentence "t" (with_buffer c2 "t")) as H3. rewrite E3 in H3.
      pose proof (lookup_sentence "d" (with_buffer c3 "d")) as H4. rewrite E4 in H4.
      pose proof (lookup_sentence "m" (with_buffer c4 "m")) as H5. rewrite E5 in H5.
      pose proof (lookup_sentence "y" (with_buffer c5 "y")) as H6. rewrite E6 in H6.
      cbn in *. congruence. }
    exists c6. split; [apply Hloop; assumption|assumption].
Qed.

Lemma process_sentence_empty_witness :
  exists c',
    process_sentence ascii_decode ascii_category ascii_Lut ascii_Ll detect_at_sign
      Form (training_frame []) = Some c' /\
    sentence c' = sentence (training_frame []).
Proof.
  apply process_sentence_empty.
  - apply training_frame_wf. cbn. lia.
  - reflexivity.
Defined.

(** ** What [process_sentence] never writes *)

(** Only [features], [probabilities] and the interning state can differ
    between [c] and [c']: the tokens, the predictions of the previous stage,
    the window and the number of feature vectors are the same;
    URLEmailDetector leaves [features] and the interning state alone, every
    other processor leaves [probabilities] alone; keys are only added to
    [map], and none is when there is no counter. *)
Definition untouched (p : feature_processor) (c c' : frame) : Prop :=
  window c' = window c /\
  size (sentence c') = size (sentence c) /\
  words (sentence c') = words (sentence c) /\
  previous_stage (sentence c') = previous_stage (sentence c) /\
  length (features (sentence c')) = length (features (sentence c)) /\
  match p with
  | URLEmailDetector _ _ =>
      features (sentence c') = features (sentence c) /\
      map c' = map c /\ total_features c' = total_features c /\
      length (probabilities (sentence c')) = length (probabilities (sentence c))
  | _ => probabilities (sentence c') = probabilities (sentence c)
  end /\
  map c ⊆ map c' /\
  (total_features c = None -> total_features c' = None /\ map c' = map c).

Lemma same_shape_untouched (p : feature_processor) (c c' : frame) :
  (forall url email, p <> URLEmailDetector url email) ->
  same_shape c c' -> untouched p c c'.
Proof.
  intros Hp []. unfold untouched. do 5 (split; [assumption|]).
  split; [|split; assumption].
  destruct p; try assumption. exfalso. eapply Hp. reflexivity.
Qed.

(** X16. Whatever the processor, [process_sentence] never changes the
    tokens, the previous-stage predictions, the window or the number of
    feature vectors; only URLEmailDetector writes [probabilities], and it
    writes neither [features] nor the interning state; keys are only ever
    added to [map], and without a counter [map] stays as it is. *)
Theorem process_sentence_untouched (utf8_decode : string -> Z * string)
    (unicode_category : Z -> Z) (unicode_Lut unicode_Ll : Z)
    (url_detector_detect : string -> url_type) (p : feature_processor) (c : frame) :
  (forall str chr rest,
     utf8_decode str = (chr, rest) -> chr <> 0 -> (String.length rest < String.length str)%nat) ->
  frame_wf c -> processor_wf p c ->
  exists c',
    process_sentence utf8_decode unicode_category unicode_Lut unicode_Ll url_detector_detect p c
      = Some c' /\
    untouched p c c'.
Proof.
  intros Hdec W X.
  assert (forall (centres : frame -> ner_feature -> Prop) (extra : frame -> Prop)
            (run : frame -> option frame),
            (forall url email, p <> URLEmailDetector url email) ->
            step_ok centres extra run c ->
            exists c', run c = Some c' /\ untouched p c c') as Hstep.
  { intros centres extra run Hp (c' & E & _ & _ & [Hs _]).
    exists c'. split; [assumption|]. apply same_shape_untouched; assumption. }
  destruct p; cbn [process_sentence processor_wf] in *.
  - eapply Hstep; [discriminate|]. apply brown_clusters_process_sentence_ok; assumption.
  - exists c. split; [reflexivity|]. apply same_shape_untouched; [discriminate|].
    apply same_shape_refl.
  - eapply Hstep; [discriminate|]. apply czech_lemma_term_process_sentence_ok; assumption.
  - eapply Hstep; [discriminate|]. apply (field_process_sentence_ok form); assumption.
  - eapply Hstep; [discriminate|]. apply capitalization_process_sentence_ok; assumption.
  - eapply Hstep; [discriminate|]. apply gazetteers_process_sentence_ok; assumption.
  - eapply Hstep; [discriminate|]. apply (field_process_sentence_ok lemma_id); assumption.
  - eapply Hstep; [discriminate|]. apply number_time_value_process_sentence_ok; assumption.
  - eapply Hstep; [discriminate|]. apply previous_stage_process_sentence_ok; assumption.
  - eapply Hstep; [discriminate|]. apply (field_process_sentence_ok raw_lemma); assumption.
  - eapply Hstep; [discriminate|]. apply capitalization_process_sentence_ok; assumption.
  - eapply Hstep; [discriminate|]. apply (field_process_sentence_ok tag); assumption.
  - destruct (url_email_detector_run url_detector_detect url email c W X) as (c' & E & R).
    exists c'. split; [assumption|]. unfold untouched.
    rewrite (ur_features _ _ _ _ _ _ R), (ur_map _ _ _ _ _ _ R),
      (ur_total_features _ _ _ _ _ _ R).
    split; [apply (ur_window _ _ _ _ _ _ R)|]. split; [apply (ur_size _ _ _ _ _ _ R)|].
    split; [apply (ur_words _ _ _ _ _ _ R)|].
    split; [apply (ur_previous_stage _ _ _ _ _ _ R)|]. split; [reflexivity|].
    split; [do 3 (split; [reflexivity|]); apply (ur_length _ _ _ _ _ _ R)|].
    split; [reflexivity|]. auto.
Qed.

Lemma process_sentence_untouched_witness :
  exists c',
    process_sentence ascii_decode ascii_category ascii_Lut ascii_Ll detect_at_sign
      (URLEmailDetector 7 8) (training_frame ["hello"; "x@y.z"]) = Some c' /\
    untouched (URLEmailDetector 7 8) (training_frame ["hello"; "x@y.z"]) c'.
Proof.
  apply (process_sentence_untouched ascii_decode ascii_category ascii_Lut ascii_Ll
           detect_at_sign (URLEmailDetector 7 8) (training_frame ["hello"; "x@y.z"])).
  - exact ascii_decode_progress.
  - apply training_frame_wf. cbn. lia.
  - repeat constructor.
Defined.

(** ** The files [brown_clusters::parse] accepts *)

(** The form of a line with exactly two fields. *)
Definition line_form (split : string -> ascii -> list string) (line : string) : option string :=
  match split line "009"%char with
  | [_; form] => Some form
  | _ => None
  end.

Lemma brown_add_line_form (split : string -> ascii -> list string) (w t0 : Z)
    (substrings : list Z) (line : string) (st st' : brown_state) :
  brown_add_line split w t0 substrings line st = Some st' ->
  exists form it,
    line_form split line = Some form /\ bs_map st !! form = None /\
    bs_map st' = <[form := it]> (bs_map st).
Proof.
  unfold brown_add_line, line_form.
  destruct (split line "009"%char) as [|cluster [|form [|? ?]]]; try discriminate.
  destruct (bs_cluster_map st !! cluster) as [id|].
  - destruct (bs_map st !! form) eqn:Ef; [discriminate|]. intros [= <-].
    exists form, id. auto.
  - destruct (fold_left _ substrings _) as [back pm].
    cbn [bs_map]. destruct (bs_map st !! form) eqn:Ef; [discriminate|]. intros [= <-].
    eexists form, _. auto.
Qed.

Lemma brown_lines_forms (split : string -> ascii -> list string) (w t0 : Z)
    (substrings : list Z) (lines : list string) :
  forall st st' : brown_state,
  for_each lines (brown_add_line split w t0 substrings) st = Some st' ->
  exists forms,
    mapM (line_form split) lines = Some forms /\
    NoDup forms /\
    Forall (fun form => bs_map st !! form = None) forms /\
    forall key, is_Some (bs_map st' !! key) <-> is_Some (bs_map st !! key) \/ key ∈ forms.
Proof.
  induction lines as [|line lines IH]; intros st st'; cbn [for_each].
  - intros [= <-]. exists []. split; [reflexivity|]. split; [constructor|].
    split; [constructor|]. intros key. rewrite elem_of_nil. tauto.
  - destruct (brown_add_line split w t0 substrings line st) as [st1|] eqn:E1; [|discriminate].
    intros E. destruct (brown_add_line_form _ _ _ _ _ _ _ E1) as (form & it & Hform & Hnew & Hmap).
    destruct (IH _ _ E) as (forms & Hforms & Hnd & Hfresh & Hdom).
    exists (form :: forms). split; [|split; [|split]].
    + cbn. rewrite Hform. cbn. rewrite Hforms. reflexivity.
    + constructor; [|assumption]. intros Hin.
      rewrite Forall_forall in Hfresh. specialize (Hfresh _ Hin).
      rewrite Hmap, lookup_insert_eq in Hfresh. discriminate.
    + constructor; [assumption|]. eapply Forall_impl; [exact Hfresh|].
      intros key Hkey. rewrite Hmap in Hkey.
      destruct (decide (key = form)) as [->|Hne].
      * rewrite lookup_insert_eq in Hkey. discriminate.
      * rewrite lookup_insert_ne in Hkey by congruence. assumption.
    + intros key. rewrite Hdom, Hmap, elem_of_cons.
      destruct (decide (key = form)) as [->|Hne].
      * rewrite lookup_insert_eq. split; [auto|]. intros _. left. eauto.
      * rewrite lookup_insert_ne by congruence. tauto.
Qed.

(** X17. [brown_clusters::parse] succeeds only on a file in which every
    line has exactly two tab-separated fields and no form occurs twice or is
    already a key of [map]; the keys of [map] afterwards are those it had
    and the forms of the file. *)
Theorem brown_clusters_parse_accepts (split : string -> ascii -> list string)
    (parse_int : string -> option Z) (base : parse_state) (window : Z) (args : list string)
    (file : option (list string)) (ps : parse_state) (clusters : list (list ner_feature)) :
  brown_clusters_parse split parse_int (Some base) window args file = Some (ps, clusters) ->
  exists lines forms,
    file = Some lines /\
    mapM (line_form split) lines = Some forms /\
    NoDup forms /\
    Forall (fun form => parsed_map base !! form = None) forms /\
    forall key, is_Some (parsed_map ps !! key) <->
                is_Some (parsed_map base !! key) \/ key ∈ forms.
Proof.
  unfold brown_clusters_parse. cbn [mbind option_bind].
  destruct args as [|path lengths]; [discriminate|].
  destruct file as [lines|]; [|discriminate]. cbn [mbind option_bind].
  destruct (prefix_lengths parse_int lengths [npos]) as [substrings|]; [|discriminate].
  cbn [mbind option_bind].
  destruct (for_each lines _ _) as [st|] eqn:E; [|discriminate].
  cbn [mbind option_bind]. intros [= <- <-].
  destruct (brown_lines_forms _ _ _ _ _ _ _ E) as (forms & Hforms & Hnd & Hfresh & Hdom).
  exists lines, forms. cbn in *. auto.
Qed.

Lemma brown_clusters_parse_accepts_witness :
  exists lines forms,
    Some [bank_line] = Some lines /\
    mapM (line_form split_on) lines = Some forms /\
    NoDup forms /\
    Forall (fun form => parsed_map bank_base !! form = None) forms /\
    forall key, is_Some (parsed_map bank_parsed !! key) <->
                is_Some (parsed_map bank_base !! key) \/ key ∈ forms.
Proof.
  apply (brown_clusters_parse_accepts split_on parse_decimal bank_base 2
           ["clusters.txt"; "4"; "6"] (Some [bank_line]) bank_parsed [[3; 8]]).
  vm_compute. reflexivity.
Defined.

(** ** The border emissions of Form, Lemma, RawLemma and Tag *)

(** What round [_i] of [apply_outer_words_in_window] appends at position
    [p]: the virtual word [_i] places before the sentence reaches the
    positions up to [w - _i], the one [_i] places behind it reaches the
    positions from [size - 1 + _i - w] on. *)
Definition outer_round (w size : Z) (f : ner_feature) (p _i : Z) : list ner_feature :=
  (if decide (p <= size - 1 /\ p + _i <= w) then [wrap32 (f + (p + _i))] else []) ++
  (if decide (size - 1 + _i - w <= p <= size - 1)
   then [wrap32 (f + (p - (size - 1 + _i)))] else []).

(** What the rounds [1 .. n] append at position [p]. *)
Definition outer_ids (w size : Z) (f : ner_feature) (p : Z) (n : nat) : list ner_feature :=
  concat (outer_round w size f p <$> seqZ 1 (Z.of_nat n)).

Lemma outer_ids_S (w size : Z) (f : ner_feature) (p : Z) (n : nat) :
  outer_ids w size f p (S n) =
  outer_ids w size f p n ++ outer_round w size f p (1 + Z.of_nat n).
Proof.
  unfold outer_ids. rewrite seqZ_S, fmap_app, concat_app. cbn. rewrite app_nil_r. reflexivity.
Qed.

(** Positions further than [w] from both ends get nothing. *)
Lemma outer_ids_interior (w size : Z) (f : ner_feature) (p : Z) (n : nat) :
  w <= p <= size - 1 - w -> outer_ids w size f p n = [].
Proof.
  intros Hp. induction n as [|n IH]; [reflexivity|].
  rewrite outer_ids_S, IH. unfold outer_round. repeat case_decide; try reflexivity; lia.
Qed.

(** Every border id is the feature moved by an offset that is not zero. *)
Lemma outer_ids_offset (w size : Z) (f : ner_feature) (p : Z) (n : nat) :
  0 <= p -> Z.of_nat n <= w ->
  Forall (fun x => exists d, (1 <= d <= w \/ - w <= d <= - 1) /\ x = wrap32 (f + d))
    (outer_ids w size f p n).
Proof.
  intros Hp Hn. induction n as [|n IH]; [constructor|].
  rewrite outer_ids_S. apply Forall_app. split; [apply IH; lia|].
  unfold outer_round. apply Forall_app. split.
  - case_decide as Hd; [|constructor]. repeat constructor.
    exists (p + (1 + Z.of_nat n)). split; [|reflexivity]. lia.
  - case_decide as Hd; [|constructor]. repeat constructor.
    exists (p - (size - 1 + (1 + Z.of_nat n))). split; [|reflexivity]. lia.
Qed.

Lemma apply_outer_words_in_window_spec (s : ner_sentence) (w : Z) (f : ner_feature) :
  sentence_wf s -> 0 <= w -> size s + 2 * w < 2 ^ 31 -> f <> ner_feature_unknown ->
  exists s', apply_outer_words_in_window w f s = Some s' /\
    size s' = size s /\ words s' = words s /\
    probabilities s' = probabilities s /\ previous_stage s' = previous_stage s /\
    length (features s') = length (features s) /\
    forall p : nat,
      features s' !! p =
        (fun F => F ++ outer_ids w (size s) f (Z.of_nat p) (Z.to_nat w)) <$> features s !! p.
Proof.
  intros Hwf Hw Hint Hf. rewrite apply_outer_words_in_window_eq.
  destruct (Z.eqb_spec f ner_feature_unknown) as [|_]; [contradiction|].
  pose proof (wf_size _ Hwf) as Hsz.
  destruct (for_loop_indexed
              (fun k s' =>
                 sentence_wf s' /\
                 size s' = size s /\ words s' = words s /\
                 probabilities s' = probabilities s /\ previous_stage s' = previous_stage s /\
                 length (features s') = length (features s) /\
                 forall p : nat,
                   features s' !! p =
                     (fun F => F ++ outer_ids w (size s) f (Z.of_nat p) (Z.to_nat (k - 1)))
                       <$> features s !! p)
              (fun _i s =>
                 s0 ← apply_in_window w (- _i) f s;
                 apply_in_window w (to_int (wrap32 (size s0 - 1 + _i))) f s0)
              (Z.to_nat w) 1 s) as (s' & E & _ & H1 & H2 & H3 & H4 & H5 & H6).
  - intros _i s1 Hi (W1 & S1 & Wd1 & P1 & Q1 & L1 & F1). unfold apply_in_window.
    destruct (apply_in_range_total s1 (- _i) f (- w) w W1) as (s2 & -> & S2 & Wd2 & P2 & Q2 & L2 & F2);
      [lia|lia|].
    cbn [mbind option_bind].
    assert (sentence_wf s2) as W2 by (destruct W1; constructor; congruence).
    assert (to_int (wrap32 (size s2 - 1 + _i)) = size s - 1 + _i) as ->.
    { rewrite S2, S1. unfold wrap32. rewrite Z.mod_small by lia. apply to_int_small. lia. }
    destruct (apply_in_range_total s2 (size s - 1 + _i) f (- w) w W2)
      as (s3 & -> & S3 & Wd3 & P3 & Q3 & L3 & F3); [lia|lia|].
    exists s3. split; [reflexivity|].
    split; [destruct W2; constructor; congruence|].
    do 5 (split; [congruence|]).
    intros p. rewrite F3, F2, F1. destruct (features s !! p) as [F|]; [|reflexivity].
    cbn [fmap option_fmap option_map]. f_equal.
    replace (Z.to_nat (_i + 1 - 1)) with (S (Z.to_nat (_i - 1))) by lia.
    rewrite outer_ids_S. replace (1 + Z.of_nat (Z.to_nat (_i - 1))) with _i by lia.
    unfold emitted, in_range, outer_round.
    repeat case_decide;
      rewrite <- ?app_assoc; cbn [app]; rewrite ?app_nil_r;
      first [reflexivity | exfalso; intuition lia | repeat f_equal; lia].
  - split; [assumption|]. do 5 (split; [reflexivity|]). intros p.
    destruct (features s !! p); [|reflexivity]. cbn. rewrite app_nil_r. reflexivity.
  - exists s'. split; [assumption|]. do 5 (split; [assumption|]).
    intros p. rewrite H6. replace (Z.to_nat (1 + Z.of_nat (Z.to_nat w) - 1)) with (Z.to_nat w) by lia.
    reflexivity.
Qed.

(** X18. For every well-formed sentence and window within the [int]
    arithmetic of the macro, [apply_outer_words_in_window] returns and
    changes only [features]: position [p] gains, for [_i = 1 .. w] in turn,
    [f + (p + _i)] when [p + _i <= w] (the virtual word [_i] places before
    the sentence) and [f + (p - (size - 1 + _i))] when
    [size - 1 + _i - w <= p] (the one [_i] places behind it), and nothing for
    an unknown [f].  So the feature itself is never emitted, only [f + d]
    with [d] in [[1, w]] or [[-w, -1]], and a position at least [w] away
    from both ends gains nothing. *)
Theorem apply_outer_words_in_window_emits (s : ner_sentence) (w : Z) (f : ner_feature) :
  sentence_wf s -> 0 <= w -> size s + 2 * w < 2 ^ 31 ->
  exists s', apply_outer_words_in_window w f s = Some s' /\
    size s' = size s /\ words s' = words s /\
    probabilities s' = probabilities s /\ previous_stage s' = previous_stage s /\
    length (features s') = length (features s) /\
    forall (p : nat) (F : list ner_feature),
      features s !! p = Some F ->
      exists added,
        features s' !! p = Some (F ++ added) /\
        added = (if decide (f = ner_feature_unknown) then []
                 else outer_ids w (size s) f (Z.of_nat p) (Z.to_nat w)) /\
        (w <= Z.of_nat p <= size s - 1 - w -> added = []) /\
        Forall (fun x => exists d, (1 <= d <= w \/ - w <= d <= - 1) /\ x = wrap32 (f + d))
          added.
Proof.
  intros Hwf Hw Hint. destruct (decide (f = ner_feature_unknown)) as [->|Hf].
  - exists s. split; [reflexivity|]. do 5 (split; [reflexivity|]).
    intros p F HF. exists []. rewrite app_nil_r. auto.
  - destruct (apply_outer_words_in_window_spec s w f Hwf Hw Hint Hf)
      as (s' & E & H1 & H2 & H3 & H4 & H5 & H6).
    exists s'. split; [assumption|]. do 5 (split; [assumption|]).
    intros p F HF. eexists. split; [rewrite H6, HF; reflexivity|].
    split; [reflexivity|]. split.
    + apply outer_ids_interior.
    + apply outer_ids_offset; lia.
Qed.

Lemma apply_outer_words_in_window_emits_witness :
  exists s', apply_outer_words_in_window 2 10 (plain_sentence ["a"; "b"; "c"; "d"; "e"]) =
             Some s' /\
    size s' = 5 /\ words s' = words (plain_sentence ["a"; "b"; "c"; "d"; "e"]) /\
    probabilities s' = probabilities (plain_sentence ["a"; "b"; "c"; "d"; "e"]) /\
    previous_stage s' = previous_stage (plain_sentence ["a"; "b"; "c"; "d"; "e"]) /\
    length (features s') = 5%nat /\
    forall (p : nat) (F : list ner_feature),
      features (plain_sentence ["a"; "b"; "c"; "d"; "e"]) !! p = Some F ->
      exists added,
        features s' !! p = Some (F ++ added) /\
        added = (if decide (10 = ner_feature_unknown) then []
                 else outer_ids 2 5 10 (Z.of_nat p) (Z.to_nat 2)) /\
        (2 <= Z.of_nat p <= 5 - 1 - 2 -> added = []) /\
        Forall (fun x => exists d, (1 <= d <= 2 \/ - 2 <= d <= - 1) /\ x = wrap32 (10 + d))
          added.
Proof.
  apply (apply_outer_words_in_window_emits (plain_sentence ["a"; "b"; "c"; "d"; "e"]) 2 10).
  - apply plain_sentence_wf. cbn. lia.
  - lia.
  - cbn. lia.
Defined.

(** ** The roles Gazetteers uses *)

Fixpoint count_spaces (s : string) : Z :=
  match s with
  | EmptyString => 0
  | String a s => (if Ascii.eqb a " " then 1 else 0) + count_spaces s
  end.

(** The role [role] is one of those reserved for a phrase of as many tokens
    as [key] has. *)
Definition role_reserved (key : string) (role : Z) : Prop :=
  0 <= role < slots (count_spaces key + 1).

(** The centres of the bands Gazetteers emits in: a feature stored for a
    phrase, moved to a role reserved for a phrase of its length. *)
Definition role_centre (gazetteers_info : list gazetteers.gazetteer_info) (c : frame)
    (f : ner_feature) : Prop :=
  exists key it info feature role,
    key <> EmptyString /\ map c !! key = Some it /\
    gazetteers_info !! Z.to_nat it = Some info /\ feature ∈ gazetteers.features info /\
    role_reserved key role /\
    f = wrap32 (feature + role * (2 * window c + 1)).

(** What Gazetteers needs of the frame: the phrases index their records,
    the role offsets fit an [int], and no token has an empty [raw_lemma]. *)
Record gz_ready (gazetteers_info : list gazetteers.gazetteer_info) (c : frame) : Prop := {
  gr_indexed : forall key it, key <> EmptyString -> map c !! key = Some it ->
    0 <= it < Z.of_nat (length gazetteers_info);
  gr_int : gazetteers.I * (2 * window c + 1) < 2 ^ 31;
  gr_words : forall i word, word_at c i = Some word -> raw_lemma word <> EmptyString }.

(** A step that emits around centres and leaves everything else alone. *)
Definition quiet (centres : frame -> ner_feature -> Prop) (c c' : frame) : Prop :=
  frame_wf c' /\ grows centres c c' /\
  map c' = map c /\ total_features c' = total_features c /\ buffer c' = buffer c.

Lemma count_spaces_nonneg (s : string) : 0 <= count_spaces s.
Proof. induction s as [|a s IH]; cbn [count_spaces]; [lia|]. destruct (Ascii.eqb a " "); lia. Qed.

Lemma count_spaces_app (s1 s2 : string) :
  count_spaces (s1 +:+ s2) = count_spaces s1 + count_spaces s2.
Proof.
  induction s1 as [|a s1 IH]; [reflexivity|].
  rewrite string_app_cons. cbn [count_spaces]. rewrite IH. lia.
Qed.

Lemma count_spaces_push_back (s : string) : count_spaces (push_back s " ") = count_spaces s + 1.
Proof. unfold push_back. rewrite count_spaces_app. reflexivity. Qed.

Lemma slots_mono (k k' : Z) : 1 <= k <= k' -> slots k <= slots k'.
Proof.
  intros H. unfold slots, gazetteers.U, gazetteers.L, gazetteers.I.
  repeat match goal with |- context [?a =? ?b] => destruct (Z.eqb_spec a b) end; lia.
Qed.

Lemma slots_range (k : Z) : 0 <= slots k <= 5.
Proof.
  unfold slots, gazetteers.U, gazetteers.L, gazetteers.I.
  repeat match goal with |- context [?a =? ?b] => destruct (Z.eqb_spec a b) end; lia.
Qed.

(** The roles of a match over [n] tokens are reserved for every phrase of
    at least [n] tokens. *)
Lemma span_role_reserved (key : string) (i j g : Z) :
  i <= g <= j -> i < j -> j - i <= count_spaces key ->
  role_reserved key gazetteers.G /\
  role_reserved key
    (if g =? i then gazetteers.B else if g =? j then gazetteers.L else gazetteers.I).
Proof.
  intros Hg Hij Hkey. unfold role_reserved.
  pose proof (slots_mono 2 (count_spaces key + 1)) as H2.
  change (slots 2) with 4 in H2.
  unfold gazetteers.G, gazetteers.B, gazetteers.L, gazetteers.I.
  destruct (Z.eqb_spec g i); [lia|]. destruct (Z.eqb_spec g j); [lia|].
  pose proof (slots_mono 3 (count_spaces key + 1)) as H3.
  change (slots 3) with 5 in H3. lia.
Qed.

Lemma unigram_role_reserved (key : string) :
  role_reserved key gazetteers.G /\ role_reserved key gazetteers.U.
Proof.
  unfold role_reserved. pose proof (count_spaces_nonneg key).
  pose proof (slots_mono 1 (count_spaces key + 1)) as H1.
  change (slots 1) with 2 in H1. unfold gazetteers.G, gazetteers.U. lia.
Qed.

Section gazetteers_roles.
Variable gazetteers_info : list gazetteers.gazetteer_info.

Lemma role_centre_mono (c c' : frame) (f : ner_feature) :
  same_shape c c' -> role_centre gazetteers_info c f -> role_centre gazetteers_info c' f.
Proof.
  intros Hs (key & it & info & feature & role & Hne & Hk & Hi & Hf & Hr & ->).
  exists key, it, info, feature, role. rewrite (ss_window _ _ Hs).
  do 5 (split; [first [assumption | eapply lookup_weaken; [eassumption|apply (ss_map _ _ Hs)]]|]).
  reflexivity.
Qed.

Lemma quiet_refl (c : frame) : frame_wf c -> quiet (role_centre gazetteers_info) c c.
Proof. intros W. split; [assumption|]. split; [apply grows_refl|]. auto. Qed.

Lemma quiet_trans (a b c : frame) :
  quiet (role_centre gazetteers_info) a b -> quiet (role_centre gazetteers_info) b c ->
  quiet (role_centre gazetteers_info) a c.
Proof.
  intros (_ & G1 & M1 & T1 & B1) (W2 & G2 & M2 & T2 & B2).
  split; [assumption|]. split; [|split; [congruence|split; congruence]].
  exact (grows_trans _ role_centre_mono _ _ _ G1 G2).
Qed.

Lemma gz_ready_quiet (c c' : frame) :
  quiet (role_centre gazetteers_info) c c' -> gz_ready gazetteers_info c ->
  gz_ready gazetteers_info c'.
Proof.
  intros (_ & [Hs _] & Hm & _ & _) [X1 X2 X3]. constructor.
  - intros key it. rewrite Hm. apply X1.
  - rewrite (ss_window _ _ Hs). assumption.
  - intros i word. unfold word_at. rewrite (ss_words _ _ Hs). apply X3.
Qed.

Lemma emit_role_quiet (key : string) (it : ner_feature) (info : gazetteers.gazetteer_info)
    (feature : ner_feature) (role g : Z) (c : frame) :
  key <> EmptyString -> map c !! key = Some it ->
  gazetteers_info !! Z.to_nat it = Some info -> feature ∈ gazetteers.features info ->
  role_reserved key role ->
  frame_wf c -> gz_ready gazetteers_info c -> 0 <= g < size (sentence c) ->
  exists c', emit_role g feature role c = Some c' /\ quiet (role_centre gazetteers_info) c c'.
Proof.
  intros Hne Hk Hi Hf Hr W X Hg. unfold emit_role, role_feature.
  pose proof (fw_window _ W) as Hw. pose proof (gr_int _ _ X) as Hint.
  pose proof (slots_range (count_spaces key + 1)) as Hs. unfold role_reserved in Hr.
  unfold gazetteers.I in Hint.
  rewrite !in_int_true by nia. cbn [andb mbind option_bind].
  destruct (emit_in_window_grows (role_centre gazetteers_info) role_centre_mono c g
              (wrap32 (feature + role * (2 * window c + 1))) W Hg)
    as (c' & E & W' & G & Hm & Ht & Hb).
  { intros _. exists key, it, info, feature, role. auto 10. }
  exists c'. split; [assumption|]. split; [assumption|]. auto.
Qed.

(** The same entry is found in a frame reached by quiet steps. *)
Lemma quiet_lookup (c c' : frame) (key : string) (it : ner_feature) :
  quiet (role_centre gazetteers_info) c c' -> map c !! key = Some it -> map c' !! key = Some it.
Proof. intros (_ & _ & Hm & _) H. rewrite Hm. assumption. Qed.

Lemma quiet_size (c c' : frame) :
  quiet (role_centre gazetteers_info) c c' -> size (sentence c') = size (sentence c).
Proof. intros (_ & [Hs _] & _). apply (ss_size _ _ Hs). Qed.

(** All features of the entry of [key] emitted with two roles at [g], or
    over the span [[i, j]]. *)
Lemma features_quiet (key : string) (it : ner_feature) (info : gazetteers.gazetteer_info)
    (body : ner_feature -> frame -> option frame) (c : frame) :
  map c !! key = Some it ->
  frame_wf c -> gz_ready gazetteers_info c ->
  (forall feature c1,
     feature ∈ gazetteers.features info -> quiet (role_centre gazetteers_info) c c1 ->
     exists c2, body feature c1 = Some c2 /\ quiet (role_centre gazetteers_info) c1 c2) ->
  exists c', for_each (gazetteers.features info) body c = Some c' /\
    quiet (role_centre gazetteers_info) c c'.
Proof.
  intros Hk W X Hbody.
  destruct (for_each_rule (fun c1 => quiet (role_centre gazetteers_info) c c1)
              (fun _ _ => True) body (gazetteers.features info)
              (fun _ => I) (fun _ _ _ _ _ => I) c) as (c' & E & Q & _).
  - intros feature c1 Hin Q1. destruct (Hbody feature c1 Hin Q1) as (c2 & E2 & Q2).
    exists c2. split; [assumption|]. split; [|exact I]. eapply quiet_trans; eassumption.
  - apply quiet_refl. assumption.
  - exists c'. auto.
Qed.

Lemma gazetteers_span_quiet (key : string) (it : ner_feature)
    (info : gazetteers.gazetteer_info) (feature : ner_feature) (i j : Z) (c : frame) :
  key <> EmptyString -> map c !! key = Some it ->
  gazetteers_info !! Z.to_nat it = Some info -> feature ∈ gazetteers.features info ->
  0 <= i -> i < j < size (sentence c) -> j - i <= count_spaces key ->
  frame_wf c -> gz_ready gazetteers_info c ->
  exists c', for_loop (Z.to_nat (j - i + 1)) i (gazetteers_span i j feature) c = Some c' /\
    quiet (role_centre gazetteers_info) c c'.
Proof.
  intros Hne Hk Hi Hf Hi0 Hj Hkey W X.
  destruct (for_loop_rule (fun c1 => quiet (role_centre gazetteers_info) c c1)
              (fun _ _ => True) (gazetteers_span i j feature) (Z.to_nat (j - i + 1))
              (fun _ => I) (fun _ _ _ _ _ => I) i c) as (c' & E & Q & _).
  - intros g c1 Hg Q1. unfold gazetteers_span.
    destruct (span_role_reserved key i j g) as [HG HR]; [lia|lia|assumption|].
    pose proof (proj1 Q1) as W1. pose proof (gz_ready_quiet _ _ Q1 X) as X1.
    destruct (emit_role_quiet key it info feature gazetteers.G g c1) as (c2 & -> & Q2);
      try assumption.
    { eapply quiet_lookup; eassumption. }
    { rewrite (quiet_size _ _ Q1). lia. }
    cbn [mbind option_bind].
    pose proof (proj1 Q2) as W2. pose proof (gz_ready_quiet _ _ Q2 X1) as X2.
    destruct (emit_role_quiet key it info feature
                (if g =? i then gazetteers.B else if g =? j then gazetteers.L else gazetteers.I)
                g c2) as (c3 & -> & Q3); try assumption.
    { eapply quiet_lookup; [eassumption|]. eapply quiet_lookup; eassumption. }
    { rewrite (quiet_size _ _ Q2), (quiet_size _ _ Q1). lia. }
    exists c3. split; [reflexivity|]. split; [|exact I].
    eapply quiet_trans; [eassumption|]. eapply quiet_trans; eassumption.
  - apply quiet_refl. assumption.
  - exists c'. auto.
Qed.
(** A step that may also overwrite [buffer]. *)
Definition calm (c c' : frame) : Prop :=
  frame_wf c' /\ grows (role_centre gazetteers_info) c c' /\
  map c' = map c /\ total_features c' = total_features c.

Lemma quiet_calm (c c' : frame) : quiet (role_centre gazetteers_info) c c' -> calm c c'.
Proof. intros (W & G & M & T & _). split; auto. Qed.

Lemma calm_refl (c : frame) : frame_wf c -> calm c c.
Proof. intros W. split; [assumption|]. split; [apply grows_refl|]. auto. Qed.

Lemma calm_trans (a b c : frame) : calm a b -> calm b c -> calm a c.
Proof.
  intros (_ & G1 & M1 & T1) (W2 & G2 & M2 & T2).
  split; [assumption|]. split; [|split; congruence].
  exact (grows_trans _ role_centre_mono _ _ _ G1 G2).
Qed.

Lemma gz_ready_calm (c c' : frame) :
  calm c c' -> gz_ready gazetteers_info c -> gz_ready gazetteers_info c'.
Proof.
  intros (_ & [Hs _] & Hm & _) [X1 X2 X3]. constructor.
  - intros key it. rewrite Hm. apply X1.
  - rewrite (ss_window _ _ Hs). assumption.
  - intros i word. unfold word_at. rewrite (ss_words _ _ Hs). apply X3.
Qed.

Lemma info_at_ready (c : frame) (key : string) (it : ner_feature) :
  gz_ready gazetteers_info c -> key <> EmptyString -> map c !! key = Some it ->
  exists info, info_at gazetteers_info it = Some info /\
    gazetteers_info !! Z.to_nat it = Some info.
Proof.
  intros X Hne Hk. destruct (gr_indexed _ _ X key it Hne Hk) as [Hlo Hhi]. unfold info_at.
  destruct (Z.ltb_spec it 0); [lia|].
  destruct (lookup_lt_is_Some_2 gazetteers_info (Z.to_nat it)) as [info E]; [lia|].
  exists info. auto.
Qed.

(** A frame that differs from [c] in [buffer] only. *)
Lemma calm_buffer (c c1 : frame) :
  frame_wf c -> sentence c1 = sentence c -> window c1 = window c -> map c1 = map c ->
  total_features c1 = total_features c -> calm c c1.
Proof.
  intros W Hs Hw Hm Ht.
  assert (same_shape c c1) as S by (apply buffer_only_same_shape; assumption).
  split; [eapply frame_wf_same_shape; eassumption|].
  split; [apply grows_same_sentence; assumption|]. auto.
Qed.

Lemma gazetteers_extend_calm (i : Z) (fuel : nat) :
  forall (j : Z) (it : ner_feature) (key : string) (c : frame),
  0 <= i < j -> Z.max 0 (size (sentence c) - j) < Z.of_nat fuel ->
  key <> EmptyString -> map c !! key = Some it ->
  j = i + 1 \/ j - i - 1 <= count_spaces (buffer c) ->
  frame_wf c -> gz_ready gazetteers_info c ->
  exists c', gazetteers_extend fuel gazetteers_info i j it c = Some c' /\ calm c c'.
Proof.
  induction fuel as [|fuel IH]; intros j it key c Hij Hfuel Hne Hit Hbuf W X.
  { exfalso. lia. }
  cbn [gazetteers_extend].
  destruct (info_at_ready c key it X Hne Hit) as (info & -> & _). cbn [mbind option_bind].
  destruct (gazetteers.prefix_of_longer info && (j <? size (sentence c))) eqn:Econd.
  2:{ exists c. split; [reflexivity|]. apply calm_refl. assumption. }
  apply andb_prop in Econd as [_ Hj]. apply Z.ltb_lt in Hj.
  destruct (word_at_Some c i W) as (wi & ->); [lia|].
  destruct (word_at_Some c j W) as (wj & ->); [lia|].
  cbn [mbind option_bind].
  set (c0 := if j =? i + 1 then with_buffer c (raw_lemma wi) else c).
  set (c1 := with_buffer (with_buffer c0 (push_back (buffer c0) " "))
               (String.append (buffer (with_buffer c0 (push_back (buffer c0) " ")))
                  (raw_lemma wj))).
  assert (sentence c1 = sentence c /\ window c1 = window c /\ map c1 = map c /\
          total_features c1 = total_features c) as (Hs1 & Hw1 & Hm1 & Ht1)
    by (subst c1 c0; destruct (j =? i + 1); auto).
  assert (j - i <= count_spaces (buffer c1)) as Hsp.
  { subst c1. cbn [buffer with_buffer]. rewrite count_spaces_app, count_spaces_push_back.
    pose proof (count_spaces_nonneg (raw_lemma wj)).
    pose proof (count_spaces_nonneg (buffer c0)).
    subst c0. destruct (Z.eqb_spec j (i + 1)); [lia|]. destruct Hbuf; [lia|]. lia. }
  assert (buffer c1 <> EmptyString) as Hne1.
  { intros E. rewrite E in Hsp. cbn [count_spaces] in Hsp. lia. }
  pose proof (calm_buffer c c1 W Hs1 Hw1 Hm1 Ht1) as C1.
  pose proof (proj1 C1) as W1. pose proof (gz_ready_calm _ _ C1 X) as X1.
  clearbody c1. clear c0.
  destruct (map c1 !! buffer c1) as [it'|] eqn:Eit'.
  2:{ exists c1. auto. }
  destruct (info_at_ready c1 _ it' X1 Hne1 Eit') as (info' & -> & Hinfo').
  cbn [mbind option_bind].
  destruct (features_quiet (buffer c1) it' info'
              (fun feature c =>
                 for_loop (Z.to_nat (j - i + 1)) i (gazetteers_span i j feature) c) c1)
    as (c2 & -> & Q2); try assumption.
  { intros feature c' Hin Q'.
    apply (gazetteers_span_quiet (buffer c1) it' info'); try assumption; try lia.
    - eapply quiet_lookup; eassumption.
    - rewrite (quiet_size _ _ Q'), Hs1. lia.
    - apply Q'.
    - eapply gz_ready_quiet; eassumption. }
  cbn [mbind option_bind].
  destruct Q2 as (W2 & G2 & M2 & T2 & B2).
  destruct (IH (j + 1) it' (buffer c1) c2) as (c3 & E3 & C3); try assumption; try lia.
  - rewrite (ss_size _ _ (proj1 G2)), Hs1. lia.
  - rewrite M2. assumption.
  - right. rewrite B2. lia.
  - eapply gz_ready_calm; [|exact X1]. split; auto.
  - exists c3. split; [assumption|].
    eapply calm_trans; [exact C1|]. eapply calm_trans; [|exact C3]. split; auto.
Qed.

Lemma gazetteers_token_calm (i : Z) (c : frame) :
  0 <= i < size (sentence c) -> frame_wf c -> gz_ready gazetteers_info c ->
  exists c', gazetteers_token gazetteers_info i c = Some c' /\ calm c c'.
Proof.
  intros Hi W X. unfold gazetteers_token.
  destruct (word_at_Some c i W Hi) as (word & Eword). rewrite Eword. cbn [mbind option_bind].
  pose proof (gr_words _ _ X i word Eword) as Hne.
  destruct (map c !! raw_lemma word) as [it|] eqn:Eit.
  2:{ exists c. split; [reflexivity|]. apply calm_refl. assumption. }
  destruct (info_at_ready c _ it X Hne Eit) as (info & -> & Hinfo). cbn [mbind option_bind].
  destruct (unigram_role_reserved (raw_lemma word)) as [HG HU].
  destruct (features_quiet (raw_lemma word) it info
              (fun feature c =>
                 c ← emit_role i feature gazetteers.G c;
                 emit_role i feature gazetteers.U c) c)
    as (c2 & -> & Q2); try assumption.
  { intros feature c1 Hin Q1.
    pose proof (proj1 Q1) as W1. pose proof (gz_ready_quiet _ _ Q1 X) as X1.
    destruct (emit_role_quiet (raw_lemma word) it info feature gazetteers.G i c1)
      as (c2 & -> & Q2); try assumption.
    { eapply quiet_lookup; eassumption. }
    { rewrite (quiet_size _ _ Q1). lia. }
    cbn [mbind option_bind].
    pose proof (proj1 Q2) as W2. pose proof (gz_ready_quiet _ _ Q2 X1) as X2.
    destruct (emit_role_quiet (raw_lemma word) it info feature gazetteers.U i c2)
      as (c3 & -> & Q3); try assumption.
    { eapply quiet_lookup; [eassumption|]. eapply quiet_lookup; eassumption. }
    { rewrite (quiet_size _ _ Q2), (quiet_size _ _ Q1). lia. }
    exists c3. split; [reflexivity|]. eapply quiet_trans; eassumption. }
  cbn [mbind option_bind].
  assert (map c2 !! raw_lemma word = Some it) as Hit2 by (eapply quiet_lookup; eassumption).
  pose proof (proj1 Q2) as W2. pose proof (gz_ready_quiet _ _ Q2 X) as X2.
  destruct (gazetteers_extend_calm i (S (Z.to_nat (size (sentence c2) - (i + 1))))
              (i + 1) it (raw_lemma word) c2) as (c3 & E3 & C3);
    [lia|lia|assumption|assumption|left; reflexivity|assumption|assumption|].
  exists c3. split; [assumption|]. eapply calm_trans; [|exact C3]. apply quiet_calm. assumption.
Qed.

(** The whole run: Gazetteers returns and emits only in reserved roles. *)
Lemma gazetteers_process_sentence_calm (c : frame) :
  frame_wf c -> gz_ready gazetteers_info c ->
  exists c', gazetteers_process_sentence gazetteers_info c = Some c' /\ calm c c'.
Proof.
  intros W X. unfold gazetteers_process_sentence, for_tokens.
  pose proof (wf_size _ (fw_sentence _ W)) as Hsz.
  destruct (for_loop_rule (fun c1 => calm c c1) (fun _ _ => True)
              (gazetteers_token gazetteers_info) (Z.to_nat (size (sentence c)))
              (fun _ => I) (fun _ _ _ _ _ => I) 0 c) as (c' & E & C & _).
  - intros i c1 Hi C1.
    destruct (gazetteers_token_calm i c1) as (c2 & E2 & C2).
    + destruct C1 as (_ & [Hs _] & _). rewrite (ss_size _ _ Hs). lia.
    + apply C1.
    + eapply gz_ready_calm; eassumption.
    + exists c2. split; [assumption|]. split; [|exact I]. eapply calm_trans; eassumption.
  - apply calm_refl. assumption.
  - exists c'. auto.
Qed.
End gazetteers_roles.

(** ** What [gazetteers::parse] leaves *)

Lemma wrap32_add_cong (a b d : Z) : wrap32 a = wrap32 b -> wrap32 (a + d) = wrap32 (b + d).
Proof.
  unfold wrap32. intros H. rewrite (Z.add_mod a), (Z.add_mod b), H by lia. reflexivity.
Qed.

Lemma wrap32_idem (a : Z) : wrap32 (wrap32 a) = wrap32 a.
Proof. unfold wrap32. apply Z.mod_mod. lia. Qed.

Lemma slots_mono0 (k k' : Z) : 0 <= k <= k' -> slots k <= slots k'.
Proof.
  intros H. destruct (Z.eq_dec k 0) as [->|Hk].
  - apply slots_range.
  - apply slots_mono. lia.
Qed.

Lemma gazetteers_add_prefix_length (window : Z) (total_features : ner_feature)
    (gazetteer : string) (last : bool) (st st' : gazetteers_state) :
  gazetteers_add_prefix window total_features gazetteer last st = Some st' ->
  (length (gz_info st) <= length (gz_info st'))%nat.
Proof.
  unfold gazetteers_add_prefix.
  destruct (gz_map st !! gazetteer) as [v|];
    match goal with |- context [?a =? ?b] => destruct (a =? b) end;
    match goal with |- context [if ?a <? 0 then _ else ?l] => destruct (if a <? 0 then None else l) end;
    try discriminate; cbn [mbind option_bind]; intros [= <-]; cbn [gz_info];
    rewrite length_insert, ?length_app; lia.
Qed.

Lemma gazetteers_add_tokens_length (window : Z) (total_features : ner_feature)
    (tokens : list string) :
  forall (first : bool) (gazetteer : string) (st st' : gazetteers_state),
  gazetteers_add_tokens window total_features first gazetteer tokens st = Some st' ->
  (length (gz_info st) <= length (gz_info st'))%nat.
Proof.
  induction tokens as [|token rest IH]; intros first gazetteer st st'; cbn [gazetteers_add_tokens].
  - intros [= <-]. lia.
  - destruct (gazetteers_add_prefix _ _ _ _ st) as [st1|] eqn:E1; [|discriminate].
    cbn [mbind option_bind]. intros E. apply IH in E.
    apply gazetteers_add_prefix_length in E1. lia.
Qed.

Section gazetteers_reserve.
Variable split : string -> ascii -> list string.
Variables (w t0 : Z).
Hypothesis window_nonneg : 0 <= w.
(** The tokens [split] returns hold no separator. *)
Hypothesis split_tokens :
  forall line token, token ∈ split line " "%char -> count_spaces token = 0.

(** [f] was stored while the counter stood at some [t >= t0], and the
    bands reserved from [t] on for a phrase as long as [key] end by [E]. *)
Definition feature_reserved (E : Z) (key : string) (f : ner_feature) : Prop :=
  exists t, t0 <= t /\ f = wrap32 (t + w) /\
    t + (2 * w + 1) * slots (count_spaces key + 1) <= E.

Record gz_inv (E : Z) (st : gazetteers_state) : Prop := {
  gi_indexed : forall key it, key <> EmptyString -> gz_map st !! key = Some it ->
    0 <= it < Z.of_nat (length (gz_info st));
  gi_inj : forall key1 key2 it, key1 <> EmptyString -> key2 <> EmptyString ->
    gz_map st !! key1 = Some it -> gz_map st !! key2 = Some it -> key1 = key2;
  gi_features : forall key it info f, key <> EmptyString -> gz_map st !! key = Some it ->
    gz_info st !! Z.to_nat it = Some info -> f ∈ gazetteers.features info ->
    feature_reserved E key f }.

Lemma gz_inv_mono (E E' : Z) (st : gazetteers_state) : E <= E' -> gz_inv E st -> gz_inv E' st.
Proof.
  intros HE [H1 H2 H3]. constructor; [assumption|assumption|].
  intros key it info f Hne Hk Hi Hf. destruct (H3 key it info f Hne Hk Hi Hf) as (t & ? & ? & ?).
  exists t. split; [assumption|]. split; [assumption|]. lia.
Qed.
(** One phrase or prefix added: the invariant is kept, given that a whole
    phrase is not longer than the bands reserved by [E] allow. *)
Lemma gazetteers_add_prefix_inv (total_features t E : Z) (gazetteer : string) (last : bool)
    (st st' : gazetteers_state) :
  wrap32 total_features = wrap32 t -> t0 <= t ->
  gazetteer <> EmptyString ->
  (last = true -> t + (2 * w + 1) * slots (count_spaces gazetteer + 1) <= E) ->
  gazetteers_add_prefix w total_features gazetteer last st = Some st' ->
  Z.of_nat (length (gz_info st)) < 2 ^ 32 ->
  gz_inv E st -> gz_inv E st'.
Proof.
  intros Hcong Ht Hne Hlast Hstep Hlen [H1 H2 H3]. revert Hstep. unfold gazetteers_add_prefix.
  set (len := Z.of_nat (length (gz_info st))) in *.
  set (update := fun info : gazetteers.gazetteer_info =>
         if last then
           if bool_decide (wrap32 (total_features + w) ∈ gazetteers.features info) then info
           else gazetteers.make (gazetteers.features info ++ [wrap32 (total_features + w)])
                  (gazetteers.prefix_of_longer info)
         else gazetteers.make (gazetteers.features info) true).
  set (f := wrap32 (total_features + w)) in *.
  assert (feature_reserved E gazetteer f \/ last = false) as Hf.
  { destruct last; [left|right; reflexivity]. exists t. split; [assumption|].
    split; [apply wrap32_add_cong; assumption|auto]. }
  assert (forall info x, x ∈ gazetteers.features (update info) ->
            x ∈ gazetteers.features info \/ (x = f /\ last = true)) as Hupdate.
  { intros info x. unfold update. destruct last; [|auto].
    case_bool_decide; [auto|]. cbn. rewrite elem_of_app, list_elem_of_singleton. tauto. }
  destruct (gz_map st !! gazetteer) as [v|] eqn:Ev.
  - (* the phrase is known *)
    destruct (H1 _ _ Hne Ev) as [Hlo Hhi].
    destruct (Z.eqb_spec v len) as [?|_]; [lia|].
    destruct (Z.ltb_spec v 0); [lia|].
    destruct (gz_info st !! Z.to_nat v) as [info0|] eqn:E0; [|discriminate].
    cbn [mbind option_bind]. intros [= <-]. constructor; cbn [gz_map gz_info].
    + intros key it Hk Hkey. rewrite length_insert. eauto.
    + assumption.
    + intros key it info x Hk Hkey Hinfo Hx.
      destruct (decide (Z.to_nat it = Z.to_nat v)) as [Heq|Hneq].
      * assert (it = v) by (destruct (H1 _ _ Hk Hkey); lia). subst it.
        assert (key = gazetteer) by (eapply H2; eassumption). subst key.
        rewrite list_lookup_insert_eq in Hinfo by (apply lookup_lt_Some in E0; lia).
        injection Hinfo as <-.
        destruct (Hupdate info0 x Hx) as [Hold|[-> Hl]].
        -- eapply H3; eassumption.
        -- destruct Hf as [?|?]; [assumption|congruence].
      * rewrite list_lookup_insert_ne in Hinfo by congruence. eapply H3; eassumption.
  - (* a new phrase *)
    assert (wrap32 len = len) as -> by (unfold wrap32; apply Z.mod_small; lia).
    rewrite Z.eqb_refl. destruct (Z.ltb_spec len 0); [lia|].
    assert ((gz_info st ++ [gazetteers.make [] false]) !! Z.to_nat len =
            Some (gazetteers.make [] false)) as ->.
    { subst len. rewrite Nat2Z.id. apply list_lookup_middle. reflexivity. }
    cbn [mbind option_bind]. intros [= <-]. constructor; cbn [gz_map gz_info].
    + intros key it Hk. rewrite length_insert, length_app. cbn [length].
      destruct (decide (key = gazetteer)) as [->|Hkg].
      * rewrite lookup_insert_eq. intros [= <-]. lia.
      * rewrite lookup_insert_ne by congruence. intros Hkey.
        specialize (H1 _ _ Hk Hkey). lia.
    + intros key1 key2 it Hk1 Hk2.
      destruct (decide (key1 = gazetteer)) as [->|Hn1], (decide (key2 = gazetteer)) as [->|Hn2];
        rewrite ?lookup_insert_eq, ?lookup_insert_ne by congruence.
      * reflexivity.
      * intros [= <-] Hkey. specialize (H1 _ _ Hk2 Hkey). lia.
      * intros Hkey [= <-]. specialize (H1 _ _ Hk1 Hkey). lia.
      * apply H2; assumption.
    + intros key it info x Hk.
      destruct (decide (key = gazetteer)) as [->|Hkg].
      * rewrite lookup_insert_eq. intros [= <-].
        rewrite list_lookup_insert_eq by (rewrite length_app; cbn; lia).
        intros [= <-] Hx.
        destruct (Hupdate (gazetteers.make [] false) x Hx) as [Hold|[-> Hl]].
        -- cbn in Hold. apply elem_of_nil in Hold. contradiction.
        -- destruct Hf as [?|?]; [assumption|congruence].
      * rewrite lookup_insert_ne by congruence. intros Hkey.
        destruct (H1 _ _ Hk Hkey) as [Hlo Hhi].
        rewrite list_lookup_insert_ne by lia.
        rewrite lookup_app_l by lia. intros Hinfo Hx. eapply H3; eassumption.
Qed.
(** The tokens of one line added; [first] and [gazetteer] tell how many
    tokens the phrase has so far. *)
Lemma gazetteers_add_tokens_inv (total_features t E : Z) (tokens : list string) :
  forall (first : bool) (gazetteer : string) (st st' : gazetteers_state),
  wrap32 total_features = wrap32 t -> t0 <= t ->
  Forall (fun token => token <> EmptyString /\ count_spaces token = 0) tokens ->
  t + (2 * w + 1) *
        slots ((if first then count_spaces gazetteer else count_spaces gazetteer + 1) +
               Z.of_nat (length tokens)) <= E ->
  gazetteers_add_tokens w total_features first gazetteer tokens st = Some st' ->
  Z.of_nat (length (gz_info st')) < 2 ^ 32 ->
  gz_inv E st -> gz_inv E st'.
Proof.
  induction tokens as [|token rest IH]; intros first gazetteer st st' Hcong Ht Htok HE;
    cbn [gazetteers_add_tokens].
  - intros [= <-] _ Hinv. assumption.
  - apply Forall_cons in Htok as [[Hne Hsp] Hrest].
    set (g := String.append (if first then gazetteer else push_back gazetteer " ") token) in *.
    assert (count_spaces g =
            if first then count_spaces gazetteer else count_spaces gazetteer + 1) as Hg.
    { subst g. rewrite count_spaces_app, Hsp.
      destruct first; [lia|]. rewrite count_spaces_push_back. lia. }
    destruct (gazetteers_add_prefix w total_features g _ st) as [st1|] eqn:E1; [|discriminate].
    cbn [mbind option_bind]. intros Erest Hlen Hinv.
    pose proof (gazetteers_add_tokens_length _ _ _ _ _ _ _ Erest) as Hlen1.
    pose proof (gazetteers_add_prefix_length _ _ _ _ _ _ E1) as Hlen0.
    apply (IH false g st1 st'); try assumption.
    + rewrite Hg. cbn [length] in HE.
      replace ((if first then count_spaces gazetteer else count_spaces gazetteer + 1) + 1 +
               Z.of_nat (length rest))
        with ((if first then count_spaces gazetteer else count_spaces gazetteer + 1) +
              Z.of_nat (S (length rest))) by lia.
      assumption.
    + apply (gazetteers_add_prefix_inv total_features t E g
               (match rest with [] => true | _ => false end) st st1 Hcong Ht).
      * apply append_nonempty. assumption.
      * intros Hlast. destruct rest; [|discriminate]. rewrite Hg. cbn [length] in HE.
        replace (Z.of_nat 1) with 1 in HE by reflexivity. assumption.
      * assumption.
      * lia.
      * assumption.
Qed.

Lemma erase_empty_tokens (line : string) :
  Forall (fun token => token <> EmptyString /\ count_spaces token = 0)
    (erase_empty (split line " "%char)).
Proof.
  pose proof (erase_empty_nonempty (split line " "%char)) as Hne.
  rewrite Forall_forall in Hne. apply Forall_forall. intros token Hin.
  split; [auto|]. apply (split_tokens line).
  unfold erase_empty in Hin. apply list_elem_of_In, filter_In in Hin as [Hin _].
  apply list_elem_of_In. assumption.
Qed.

(** The lines of one file, read while the counter stands at [t]. *)
Lemma gazetteers_lines_inv (total_features t : Z) (lines : list string) :
  forall (longest longest' : Z) (st st' : gazetteers_state),
  wrap32 total_features = wrap32 t -> t0 <= t -> 0 <= longest ->
  Forall (fun line => phrase_length split line < 2 ^ 32) lines ->
  for_each lines (gazetteers_add_line split w total_features) (longest, st) =
    Some (longest', st') ->
  Z.of_nat (length (gz_info st')) < 2 ^ 32 ->
  gz_inv (t + (2 * w + 1) * slots longest) st ->
  0 <= longest' /\ gz_inv (t + (2 * w + 1) * slots longest') st' /\
  (length (gz_info st) <= length (gz_info st'))%nat.
Proof.
  induction lines as [|line lines IH]; intros longest longest' st st' Hcong Ht Hl Hlen;
    cbn [for_each].
  - intros [= <- <-] _ Hinv. auto.
  - apply Forall_cons in Hlen as [Hline Hlines].
    unfold gazetteers_add_line at 1. unfold phrase_length in Hline.
    set (tokens := erase_empty (split line " "%char)) in *.
    set (n := Z.of_nat (length tokens)) in *.
    assert (0 <= n) as Hn by (subst n; lia).
    assert ((if longest <? n then wrap32 n else longest) = Z.max longest n) as ->.
    { destruct (Z.ltb_spec longest n); [|lia]. unfold wrap32. rewrite Z.mod_small; lia. }
    destruct (gazetteers_add_tokens w total_features true EmptyString tokens st) as [st1|] eqn:E1;
      [|discriminate].
    cbn [mbind option_bind]. intros Erest Hbound Hinv.
    assert (forall l acc acc',
              for_each l (gazetteers_add_line split w total_features) acc = Some acc' ->
              (length (gz_info acc.2) <= length (gz_info acc'.2))%nat) as Hmono.
    { clear. induction l as [|x l IHl]; intros [lg s] acc'; cbn [for_each].
      - intros [= <-]. lia.
      - unfold gazetteers_add_line at 1.
        destruct (gazetteers_add_tokens _ _ _ _ _ s) as [s1|] eqn:Es; [|discriminate].
        cbn [mbind option_bind]. intros E. apply IHl in E.
        apply gazetteers_add_tokens_length in Es. cbn in *. lia. }
    pose proof (Hmono _ _ _ Erest) as Hlen1. cbn in Hlen1.
    pose proof (gazetteers_add_tokens_length _ _ _ _ _ _ _ E1) as Hlen0.
    assert (slots longest <= slots (Z.max longest n)) as Hs1 by (apply slots_mono0; lia).
    assert (slots n <= slots (Z.max longest n)) as Hs2 by (apply slots_mono0; lia).
    destruct (IH (Z.max longest n) longest' st1 st') as (Hl' & Hinv' & Hlen');
      try assumption; try lia.
    + eapply (gazetteers_add_tokens_inv total_features t); try eassumption.
      * apply erase_empty_tokens.
      * cbn [count_spaces]. fold n. replace (0 + n) with n by lia. nia.
      * lia.
      * eapply gz_inv_mono; [|eassumption]. nia.
    + split; [assumption|]. split; [assumption|]. lia.
Qed.

(** One file read: the counter moves on by the bands the file reserves. *)
Lemma gazetteers_parse_file_inv (total_features t : Z) (lines : list string)
    (st st' : gazetteers_state) (total_features' : ner_feature) :
  wrap32 total_features = wrap32 t -> t0 <= t ->
  Forall (fun line => phrase_length split line < 2 ^ 32) lines ->
  gazetteers_parse_file split w lines (total_features, st) = Some (total_features', st') ->
  Z.of_nat (length (gz_info st')) < 2 ^ 32 ->
  gz_inv t st ->
  exists n, 0 <= n /\ total_features' = wrap32 (t + (2 * w + 1) * n) /\
    gz_inv (t + (2 * w + 1) * n) st' /\
    (length (gz_info st) <= length (gz_info st'))%nat.
Proof.
  intros Hcong Ht Hlen. unfold gazetteers_parse_file.
  destruct (for_each lines _ _) as [[longest st1]|] eqn:E; [|discriminate].
  cbn [mbind option_bind].
  destruct (in_int (2 * w) && in_int (2 * w + 1) && in_int ((2 * w + 1) * slots longest));
    [|discriminate].
  intros [= <- <-] Hbound Hinv.
  destruct (gazetteers_lines_inv total_features t lines 0 longest st st1)
    as (Hl & Hinv1 & Hlen1); try assumption; try lia.
  { change (slots 0) with 0. replace (t + (2 * w + 1) * 0) with t by lia. assumption. }
  exists (slots longest). pose proof (slots_range longest).
  split; [lia|]. split; [apply wrap32_add_cong; assumption|]. auto.
Qed.

(** All files read. *)
Lemma gazetteers_files_inv (files : string -> option (list string)) (args : list string) :
  forall (total_features t : Z) (st st' : gazetteers_state) (total_features' : ner_feature),
  wrap32 total_features = wrap32 t -> 0 <= total_features < 2 ^ 32 -> t0 <= t ->
  (forall arg lines, arg ∈ args -> files arg = Some lines ->
     Forall (fun line => phrase_length split line < 2 ^ 32) lines) ->
  for_each args
    (fun arg acc => lines ← files arg; gazetteers_parse_file split w lines acc)
    (total_features, st) = Some (total_features', st') ->
  Z.of_nat (length (gz_info st')) < 2 ^ 32 ->
  gz_inv t st ->
  exists n, 0 <= n /\ total_features' = wrap32 (t + (2 * w + 1) * n) /\
    gz_inv (t + (2 * w + 1) * n) st'.
Proof.
  induction args as [|arg args IH];
    intros total_features t st st' total_features' Hcong Hrange Ht Hfiles; cbn [for_each].
  - intros [= <- <-] _ Hinv. exists 0. split; [lia|].
    replace (t + (2 * w + 1) * 0) with t by lia. split; [|assumption].
    rewrite <- Hcong. unfold wrap32. symmetry. apply Z.mod_small. assumption.
  - destruct (files arg) as [lines|] eqn:Efile; [|discriminate]. cbn [mbind option_bind].
    destruct (gazetteers_parse_file split w lines (total_features, st)) as [[total1 st1]|] eqn:E1;
      [|discriminate].
    intros Erest Hbound Hinv.
    assert (length (gz_info st1) <= length (gz_info st'))%nat as Hlen1.
    { clear - Erest. revert total1 st1 Erest. induction args as [|a l IHl];
        intros total1 st1; cbn [for_each].
      - intros [= <- <-]. lia.
      - destruct (files a) as [ls|]; [|discriminate]. cbn [mbind option_bind].
        unfold gazetteers_parse_file at 1.
        destruct (for_each ls _ _) as [[lg s2]|] eqn:E2; [|discriminate].
        cbn [mbind option_bind].
        destruct (in_int _ && in_int _ && in_int _); [|discriminate].
        intros E. apply IHl in E.
        assert (length (gz_info st1) <= length (gz_info s2))%nat; [|lia].
        clear - E2. revert E2. generalize 0 at 1. revert st1.
        induction ls as [|x ls IHls]; intros s lg0; cbn [for_each].
        + intros [= <- <-]. lia.
        + unfold gazetteers_add_line at 1.
          destruct (gazetteers_add_tokens _ _ _ _ _ s) as [s1|] eqn:Es; [|discriminate].
          cbn [mbind option_bind]. intros E. apply IHls in E.
          apply gazetteers_add_tokens_length in Es. lia. }
    destruct (gazetteers_parse_file_inv total_features t lines st st1 total1)
      as (n1 & Hn1 & -> & Hinv1 & _); try assumption; try lia.
    { apply (Hfiles arg); [left|assumption]. }
    destruct (IH (wrap32 (t + (2 * w + 1) * n1)) (t + (2 * w + 1) * n1) st1 st' total_features')
      as (n2 & Hn2 & Htotal & Hinv2); try assumption.
    + apply wrap32_idem.
    + unfold wrap32. apply Z.mod_pos_bound. lia.
    + nia.
    + intros a ls Ha. apply Hfiles. right. assumption.
    + exists (n1 + n2). split; [lia|].
      replace (t + (2 * w + 1) * (n1 + n2)) with (t + (2 * w + 1) * n1 + (2 * w + 1) * n2) by lia.
      auto.
Qed.
End gazetteers_reserve.

(** The ids of the band around a centre of Gazetteers lie in the range
    the files reserved. *)
Lemma role_band_reserved (w t0 E : Z) (st : gazetteers_state) (c : frame)
    (f x : ner_feature) :
  0 <= w -> 0 <= t0 -> E < 2 ^ 32 ->
  gz_inv w t0 E st -> window c = w -> map c = gz_map st ->
  role_centre (gz_info st) c f -> in_band w f x ->
  t0 <= x < E.
Proof.
  intros Hw Ht HE Hinv Hwin Hmap (key & it & info & feature & role & Hne & Hk & Hi & Hf & Hr & ->)
    Hb.
  rewrite Hmap in Hk. rewrite Hwin in *.
  destruct (gi_features _ _ _ _ Hinv key it info feature Hne Hk Hi Hf) as (t & Ht0 & -> & Hend).
  unfold role_reserved in Hr.
  assert ((2 * w + 1) * (role + 1) <= (2 * w + 1) * slots (count_spaces key + 1)) as Hmul by nia.
  assert (0 <= (2 * w + 1) * role) as Hpos by nia.
  assert (wrap32 (t + w) = t + w) as E0 by (unfold wrap32; apply Z.mod_small; lia).
  assert (wrap32 (t + w + role * (2 * w + 1)) = t + w + role * (2 * w + 1)) as E1
    by (unfold wrap32; apply Z.mod_small; lia).
  rewrite E0, E1 in Hb. apply in_band_exact in Hb; lia.
Qed.

Lemma split_fields_no_space (text : string) :
  forall (current token : string),
  count_spaces current = 0 -> token ∈ split_fields text " " current -> count_spaces token = 0.
Proof.
  induction text as [|a text IH]; intros current token Hc; cbn [split_fields].
  - intros Hin. apply list_elem_of_singleton in Hin. congruence.
  - destruct (Ascii.eqb a " ") eqn:Ea.
    + intros Hin. apply elem_of_cons in Hin as [->|Hin]; [assumption|].
      apply (IH EmptyString); [reflexivity|assumption].
    + apply IH. unfold push_back. rewrite count_spaces_app. cbn [count_spaces].
      rewrite Ea. lia.
Qed.

Lemma split_on_no_space (line token : string) :
  token ∈ split_on line " " -> count_spaces token = 0.
Proof.
  unfold split_on. destruct line as [|a line].
  - intros Hin. apply elem_of_nil in Hin. contradiction.
  - apply split_fields_no_space. reflexivity.
Qed.


(** A gazetteer file of the cities example, and the state [parse] leaves. *)
Definition cities_files (arg : string) : option (list string) :=
  if String.eqb arg "cities.txt" then Some example_gazetteer else None.

Definition cities_parsed : parse_state :=
  Parse_state 2 {["new" := 0; "new york" := 1; "new york city" := 2; "york" := 3]} 26.

Definition cities_info : list gazetteers.gazetteer_info :=
  [gazetteers.make [] true; gazetteers.make [3] true; gazetteers.make [3] false;
   gazetteers.make [3] false].

Definition cities_frame : frame :=
  Frame (plain_sentence ["in"; "new"; "york"; "city"]) 2 (parsed_map cities_parsed) None
    EmptyString.


(** ** CzechLemmaTerm without markers *)

(** The marker [_;] starts at [pos] and a character follows it. *)
Definition marker_at (lemma_comments : string) (pos : nat) : Prop :=
  String.get pos lemma_comments = Some "_"%char /\
  String.get (S pos) lemma_comments = Some ";"%char /\
  is_Some (String.get (S (S pos)) lemma_comments).

(** X20. CzechLemmaTerm leaves the frame as it is, interning nothing, when
    no [lemma_comments] of the sentence holds the marker [_;] followed by a
    character: comments shorter than three characters and a marker at the
    very end emit nothing. *)
Theorem czech_lemma_term_no_marker (c : frame) :
  frame_wf c ->
  (forall i word pos, word_at c i = Some word -> ~ marker_at (lemma_comments word) pos) ->
  czech_lemma_term_process_sentence c = Some c.
Proof.
  intros W Hnone. apply for_tokens_skip. intros i Hi. unfold czech_lemma_term_token.
  destruct (word_at_Some c i W Hi) as (word & Eword). rewrite Eword. cbn [mbind option_bind].
  specialize (Hnone i word). set (lc := lemma_comments word) in *.
  destruct (for_loop_indexed (fun _ c' => c' = c) (czech_lemma_term_pos i lc)
              (Z.to_nat (Z.of_nat (String.length lc) - 2)) 0 c) as (c' & E & ->);
    [|reflexivity|assumption].
  intros pos c' Hpos ->. exists c. split; [|reflexivity]. unfold czech_lemma_term_pos.
  destruct (string_get_Some lc (Z.to_nat pos)) as (a & Ea); [lia|].
  destruct (string_get_Some lc (Z.to_nat (pos + 1))) as (b & Eb); [lia|].
  destruct (string_get_Some lc (Z.to_nat (pos + 2))) as (d & Ed); [lia|].
  rewrite Ea, Eb. cbn [mbind option_bind].
  destruct (Ascii.eqb_spec a "_") as [->|]; [|reflexivity].
  destruct (Ascii.eqb_spec b ";") as [->|]; [|reflexivity].
  exfalso. apply (Hnone (Z.to_nat pos) Eword). unfold marker_at.
  replace (S (Z.to_nat pos)) with (Z.to_nat (pos + 1)) by lia.
  replace (S (Z.to_nat (pos + 1))) with (Z.to_nat (pos + 2)) by lia.
  split; [assumption|]. split; [assumption|]. eauto.
Qed.

(** Two tokens whose comments hold no complete marker. *)
Definition unmarked_frame : frame :=
  Frame (Ner_sentence 2
           [Ner_word "Praha" "Praha" "Praha" "x_;" EmptyString;
            Ner_word "a" "a" "a" "_" EmptyString]
           [[]; []]
           [Probability_info blank_slots false; Probability_info blank_slots false]
           [Previous_stage_info bilou_type_unknown entity_type_unknown;
            Previous_stage_info bilou_type_unknown entity_type_unknown])
    2 ∅ (Some 1) EmptyString.

Lemma czech_lemma_term_no_marker_witness :
  czech_lemma_term_process_sentence unmarked_frame = Some unmarked_frame.
Proof.
  apply czech_lemma_term_no_marker.
  - constructor; [constructor; cbn; lia|cbn; lia|cbn; lia].
  - intros i word pos Hword (Ha & Hb & Hd). unfold word_at in Hword. cbn in Hword.
    destruct (i <? 0); [discriminate|].
    apply list_elem_of_lookup_2 in Hword.
    apply elem_of_cons in Hword as [->|Hword].
    + cbn in Ha, Hb, Hd. destruct Hd as [d Hd].
      destruct pos as [|[|[|pos]]]; cbn in *; discriminate.
    + apply list_elem_of_singleton in Hword as ->. cbn in Ha, Hb.
      destruct pos as [|pos]; cbn in *; discriminate.
Defined.

(** ** The three capitalization features of a token *)

Section classification.
Variable utf8_decode : string -> Z * string.
Variable unicode_category : Z -> Z.
Variables unicode_Lut unicode_Ll : Z.
(** Reading a code point other than the terminator consumes input. *)
Hypothesis utf8_decode_progress :
  forall str chr rest,
    utf8_decode str = (chr, rest) -> chr <> 0 ->
    (String.length rest < String.length str)%nat.

(** [category & unicode::Lut] and [category & unicode::Ll] *)
Definition is_upper (chr : Z) : bool :=
  negb (Z.land (unicode_category chr) unicode_Lut =? 0).

Definition is_lower (chr : Z) : bool :=
  negb (Z.land (unicode_category chr) unicode_Ll =? 0).

(** The code points [utf8::decode] reads from [str] before the terminator. *)
Fixpoint code_points (fuel : nat) (str : string) : list Z :=
  match fuel with
  | O => []
  | S fuel' =>
      let '(chr, rest) := utf8_decode str in
      if chr =? 0 then [] else chr :: code_points fuel' rest
  end.

(** What a token with these code points gets. *)
Definition capitalization_rows (fst_cap all_cap mixed_cap : ner_feature) (i : Z)
    (chrs : list Z) (c : frame) : option frame :=
  c ← when (match chrs with chr :: _ => is_upper chr | [] => false end)
        (emit_in_window i fst_cap) c;
  c ← when (existsb is_upper chrs && negb (existsb is_lower chrs)) (emit_in_window i all_cap) c;
  when (existsb is_upper chrs && existsb is_lower chrs) (emit_in_window i mixed_cap) c.

(** Behind the first code point the loop only collects the two flags. *)
Lemma capitalization_scan_rest (i : Z) (fst_cap : ner_feature) (fuel : nat) :
  forall (str : string) (was_upper was_lower : bool) (c : frame),
  (String.length str < fuel)%nat ->
  capitalization_scan utf8_decode unicode_category unicode_Lut unicode_Ll
    fuel i fst_cap str false was_upper was_lower c =
  Some (was_upper || existsb is_upper (code_points fuel str),
        was_lower || existsb is_lower (code_points fuel str), c).
Proof.
  induction fuel as [|fuel IH]; intros str wu wl c Hlen; [lia|].
  cbn [capitalization_scan code_points].
  destruct (utf8_decode str) as [chr rest] eqn:Ed.
  destruct (Z.eqb_spec chr 0) as [Hz|Hz].
  - cbn [existsb]. rewrite !Bool.orb_false_r. reflexivity.
  - pose proof (utf8_decode_progress _ _ _ Ed Hz) as Hlt.
    cbn [andb when mbind option_bind]. rewrite IH by lia.
    cbn [existsb]. fold (is_upper chr). fold (is_lower chr).
    rewrite !Bool.orb_assoc. reflexivity.
Qed.

(** X21. FormCapitalization and RawLemmaCapitalization give a token, in
    this order, the feature [f] exactly when its first code point is upper
    case, then [a] exactly when some code point is upper case and none is
    lower case, or [m] exactly when both occur.  So [a] and [m] exclude each
    other, and a token without an upper-case code point gets nothing. *)
Theorem capitalization_token_rows (field : ner_word -> string)
    (fst_cap all_cap mixed_cap : ner_feature) (i : Z) (c : frame) (word : ner_word) :
  word_at c i = Some word ->
  capitalization_token utf8_decode unicode_category unicode_Lut unicode_Ll
    field fst_cap all_cap mixed_cap i c =
  capitalization_rows fst_cap all_cap mixed_cap i
    (code_points (S (String.length (field word))) (field word)) c.
Proof.
  intros Hword. unfold capitalization_token, capitalization_rows. rewrite Hword.
  cbn [mbind option_bind capitalization_scan code_points].
  destruct (utf8_decode (field word)) as [chr rest] eqn:Ed.
  destruct (Z.eqb_spec chr 0) as [Hz|Hz]; [reflexivity|].
  pose proof (utf8_decode_progress _ _ _ Ed Hz) as Hlt.
  cbn [andb orb existsb]. fold (is_upper chr). fold (is_lower chr).
  destruct (when (is_upper chr) (emit_in_window i fst_cap) c) as [c1|]; [|reflexivity].
  cbn [mbind option_bind]. rewrite capitalization_scan_rest by lia. reflexivity.
Qed.
End classification.

Lemma capitalization_token_rows_witness :
  capitalization_token ascii_decode ascii_category ascii_Lut ascii_Ll form 3 8 13 0
    (training_frame ["McDonald"]) =
  capitalization_rows ascii_category ascii_Lut ascii_Ll 3 8 13 0
    (code_points ascii_decode (S (String.length "McDonald")) "McDonald")
    (training_frame ["McDonald"]).
Proof.
  apply (capitalization_token_rows ascii_decode ascii_category ascii_Lut ascii_Ll
           ascii_decode_progress form 3 8 13 0 (training_frame ["McDonald"])
           (plain_word "McDonald")).
  reflexivity.
Defined.

(** ** BrownClusters emits the whole cluster *)

(** One emission: the frame it leaves, and the feature standing around the
    token unless it is the unknown sentinel. *)
Lemma emit_in_window_any (c : frame) (i : Z) (f : ner_feature) :
  frame_wf c -> 0 <= i < size (sentence c) ->
  exists c', emit_in_window i f c = Some c' /\
    frame_wf c' /\ same_shape c c' /\ appended (fun _ => True) c c' /\ map c' = map c /\
    (f <> ner_feature_unknown -> emitted_around c' f i).
Proof.
  intros W Hi. destruct (decide (f = ner_feature_unknown)) as [Hu|Hk].
  - destruct (emit_in_window_grows (fun _ _ => True) (fun _ _ _ _ x => x) c i f W Hi)
      as (c1 & E & W1 & [S1 A1] & M1 & _); [auto|].
    exists c1. split; [assumption|]. split; [assumption|]. split; [assumption|].
    split; [eapply appended_weaken; [|exact A1]; auto|]. split; [assumption|]. tauto.
  - destruct (emit_in_window_emitted c i f W Hi Hk) as (c1 & E & W1 & S1 & A1 & M1 & Em1).
    exists c1. auto 10.
Qed.

(** All features of one cluster emitted around token [i]. *)
Lemma cluster_emitted (i : Z) (cluster : list ner_feature) :
  forall c : frame,
  frame_wf c -> 0 <= i < size (sentence c) ->
  exists c', for_each cluster (fun feature c => emit_in_window i feature c) c = Some c' /\
    frame_wf c' /\ same_shape c c' /\ appended (fun _ => True) c c' /\ map c' = map c /\
    forall f, f ∈ cluster -> f <> ner_feature_unknown -> emitted_around c' f i.
Proof.
  induction cluster as [|f cluster IH]; intros c W Hi; cbn [for_each].
  - exists c. split; [reflexivity|]. split; [assumption|]. split; [apply same_shape_refl|].
    split; [apply appended_refl|]. split; [reflexivity|].
    intros f Hin. apply elem_of_nil in Hin. contradiction.
  - destruct (emit_in_window_any c i f W Hi) as (c1 & -> & W1 & S1 & A1 & M1 & Em1).
    destruct (IH c1 W1) as (c2 & -> & W2 & S2 & A2 & M2 & Em2).
    { rewrite (ss_size _ _ S1). assumption. }
    exists c2. split; [reflexivity|]. split; [assumption|].
    split; [eapply same_shape_trans; eassumption|].
    split; [eapply appended_trans; eassumption|]. split; [congruence|].
    intros x Hin Hx. apply elem_of_cons in Hin as [->|Hin]; [|auto].
    apply (emitted_around_appended (fun _ => True) c1 c2); auto.
Qed.



(** ** The clusters [brown_clusters::parse] builds *)

(** The requested prefix length applies to the cluster string. *)
Definition applies (cluster : string) (substring : Z) : bool :=
  (substring =? npos) || (substring <? Z.of_nat (String.length cluster)).

(** The features of a cluster string under the prefix table [pm]: the id of
    each prefix a requested length cuts from it, in the order of the
    lengths. *)
Definition prefix_features (pm : gmap string ner_feature) (substrings : list Z)
    (cluster : string) : list ner_feature :=
  omap (fun substring =>
          if applies cluster substring then pm !! substr0 cluster substring else None)
    substrings.

(** Every prefix the lengths cut from the cluster string is in the table. *)
Definition prefixes_known (pm : gmap string ner_feature) (substrings : list Z)
    (cluster : string) : Prop :=
  Forall (fun substring =>
            applies cluster substring = true -> is_Some (pm !! substr0 cluster substring))
    substrings.

Lemma prefix_features_weaken (pm pm' : gmap string ner_feature) (substrings : list Z)
    (cluster : string) :
  pm ⊆ pm' -> prefixes_known pm substrings cluster ->
  prefix_features pm' substrings cluster = prefix_features pm substrings cluster /\
  prefixes_known pm' substrings cluster.
Proof.
  intros Hsub. unfold prefix_features, prefixes_known.
  induction substrings as [|substring substrings IH]; intros Hk; [split; [reflexivity|constructor]|].
  apply Forall_cons in Hk as [Hhead Htail]. destruct (IH Htail) as [IH1 IH2].
  cbn [omap list_omap]. rewrite IH1. split.
  - destruct (applies cluster substring); [|reflexivity].
    destruct (Hhead eq_refl) as [f Hf]. rewrite Hf, (lookup_weaken _ _ _ _ Hf Hsub). reflexivity.
  - constructor; [|assumption]. intros Ha. destruct (Hhead Ha) as [f Hf]. exists f.
    eapply lookup_weaken; eassumption.
Qed.

Section brown_prefixes.
Variable split : string -> ascii -> list string.
Variables (w t0 : Z).

(** The loop over the lengths appends the features of the cluster string
    under the table it leaves. *)
Lemma brown_add_prefixes_features (cluster : string) (substrings : list Z) :
  forall (back : list ner_feature) (pm : gmap string ner_feature),
  exists pm',
    fold_left (fun acc substring => brown_add_prefix w t0 cluster substring acc)
      substrings (back, pm) = (back ++ prefix_features pm' substrings cluster, pm') /\
    pm ⊆ pm' /\ prefixes_known pm' substrings cluster.
Proof.
  induction substrings as [|substring substrings IH]; intros back pm; cbn [fold_left].
  - exists pm. unfold prefix_features. cbn. rewrite app_nil_r.
    split; [reflexivity|]. split; [reflexivity|constructor].
  - unfold brown_add_prefix at 2. fold (applies cluster substring).
    destruct (applies cluster substring) eqn:Ea.
    + destruct (pm !! substr0 cluster substring) as [f|] eqn:Ef.
      * destruct (IH (back ++ [f]) pm) as (pm' & -> & Hsub & Hk).
        exists pm'. split; [|split; [assumption|]].
        -- unfold prefix_features. cbn [omap list_omap]. rewrite Ea.
           rewrite (lookup_weaken _ _ _ _ Ef Hsub). cbn. rewrite <- app_assoc. reflexivity.
        -- constructor; [|assumption]. intros _. exists f. eapply lookup_weaken; eassumption.
      * set (fresh := wrap32 (t0 + (2 * w + 1) * Z.of_nat (base.size pm) + w)).
        destruct (IH (back ++ [fresh]) (<[substr0 cluster substring := fresh]> pm))
          as (pm' & -> & Hsub & Hk).
        assert (pm' !! substr0 cluster substring = Some fresh) as Hfresh.
        { eapply lookup_weaken; [|exact Hsub]. apply lookup_insert_eq. }
        exists pm'. split; [|split].
        -- unfold prefix_features. cbn [omap list_omap]. rewrite Ea.
           unfold ner_feature in *. rewrite Hfresh. cbn.
           rewrite <- app_assoc. reflexivity.
        -- etrans; [|exact Hsub]. apply insert_subseteq. assumption.
        -- constructor; [|assumption]. intros _. eauto.
    + destruct (IH back pm) as (pm' & -> & Hsub & Hk).
      exists pm'. split; [|split; [assumption|]].
      * unfold prefix_features. cbn [omap list_omap]. rewrite Ea. reflexivity.
      * constructor; [|assumption]. intros Ha. congruence.
Qed.

(** Every cluster string seen has its record, and the record holds the
    features of the string; every line read has its form in [map], mapped
    to the record of its cluster string. *)
Record brown_built (substrings : list Z) (lines : list string) (st : brown_state) : Prop := {
  bb_cluster : forall cluster id,
    bs_cluster_map st !! cluster = Some id ->
    0 <= id /\
    bs_clusters st !! Z.to_nat id =
      Some (prefix_features (bs_prefixes_map st) substrings cluster) /\
    prefixes_known (bs_prefixes_map st) substrings cluster;
  bb_form : forall line cluster form,
    line ∈ lines -> split line "009"%char = [cluster; form] ->
    exists id, bs_map st !! form = Some id /\ bs_cluster_map st !! cluster = Some id }.

Lemma brown_add_line_built (substrings : list Z) (lines : list string) (line : string)
    (st st' : brown_state) :
  brown_add_line split w t0 substrings line st = Some st' ->
  Z.of_nat (length (bs_clusters st)) < 2 ^ 32 ->
  brown_built substrings lines st -> brown_built substrings (lines ++ [line]) st'.
Proof.
  intros Hstep Hlen [H1 H2]. revert Hstep. unfold brown_add_line.
  destruct (split line "009") as [|cluster [|form [|? ?]]] eqn:Esplit; try discriminate.
  destruct (bs_cluster_map st !! cluster) as [id|] eqn:Ec.
  - (* a cluster string seen before *)
    destruct (bs_map st !! form) eqn:Ef; [discriminate|]. intros [= <-].
    constructor; cbn [bs_map bs_clusters bs_cluster_map bs_prefixes_map].
    + assumption.
    + intros line' cluster' form' Hin Hline'.
      apply elem_of_app in Hin as [Hin|Hin].
      * destruct (H2 _ _ _ Hin Hline') as (id' & Hform' & Hcl'). exists id'.
        split; [|assumption]. rewrite lookup_insert_ne; [assumption|]. congruence.
      * apply list_elem_of_singleton in Hin. subst line'.
        assert (cluster' = cluster /\ form' = form) as [-> ->] by (split; congruence).
        exists id. split; [apply lookup_insert_eq|assumption].
  - (* a new cluster string *)
    destruct (brown_add_prefixes_features cluster substrings [] (bs_prefixes_map st))
      as (pm' & E & Hsub & Hk).
    rewrite E. cbn [app bs_map bs_clusters bs_cluster_map bs_prefixes_map].
    destruct (bs_map st !! form) eqn:Ef; [discriminate|]. intros [= <-].
    assert (wrap32 (Z.of_nat (length (bs_clusters st))) = Z.of_nat (length (bs_clusters st)))
      as Eid by (unfold wrap32; apply Z.mod_small; lia).
    rewrite Eid.
    constructor; cbn [bs_map bs_clusters bs_cluster_map bs_prefixes_map].
    + intros cluster' id'. destruct (decide (cluster' = cluster)) as [->|Hne].
      * rewrite lookup_insert_eq. intros [= <-]. split; [lia|]. split; [|assumption].
        rewrite Nat2Z.id. apply list_lookup_middle. reflexivity.
      * rewrite lookup_insert_ne by congruence. intros Hcl.
        destruct (H1 _ _ Hcl) as (Hid & Hrec & Hknown).
        destruct (prefix_features_weaken _ _ _ _ Hsub Hknown) as [-> Hknown'].
        split; [assumption|]. split; [|assumption].
        apply lookup_app_l_Some. assumption.
    + intros line' cluster' form' Hin Hline'.
      apply elem_of_app in Hin as [Hin|Hin].
      * destruct (H2 _ _ _ Hin Hline') as (id' & Hform' & Hcl'). exists id'. split.
        -- rewrite lookup_insert_ne; [assumption|]. intros ->.
           unfold ner_feature in *. rewrite Ef in Hform'. discriminate.
        -- rewrite lookup_insert_ne; [assumption|]. intros ->.
           unfold ner_feature in *. rewrite Ec in Hcl'. discriminate.
      * apply list_elem_of_singleton in Hin. subst line'.
        assert (cluster' = cluster /\ form' = form) as [-> ->] by (split; congruence).
        eexists. split; apply lookup_insert_eq.
Qed.

Lemma brown_add_line_clusters (substrings : list Z) (line : string) (st st' : brown_state) :
  brown_add_line split w t0 substrings line st = Some st' ->
  (length (bs_clusters st) <= length (bs_clusters st'))%nat.
Proof.
  unfold brown_add_line.
  destruct (split line "009") as [|cluster [|form [|? ?]]]; try discriminate.
  destruct (bs_cluster_map st !! cluster) as [id|].
  - destruct (bs_map st !! form); [discriminate|]. intros [= <-]. cbn. lia.
  - destruct (fold_left _ substrings _) as [back pm]. cbn [bs_map bs_clusters].
    destruct (bs_map st !! form); [discriminate|]. intros [= <-]. cbn.
    rewrite length_app. lia.
Qed.

Lemma brown_lines_built (substrings : list Z) (lines : list string) :
  forall (done : list string) (st st' : brown_state),
  for_each lines (brown_add_line split w t0 substrings) st = Some st' ->
  Z.of_nat (length (bs_clusters st')) < 2 ^ 32 ->
  brown_built substrings done st ->
  brown_built substrings (done ++ lines) st' /\
  (length (bs_clusters st) <= length (bs_clusters st'))%nat.
Proof.
  induction lines as [|line lines IH]; intros done st st'; cbn [for_each].
  - intros [= <-] _ Hb. rewrite app_nil_r. auto.
  - destruct (brown_add_line split w t0 substrings line st) as [st1|] eqn:E1; [|discriminate].
    intros E Hlen Hb. pose proof (brown_add_line_clusters _ _ _ _ E1) as Hlen0.
    assert (length (bs_clusters st1) <= length (bs_clusters st'))%nat as Hlen1.
    { clear - E. revert st1 E. induction lines as [|l ls IHl]; intros s; cbn [for_each].
      - intros [= <-]. lia.
      - destruct (brown_add_line split w t0 substrings l s) as [s1|] eqn:Es; [|discriminate].
        intros E. apply IHl in E. apply brown_add_line_clusters in Es. lia. }
    destruct (IH (done ++ [line]) st1 st' E Hlen) as [Hb' Hlen'].
    + eapply brown_add_line_built; [eassumption|lia|assumption].
    + rewrite <- app_assoc in Hb'. split; [exact Hb'|lia].
Qed.
End brown_prefixes.

(** X23. What [brown_clusters::parse] builds: there is one table of prefix
    ids such that every line [cluster<TAB>form] of the file has its form in
    [map], mapped to a record of [clusters] that holds, in the order of the
    requested lengths, the id of the whole cluster string and of each prefix
    a requested length shorter than the string cuts from it.  So two forms
    whose cluster strings agree on a requested prefix share the feature of
    that prefix.  (Fewer than [2^32] clusters.) *)
Theorem brown_clusters_parse_prefixes (split : string -> ascii -> list string)
    (parse_int : string -> option Z) (base : parse_state) (window : Z) (args : list string)
    (file : option (list string)) (ps : parse_state) (clusters : list (list ner_feature)) :
  brown_clusters_parse split parse_int (Some base) window args file = Some (ps, clusters) ->
  Z.of_nat (length clusters) < 2 ^ 32 ->
  exists lines substrings pm,
    file = Some lines /\
    prefix_lengths parse_int (tail args) [npos] = Some substrings /\
    forall line cluster form,
      line ∈ lines -> split line "009"%char = [cluster; form] ->
      exists it,
        parsed_map ps !! form = Some it /\ 0 <= it /\
        clusters !! Z.to_nat it = Some (prefix_features pm substrings cluster) /\
        prefixes_known pm substrings cluster.
Proof.
  unfold brown_clusters_parse. cbn [mbind option_bind].
  destruct args as [|path lengths]; [discriminate|].
  destruct file as [lines|]; [|discriminate]. cbn [mbind option_bind tail].
  destruct (prefix_lengths parse_int lengths [npos]) as [substrings|]; [|discriminate].
  cbn [mbind option_bind].
  destruct (for_each lines _ _) as [st|] eqn:E; [|discriminate].
  cbn [mbind option_bind]. intros [= <- <-] Hlen.
  destruct (brown_lines_built split window (parsed_total_features base) substrings lines []
              _ st E Hlen) as [[H1 H2] _].
  { constructor; cbn.
    - intros cluster id. rewrite fin_maps.lookup_empty. discriminate.
    - intros line cluster form Hin. apply elem_of_nil in Hin. contradiction. }
  exists lines, substrings, (bs_prefixes_map st). split; [reflexivity|]. split; [reflexivity|].
  intros line cluster form Hin Hline. cbn [app] in H2.
  destruct (H2 _ _ _ Hin Hline) as (id & Hform & Hcl).
  destruct (H1 _ _ Hcl) as (Hid & Hrec & Hknown).
  exists id. cbn. auto.
Qed.

Lemma brown_clusters_parse_prefixes_witness :
  exists lines substrings pm,
    Some [bank_line] = Some lines /\
    prefix_lengths parse_decimal (tail ["clusters.txt"; "4"; "6"]) [npos] = Some substrings /\
    forall line cluster form,
      line ∈ lines -> split_on line "009"%char = [cluster; form] ->
      exists it,
        parsed_map bank_parsed !! form = Some it /\ 0 <= it /\
        [[3; 8]] !! Z.to_nat it = Some (prefix_features pm substrings cluster) /\
        prefixes_known pm substrings cluster.
Proof.
  apply (brown_clusters_parse_prefixes split_on parse_decimal bank_base 2
           ["clusters.txt"; "4"; "6"] (Some [bank_line]) bank_parsed [[3; 8]]).
  - vm_compute. reflexivity.
  - cbn. lia.
Defined.

(** ** Gazetteers marks every known token *)

(** The id of a stored feature moved to the band of a role. *)
Definition role_id (w : Z) (feature : ner_feature) (role : Z) : ner_feature :=
  wrap32 (feature + role * (2 * w + 1)).

(** The roles [G] and [U] of all features of one entry emitted around
    token [i]. *)
Lemma unigram_emitted (gazetteers_info : list gazetteers.gazetteer_info) (i : Z)
    (features : list ner_feature) :
  forall c : frame,
  frame_wf c -> gazetteers_fit gazetteers_info c -> 0 <= i < size (sentence c) ->
  exists c',
    for_each features
      (fun feature c =>
         c ← emit_role i feature gazetteers.G c;
         emit_role i feature gazetteers.U c) c = Some c' /\
    frame_wf c' /\ same_shape c c' /\ appended (fun _ => True) c c' /\ map c' = map c /\
    forall feature role,
      feature ∈ features -> role = gazetteers.G \/ role = gazetteers.U ->
      role_id (window c) feature role <> ner_feature_unknown ->
      emitted_around c' (role_id (window c) feature role) i.
Proof.
  induction features as [|feature features IH]; intros c W X Hi; cbn [for_each].
  - exists c. split; [reflexivity|]. split; [assumption|]. split; [apply same_shape_refl|].
    split; [apply appended_refl|]. split; [reflexivity|].
    intros f role Hin. apply elem_of_nil in Hin. contradiction.
  - pose proof (fw_window _ W) as Hw. destruct X as [X1 X2].
    unfold emit_role at 1 2, role_feature. unfold gazetteers.I in X2.
    unfold gazetteers.G at 1 2, gazetteers.U at 1 2.
    rewrite !in_int_true by lia. cbn [andb mbind option_bind].
    destruct (emit_in_window_any c i (wrap32 (feature + 0 * (2 * window c + 1))) W Hi)
      as (c1 & -> & W1 & S1 & A1 & M1 & Em1).
    cbn [mbind option_bind]. rewrite (ss_window _ _ S1).
    rewrite !in_int_true by lia. cbn [andb mbind option_bind].
    assert (0 <= i < size (sentence c1)) as Hi1 by (rewrite (ss_size _ _ S1); assumption).
    destruct (emit_in_window_any c1 i (wrap32 (feature + 1 * (2 * window c + 1))) W1 Hi1)
      as (c2 & -> & W2 & S2 & A2 & M2 & Em2).
    assert (same_shape c c2) as S02 by (eapply same_shape_trans; eassumption).
    destruct (IH c2 W2) as (c3 & -> & W3 & S3 & A3 & M3 & Em3).
    { split; [intros key it; rewrite M2, M1; apply X1|].
      rewrite (ss_window _ _ S02). unfold gazetteers.I. assumption. }
    { rewrite (ss_size _ _ S02). assumption. }
    exists c3. split; [reflexivity|]. split; [assumption|].
    split; [eapply same_shape_trans; eassumption|].
    split; [eapply appended_trans; [eapply appended_trans|]; eassumption|].
    split; [congruence|].
    intros f role Hin Hrole Hf.
    apply elem_of_cons in Hin as [->|Hin].
    + destruct Hrole as [->| ->]; unfold role_id, gazetteers.G, gazetteers.U in *.
      * apply (emitted_around_appended (fun _ => True) c1 c3); try assumption.
        -- eapply same_shape_trans; eassumption.
        -- eapply appended_trans; eassumption.
        -- apply Em1. assumption.
      * apply (emitted_around_appended (fun _ => True) c2 c3); try assumption.
        apply Em2. assumption.
    + rewrite <- (ss_window _ _ S02). apply Em3; try assumption.
      rewrite (ss_window _ _ S02). assumption.
Qed.



(** ** The bands [lookup] reserves

    The interner is the only code that writes [map] and the counter; what
    follows tracks, through every [process_sentence], the bands it hands
    out. *)

(** The interning state is in order below the counter value [t]: every key
    of [map] owns the [2w+1] ids around its centre, all of them in
    [[0, t)], and the bands of two keys do not meet. *)
Record allotted (c : frame) (t : Z) : Prop := {
  al_window : 0 <= window c;
  al_counter : 0 <= t;
  al_below : forall key f, map c !! key = Some f -> window c <= f /\ f + window c < t;
  al_apart : forall k1 k2 f1 f2,
    k1 <> k2 -> map c !! k1 = Some f1 -> map c !! k2 = Some f2 ->
    f1 + 2 * window c < f2 \/ f2 + 2 * window c < f1 }.

(** The counter after [n] bands were taken from it, one at a time. *)
Definition bumped (w : Z) (n : nat) (t : ner_feature) : ner_feature :=
  Nat.iter n (fun t => wrap32 (t + (2 * w + 1))) t.

(** What a run does to the interning state: the window stays, keys are only
    added, and for some [n] exactly [n] keys are new, the counter advanced by
    [n] bands, and an interning state in order stays in order as long as the
    counter does not wrap; without a counter nothing is interned. *)
Definition allots (c c' : frame) : Prop :=
  window c' = window c /\ map c ⊆ map c' /\
  (total_features c = None -> map c' = map c) /\
  exists n : nat,
    total_features c' = bumped (window c) n <$> total_features c /\
    base.size (map c') = (base.size (map c) + n)%nat /\
    forall t, total_features c = Some t ->
      t + (2 * window c + 1) * Z.of_nat n < 2 ^ 32 ->
      allotted c t -> allotted c' (t + (2 * window c + 1) * Z.of_nat n).

(** A step that, whenever it returns, has treated the interning state as
    [allots] says. *)
Definition keeps (body : frame -> option frame) : Prop :=
  forall c c', body c = Some c' -> allots c c'.

Lemma bumped_small (w : Z) (n : nat) (t : Z) :
  0 <= w -> 0 <= t -> t + (2 * w + 1) * Z.of_nat n < 2 ^ 32 ->
  bumped w n t = t + (2 * w + 1) * Z.of_nat n.
Proof.
  intros Hw Ht. induction n as [|n IH]; intros Hn; [cbn; lia|].
  change (bumped w (S n) t) with (wrap32 (bumped w n t + (2 * w + 1))).
  rewrite IH by nia. unfold wrap32. rewrite Z.mod_small by nia. lia.
Qed.

Lemma bumped_add (w : Z) (n m : nat) (t : Z) :
  bumped w (n + m) t = bumped w m (bumped w n t).
Proof. unfold bumped. rewrite Nat.add_comm. apply Nat.iter_add. Qed.

(** A step that leaves [window], [map] and the counter alone. *)
Lemma allots_same (c c' : frame) :
  window c' = window c -> map c' = map c -> total_features c' = total_features c ->
  allots c c'.
Proof.
  intros Hw Hm Ht. split; [assumption|]. split; [rewrite Hm; reflexivity|].
  split; [auto|]. exists O. split; [rewrite Ht; destruct (total_features c); reflexivity|].
  split; [rewrite Hm; lia|].
  intros t _ _ [A1 A2 A3 A4]. replace (t + (2 * window c + 1) * Z.of_nat 0) with t by lia.
  constructor; rewrite ?Hw, ?Hm; assumption.
Qed.

Lemma allots_refl (c : frame) : allots c c.
Proof. apply allots_same; reflexivity. Qed.

Lemma allots_trans (a b c : frame) : allots a b -> allots b c -> allots a c.
Proof.
  intros (Hw1 & Hs1 & Hi1 & n1 & Ht1 & Hn1 & Ha1) (Hw2 & Hs2 & Hi2 & n2 & Ht2 & Hn2 & Ha2).
  split; [congruence|]. split; [etrans; eassumption|].
  split.
  { intros Hnone. rewrite Hnone in Ht1. cbn in Ht1. rewrite Hi2, Hi1; auto. }
  exists (n1 + n2)%nat. split.
  { rewrite Ht2, Ht1, Hw1. destruct (total_features a); cbn; [|reflexivity].
    rewrite bumped_add. reflexivity. }
  split; [lia|].
  intros t Et Hfit A. pose proof (al_window _ _ A) as Hw. pose proof (al_counter _ _ A) as H0.
  assert (t + (2 * window a + 1) * Z.of_nat n1 < 2 ^ 32) as Hfit1 by nia.
  specialize (Ha1 t Et Hfit1 A).
  rewrite Et in Ht1. cbn in Ht1. rewrite bumped_small in Ht1 by assumption.
  replace (t + (2 * window a + 1) * Z.of_nat (n1 + n2)%nat)
    with (t + (2 * window a + 1) * Z.of_nat n1 + (2 * window b + 1) * Z.of_nat n2)
    by (rewrite Hw1; lia).
  apply Ha2; [assumption| |assumption]. rewrite Hw1. lia.
Qed.

(** [lookup] takes the next band for a new key and nothing otherwise. *)
Lemma allots_lookup (key : string) (c c' : frame) (f : ner_feature) :
  lookup key c = (f, c') -> allots c c'.
Proof.
  unfold lookup. case_decide as Hk; [intros [= _ <-]; apply allots_refl|].
  destruct (map c !! key) as [g|] eqn:Eg; [intros [= _ <-]; apply allots_refl|].
  destruct (total_features c) as [t|] eqn:Et; [|intros [= _ <-]; apply allots_refl].
  intros [= _ <-]. split; [reflexivity|]. cbn [map window total_features].
  split; [apply insert_subseteq; assumption|]. split; [rewrite Et; discriminate|].
  exists 1%nat. split; [rewrite Et; reflexivity|].
  split; [rewrite map_size_insert_None by assumption; lia|].
  intros t0 Et0 Hfit [A1 A2 A3 A4]. rewrite Et in Et0. injection Et0 as <-.
  assert (wrap32 (window c + t) = window c + t) as Ef
    by (unfold wrap32; rewrite Z.mod_small; lia).
  rewrite Ef. constructor; cbn [map window].
  - assumption.
  - lia.
  - intros k g Hkg. destruct (decide (k = key)) as [->|Hne].
    + rewrite lookup_insert_eq in Hkg. injection Hkg as <-. lia.
    + rewrite lookup_insert_ne in Hkg by congruence. destruct (A3 k g Hkg). lia.
  - intros k1 k2 f1 f2 Hne H1 H2.
    destruct (decide (k1 = key)) as [->|Hne1]; destruct (decide (k2 = key)) as [->|Hne2].
    + congruence.
    + rewrite lookup_insert_eq in H1. rewrite lookup_insert_ne in H2 by congruence.
      injection H1 as <-. destruct (A3 k2 f2 H2). lia.
    + rewrite lookup_insert_eq in H2. rewrite lookup_insert_ne in H1 by congruence.
      injection H2 as <-. destruct (A3 k1 f1 H1). lia.
    + rewrite lookup_insert_ne in H1 by congruence.
      rewrite lookup_insert_ne in H2 by congruence. exact (A4 k1 k2 f1 f2 Hne H1 H2).
Qed.

Lemma allots_with_buffer (c : frame) (b : string) : allots c (with_buffer c b).
Proof. apply allots_same; reflexivity. Qed.

Lemma keeps_on_sentence (g : ner_sentence -> option ner_sentence) : keeps (on_sentence g).
Proof.
  intros c c'. unfold on_sentence. destruct (g (sentence c)) as [s|]; [|discriminate].
  intros [= <-]. apply allots_same; reflexivity.
Qed.

Lemma keeps_emit_in_window (i : Z) (f : ner_feature) : keeps (emit_in_window i f).
Proof. intros c c'. unfold emit_in_window. apply keeps_on_sentence. Qed.

Lemma keeps_when (b : bool) (k : frame -> option frame) : keeps k -> keeps (when b k).
Proof. intros Hk c c'. destruct b; cbn; [apply Hk|]. intros [= <-]. apply allots_refl. Qed.

Lemma keeps_bind (k1 k2 : frame -> option frame) :
  keeps k1 -> keeps k2 -> keeps (fun c => c1 ← k1 c; k2 c1).
Proof.
  intros H1 H2 c c'. cbn beta. destruct (k1 c) as [c1|] eqn:E1; [|discriminate].
  cbn [mbind option_bind]. intros E2. eapply allots_trans; eauto.
Qed.

Lemma keeps_for_loop (body : Z -> frame -> option frame) (n : nat) :
  (forall i, keeps (body i)) -> forall lo, keeps (for_loop n lo body).
Proof.
  intros Hbody. induction n as [|n IH]; intros lo c c'; cbn [for_loop].
  - intros [= <-]. apply allots_refl.
  - destruct (body lo c) as [c1|] eqn:E1; [|discriminate]. intros E2.
    eapply allots_trans; [eapply Hbody; eassumption|eapply IH; eassumption].
Qed.

Lemma keeps_for_each {A : Type} (body : A -> frame -> option frame) (l : list A) :
  (forall x, keeps (body x)) -> keeps (for_each l body).
Proof.
  intros Hbody. induction l as [|x l IH]; intros c c'; cbn [for_each].
  - intros [= <-]. apply allots_refl.
  - destruct (body x c) as [c1|] eqn:E1; [|discriminate]. intros E2.
    eapply allots_trans; [eapply Hbody; eassumption|eapply IH; eassumption].
Qed.

Lemma keeps_for_tokens (body : Z -> frame -> option frame) :
  (forall i, keeps (body i)) -> keeps (for_tokens body).
Proof. intros Hbody c c'. unfold for_tokens. apply keeps_for_loop. assumption. Qed.

(** ** Every processor interns through [lookup] only *)

Lemma keeps_brown_clusters (clusters : list (list ner_feature)) :
  keeps (brown_clusters_process_sentence clusters).
Proof.
  apply keeps_for_tokens. intros i c c'. unfold brown_clusters_token.
  destruct (word_at c i) as [w|]; [|discriminate]. cbn [mbind option_bind].
  destruct (map c !! raw_lemma w) as [it|]; [|intros [= <-]; apply allots_refl].
  destruct (if it <? 0 then None else clusters !! Z.to_nat it) as [cluster|]; [|discriminate].
  cbn [mbind option_bind]. apply keeps_for_each. intros f. apply keeps_emit_in_window.
Qed.

Lemma keeps_lookup_emit (key : string) (emit : ner_feature -> frame -> option frame) :
  (forall f, keeps (emit f)) ->
  keeps (fun c => let '(f, c) := lookup key c in emit f c).
Proof.
  intros Hemit c c'. cbn beta. destruct (lookup key c) as [f c1] eqn:El. intros E.
  eapply allots_trans; [eapply allots_lookup; eassumption|eapply Hemit; eassumption].
Qed.

Lemma keeps_czech_lemma_term : keeps czech_lemma_term_process_sentence.
Proof.
  apply keeps_for_tokens. intros i c c'. unfold czech_lemma_term_token.
  destruct (word_at c i) as [w|]; [|discriminate]. cbn [mbind option_bind].
  apply keeps_for_loop. clear c c'. intros pos c c'. unfold czech_lemma_term_pos.
  destruct (String.get (Z.to_nat pos) (lemma_comments w)) as [a|]; [|discriminate].
  destruct (String.get (Z.to_nat (pos + 1)) (lemma_comments w)) as [b|]; [|discriminate].
  cbn [mbind option_bind].
  destruct (Ascii.eqb a "_" && Ascii.eqb b ";"); [|intros [= <-]; apply allots_refl].
  destruct (String.get (Z.to_nat (pos + 2)) (lemma_comments w)) as [d|]; [|discriminate].
  cbn [mbind option_bind]. intros E.
  apply (allots_trans _ (with_buffer c (String d EmptyString))); [apply allots_with_buffer|].
  revert E. apply (keeps_lookup_emit _ (emit_in_window i)). intros f. apply keeps_emit_in_window.
Qed.

Lemma keeps_field (field : ner_word -> string) : keeps (field_process_sentence field).
Proof.
  unfold field_process_sentence. apply keeps_bind.
  - apply keeps_for_tokens. intros i c c'. unfold field_token.
    destruct (word_at c i) as [w|]; [|discriminate]. cbn [mbind option_bind].
    apply (keeps_lookup_emit _ (emit_in_window i)). intros f. apply keeps_emit_in_window.
  - intros c c'. apply keeps_on_sentence.
Qed.

Section keeps_capitalization.
Variable utf8_decode : string -> Z * string.
Variable unicode_category : Z -> Z.
Variables unicode_Lut unicode_Ll : Z.

Lemma capitalization_scan_allots (i : Z) (fst_cap : ner_feature) (fuel : nat) :
  forall (str : string) (first was_upper was_lower : bool) (c : frame) r,
  capitalization_scan utf8_decode unicode_category unicode_Lut unicode_Ll
    fuel i fst_cap str first was_upper was_lower c = Some r ->
  allots c (snd r).
Proof.
  induction fuel as [|fuel IH]; intros str first was_upper was_lower c r; [discriminate|].
  cbn [capitalization_scan]. destruct (utf8_decode str) as [chr rest].
  destruct (chr =? 0); [intros [= <-]; apply allots_refl|].
  match goal with
  | |- context [when ?b (emit_in_window i fst_cap) c] =>
      destruct (when b (emit_in_window i fst_cap) c) as [c1|] eqn:E1; [|discriminate];
      apply (keeps_when b _ (keeps_emit_in_window i fst_cap)) in E1
  end.
  cbn [mbind option_bind]. intros E. eapply allots_trans; [eassumption|]. eapply IH; eassumption.
Qed.

Lemma keeps_capitalization (field : ner_word -> string) :
  keeps (capitalization_process_sentence utf8_decode unicode_category unicode_Lut unicode_Ll
           field).
Proof.
  intros c c'. unfold capitalization_process_sentence.
  destruct (lookup "f" (with_buffer c "f")) as [fst_cap c1] eqn:E1.
  destruct (lookup "a" (with_buffer c1 "a")) as [all_cap c2] eqn:E2.
  destruct (lookup "m" (with_buffer c2 "m")) as [mixed_cap c3] eqn:E3.
  intros E.
  apply (allots_trans _ c1);
    [eapply allots_trans; [apply allots_with_buffer|eapply allots_lookup; eassumption]|].
  apply (allots_trans _ c2);
    [eapply allots_trans; [apply allots_with_buffer|eapply allots_lookup; eassumption]|].
  apply (allots_trans _ c3);
    [eapply allots_trans; [apply allots_with_buffer|eapply allots_lookup; eassumption]|].
  revert E. apply keeps_for_tokens. clear. intros i c c'. unfold capitalization_token.
  destruct (word_at c i) as [w|]; [|discriminate]. cbn [mbind option_bind].
  destruct (capitalization_scan utf8_decode unicode_category unicode_Lut unicode_Ll
              (S (String.length (field w))) i fst_cap (field w) true false false c)
    as [[[was_upper was_lower] c1]|] eqn:Escan; [|discriminate].
  apply capitalization_scan_allots in Escan. cbn [snd] in Escan.
  cbn [mbind option_bind]. intros E. eapply allots_trans; [eassumption|].
  revert E. apply (keeps_bind (when _ _) (when _ _)); apply keeps_when, keeps_emit_in_window.
Qed.
End keeps_capitalization.

Lemma keeps_emit_role (i : Z) (feature : ner_feature) (role : Z) :
  keeps (emit_role i feature role).
Proof.
  intros c c'. unfold emit_role.
  destruct (role_feature (window c) feature role) as [f|]; [|discriminate].
  cbn [mbind option_bind]. apply keeps_emit_in_window.
Qed.

Lemma keeps_gazetteers_extend (gazetteers_info : list gazetteers.gazetteer_info) (i : Z)
    (fuel : nat) :
  forall (j : Z) (it : ner_feature), keeps (gazetteers_extend fuel gazetteers_info i j it).
Proof.
  induction fuel as [|fuel IH]; intros j it c c'; [discriminate|].
  cbn [gazetteers_extend].
  destruct (info_at gazetteers_info it) as [info|]; [|discriminate]. cbn [mbind option_bind].
  destruct (gazetteers.prefix_of_longer info && (j <? size (sentence c)));
    [|intros [= <-]; apply allots_refl].
  destruct (word_at c i) as [wi|]; [|discriminate].
  destruct (word_at c j) as [wj|]; [|discriminate]. cbn [mbind option_bind].
  set (c1 := if j =? i + 1 then with_buffer c (raw_lemma wi) else c).
  set (c2 := with_buffer c1 (push_back (buffer c1) " ")).
  set (c3 := with_buffer c2 (String.append (buffer c2) (raw_lemma wj))).
  assert (allots c c3) as H3.
  { apply (allots_trans _ c1); [unfold c1; destruct (j =? i + 1);
                                 [apply allots_with_buffer|apply allots_refl]|].
    apply (allots_trans _ c2); apply allots_with_buffer. }
  destruct (map c3 !! buffer c3) as [it'|]; [|intros [= <-]; assumption].
  destruct (info_at gazetteers_info it') as [info'|]; [|discriminate].
  cbn [mbind option_bind].
  destruct (for_each (gazetteers.features info')
              (fun feature c =>
                 for_loop (Z.to_nat (j - i + 1)) i (gazetteers_span i j feature) c) c3)
    as [c4|] eqn:E4; [|discriminate].
  cbn [mbind option_bind]. intros E.
  apply (allots_trans _ c3); [assumption|]. apply (allots_trans _ c4); [|eapply IH; eassumption].
  revert E4. apply keeps_for_each. intros feature. apply keeps_for_loop. intros g.
  unfold gazetteers_span. apply (keeps_bind (emit_role g feature gazetteers.G));
    apply keeps_emit_role.
Qed.

Lemma keeps_gazetteers (gazetteers_info : list gazetteers.gazetteer_info) :
  keeps (gazetteers_process_sentence gazetteers_info).
Proof.
  apply keeps_for_tokens. intros i c c'. unfold gazetteers_token.
  destruct (word_at c i) as [w|]; [|discriminate]. cbn [mbind option_bind].
  destruct (map c !! raw_lemma w) as [it|]; [|intros [= <-]; apply allots_refl].
  destruct (info_at gazetteers_info it) as [info|]; [|discriminate]. cbn [mbind option_bind].
  apply (keeps_bind
           (for_each (gazetteers.features info)
              (fun feature c =>
                 c ← emit_role i feature gazetteers.G c;
                 emit_role i feature gazetteers.U c))
           (fun c => gazetteers_extend (S (Z.to_nat (size (sentence c) - (i + 1))))
                       gazetteers_info i (i + 1) it c)).
  - apply keeps_for_each. intros feature.
    apply (keeps_bind (emit_role i feature gazetteers.G)); apply keeps_emit_role.
  - intros c1 c2. apply keeps_gazetteers_extend.
Qed.

Lemma keeps_number_time_value : keeps number_time_value_process_sentence.
Proof.
  intros c c'. unfold number_time_value_process_sentence.
  destruct (lookup "H" (with_buffer c "H")) as [hour c1] eqn:E1.
  destruct (lookup "M" (with_buffer c1 "M")) as [minute c2] eqn:E2.
  destruct (lookup "t" (with_buffer c2 "t")) as [time c3] eqn:E3.
  destruct (lookup "d" (with_buffer c3 "d")) as [day c4] eqn:E4.
  destruct (lookup "m" (with_buffer c4 "m")) as [month c5] eqn:E5.
  destruct (lookup "y" (with_buffer c5 "y")) as [year c6] eqn:E6.
  intros E.
  apply (allots_trans _ c1);
    [eapply allots_trans; [apply allots_with_buffer|eapply allots_lookup; eassumption]|].
  apply (allots_trans _ c2);
    [eapply allots_trans; [apply allots_with_buffer|eapply allots_lookup; eassumption]|].
  apply (allots_trans _ c3);
    [eapply allots_trans; [apply allots_with_buffer|eapply allots_lookup; eassumption]|].
  apply (allots_trans _ c4);
    [eapply allots_trans; [apply allots_with_buffer|eapply allots_lookup; eassumption]|].
  apply (allots_trans _ c5);
    [eapply allots_trans; [apply allots_with_buffer|eapply allots_lookup; eassumption]|].
  apply (allots_trans _ c6);
    [eapply allots_trans; [apply allots_with_buffer|eapply allots_lookup; eassumption]|].
  revert E. apply keeps_for_tokens. clear. intros i c c'. unfold number_time_value_token.
  destruct (word_at c i) as [w|]; [|discriminate]. cbn [mbind option_bind].
  destruct (scan_digits (form w) false 0) as [[str digit] num].
  apply (keeps_bind (when _ _) (when _ _)).
  - apply keeps_when.
    repeat (apply (keeps_bind (when _ _)); [apply keeps_when, keeps_emit_in_window|]).
    apply keeps_when, keeps_emit_in_window.
  - apply keeps_when. intros c1 c2.
    destruct (scan_digits (advance str) false 0) as [[str' digit'] num'].
    apply keeps_when, keeps_emit_in_window.
Qed.

Lemma keeps_previous_stage : keeps previous_stage_process_sentence.
Proof.
  apply keeps_for_tokens. intros i c c'. unfold previous_stage_token.
  destruct (previous_stage_at c i) as [ps|]; [|discriminate]. cbn [mbind option_bind].
  destruct (ps_bilou ps =? bilou_type_unknown); [intros [= <-]; apply allots_refl|].
  destruct (append_encoded (buffer (with_buffer c EmptyString)) (to_int (ps_bilou ps)))
    as [b1|]; [|discriminate].
  cbn [mbind option_bind].
  destruct (append_encoded (buffer (with_buffer (with_buffer c EmptyString) (push_back b1 " ")))
              (to_int (ps_entity ps))) as [b2|]; [|discriminate].
  cbn [mbind option_bind]. intros E.
  apply (allots_trans _ (with_buffer (with_buffer (with_buffer c EmptyString)
                                        (push_back b1 " ")) b2)).
  { apply allots_same; reflexivity. }
  revert E.
  apply (keeps_lookup_emit _ (fun f c => on_sentence (apply_in_range (to_int i) f 1 (window c)) c)).
  intros f c1 c2. apply keeps_on_sentence.
Qed.

Lemma keeps_url_email_detector (url_detector_detect : string -> url_type)
    (url email : entity_type) :
  keeps (url_email_detector_process_sentence url_detector_detect url email).
Proof.
  apply keeps_for_tokens. intros i c c'. unfold url_email_detector_token.
  destruct (word_at c i) as [w|]; [|discriminate]. cbn [mbind option_bind].
  destruct (url_detector_detect (form w)); [intros [= <-]; apply allots_refl| |];
    (destruct (probabilities_at c i) as [p|]; [|discriminate]; cbn [mbind option_bind];
     destruct (local_filled p); intros [= <-]; [apply allots_refl|apply allots_same; reflexivity]).
Qed.

(** Whatever the processor, a run that returns has interned through
    [lookup] only. *)
Lemma keeps_process_sentence (utf8_decode : string -> Z * string)
    (unicode_category : Z -> Z) (unicode_Lut unicode_Ll : Z)
    (url_detector_detect : string -> url_type) (p : feature_processor) :
  keeps (process_sentence utf8_decode unicode_category unicode_Lut unicode_Ll
           url_detector_detect p).
Proof.
  destruct p; cbn [process_sentence].
  - apply keeps_brown_clusters.
  - intros c c' [= <-]. apply allots_refl.
  - apply keeps_czech_lemma_term.
  - apply keeps_field.
  - apply keeps_capitalization.
  - apply keeps_gazetteers.
  - apply keeps_field.
  - apply keeps_number_time_value.
  - apply keeps_previous_stage.
  - apply keeps_field.
  - apply keeps_capitalization.
  - apply keeps_field.
  - apply keeps_url_email_detector.
Qed.

(** ** C2: band confinement *)

(** The centres a processor holds a reserved band for: the ids [lookup]
    interned in [map], the features [brown_clusters::parse] stored, and the
    features [gazetteers::parse] stored, moved to one of the five role
    bands. *)
Definition processor_centre (p : feature_processor) : frame -> ner_feature -> Prop :=
  match p with
  | BrownClusters clusters => cluster_feature clusters
  | Gazetteers gazetteers_info => gazetteer_feature gazetteers_info
  | CzechAddContainers | URLEmailDetector _ _ => fun _ _ => False
  | _ => interned
  end.

(** [x] is the centre [f] plus an offset in [[-w, w]], and inside
    [[f-w, f+w]] when that band is inside the id space. *)
Definition around (w : Z) (f x : ner_feature) : Prop :=
  exists d, - w <= d <= w /\ x = wrap32 (f + d) /\
    (w <= f <= 2 ^ 32 - 1 - w -> f - w <= x <= f + w).

(** The ids around the sentinel [window] that [lookup_empty()] and the
    lookup of an empty key return: the band [[0, 2w]], which no [lookup]
    takes from the counter.  Only Form, Lemma, RawLemma and Tag emit
    there. *)
Definition sentinel_band (p : feature_processor) (c : frame) (x : ner_feature) : Prop :=
  match p with
  | Form | Lemma | RawLemma | Tag => 0 <= x <= 2 * window c
  | _ => False
  end.

(** The invariant as the specification states it: every id [c'] holds
    beyond those of [c] is within [w] of a centre the processor holds a
    reserved band for. *)
Definition confined_to_reserved (p : feature_processor) (c c' : frame) : Prop :=
  forall (pos : nat) (F : list ner_feature),
    features (sentence c) !! pos = Some F ->
    exists added,
      features (sentence c') !! pos = Some (F ++ added) /\
      Forall (fun x => exists f, processor_centre p c' f /\ in_band (window c) f x) added.

(** What holds: every id [c'] holds beyond those of [c] is within [w] of a
    centre the processor holds a reserved band for, or lies in the band of
    the sentinel. *)
Definition confined (p : feature_processor) (c c' : frame) : Prop :=
  forall (pos : nat) (F : list ner_feature),
    features (sentence c) !! pos = Some F ->
    exists added,
      features (sentence c') !! pos = Some (F ++ added) /\
      Forall (fun x =>
                (exists f, processor_centre p c' f /\ around (window c) f x) \/
                sentinel_band p c x)
        added.

Lemma in_band_around (w : Z) (f x : ner_feature) : in_band w f x -> around w f x.
Proof.
  intros (d & Hd & ->). exists d. split; [assumption|]. split; [reflexivity|].
  intros Hf. apply (in_band_exact w f); [assumption|]. exists d. auto.
Qed.

Lemma in_band_sentinel (c : frame) (x : ner_feature) :
  frame_wf c -> in_band (window c) (lookup_empty c) x -> 0 <= x <= 2 * window c.
Proof.
  intros W (d & Hd & ->). pose proof (fw_window _ W). pose proof (fw_int _ W).
  pose proof (wf_size _ (fw_sentence _ W)).
  unfold lookup_empty, wrap32. rewrite (Z.mod_small (window c)) by lia.
  rewrite Z.mod_small; lia.
Qed.

Lemma grows_confined (p : feature_processor) (c c' : frame) :
  frame_wf c -> grows (centres p) c c' -> confined p c c'.
Proof.
  intros W [Hs Ha] pos F HF. destruct (Ha pos F HF) as (added & E & Hall).
  exists added. split; [assumption|]. eapply Forall_impl; [exact Hall|].
  intros x (f & Hf & Hb). rewrite (ss_window _ _ Hs) in Hb.
  assert (lookup_empty c' = lookup_empty c) as Hempty
    by (unfold lookup_empty; now rewrite (ss_window _ _ Hs)).
  assert (interned_or_empty c' f ->
          (exists f, interned c' f /\ around (window c) f x) \/ 0 <= x <= 2 * window c) as Hfield.
  { intros [->|Hi]; [right|left; exists f; auto using in_band_around].
    rewrite Hempty in Hb. apply in_band_sentinel; assumption. }
  destruct p; cbn [centres processor_centre sentinel_band] in *;
    first [exact (Hfield Hf) | left; exists f; auto using in_band_around].
Qed.

(** The invariant as the specification states it fails for the border
    words: in training with window 2 and the counter at 1, Form interns "a"
    at 3 and "b" at 8, and the rounds of the border words put the id 0 on
    token 1; it is within 2 of neither centre. *)
Lemma band_confinement_as_stated_fails :
  ~ (exists c',
       process_sentence ascii_decode ascii_category ascii_Lut ascii_Ll detect_at_sign
         Form (training_frame ["a"; "b"; "a"]) = Some c' /\
       confined_to_reserved Form (training_frame ["a"; "b"; "a"]) c').
Proof.
  intros (c' & E & H).
  assert (process_sentence ascii_decode ascii_category ascii_Lut ascii_Ll detect_at_sign
            Form (training_frame ["a"; "b"; "a"]) =
          Some (Frame (set_features (plain_sentence ["a"; "b"; "a"])
                         [[3; 7; 1; 3; 4]; [4; 8; 2; 4; 0]; [5; 9; 3; 1; 0]])
                  2 (<["b" := 8]> (<["a" := 3]> ∅)) (Some 11) EmptyString)) as E'
    by (vm_compute; reflexivity).
  rewrite E' in E. injection E as <-.
  destruct (H 1%nat [] eq_refl) as (added & Ea & Hall).
  cbn in Ea. injection Ea as <-.
  apply Forall_lookup_1 with (i := 4%nat) (x := 0) in Hall; [|reflexivity].
  destruct Hall as (f & (key & Hkey) & (d & Hd & Hx)).
  cbn [map window training_frame] in *.
  assert (f = 3 \/ f = 8) as Hf.
  { apply lookup_insert_Some in Hkey as [[_ <-]|[_ Hkey]]; [auto|].
    apply lookup_insert_Some in Hkey as [[_ <-]|[_ Hkey]]; [auto|].
    rewrite fin_maps.lookup_empty in Hkey. discriminate. }
  unfold wrap32 in Hx. rewrite Z.mod_small in Hx by lia. lia.
Qed.

(** C2, amended. For every processor and every frame it can run in,
    [process_sentence] returns and every id it appends to any [features[p]]
    is a centre [f] plus an offset in [[-w, w]], inside [[f-w, f+w]], where
    [f] is an id interned in [map], a stored cluster feature or a stored
    gazetteer feature moved to one of its five role bands; or, for Form,
    Lemma, RawLemma and Tag only, the id lies in [[0, 2w]], the band of the
    sentinel [window] that no [lookup] reserves.  The interning state is
    written by [lookup] only: one band of [2w+1] ids is taken from the
    counter for each new key, and as long as the counter does not wrap the
    bands of the keys stay below the counter and apart from each other. *)
Theorem band_confinement (utf8_decode : string -> Z * string) (unicode_category : Z -> Z)
    (unicode_Lut unicode_Ll : Z) (url_detector_detect : string -> url_type)
    (p : feature_processor) (c : frame) :
  (forall str chr rest,
     utf8_decode str = (chr, rest) -> chr <> 0 -> (String.length rest < String.length str)%nat) ->
  frame_wf c -> processor_wf p c ->
  exists c',
    process_sentence utf8_decode unicode_category unicode_Lut unicode_Ll url_detector_detect p c
      = Some c' /\
    confined p c c' /\ allots c c'.
Proof.
  intros Hdec W X.
  assert (forall (extra : frame -> Prop),
            step_ok (centres p) extra
              (process_sentence utf8_decode unicode_category unicode_Lut unicode_Ll
                 url_detector_detect p) c ->
            exists c',
              process_sentence utf8_decode unicode_category unicode_Lut unicode_Ll
                url_detector_detect p c = Some c' /\
              confined p c c' /\ allots c c') as Hstep.
  { intros extra (c' & E & _ & _ & G). exists c'. split; [assumption|].
    split; [apply grows_confined; assumption|].
    eapply keeps_process_sentence; eassumption. }
  destruct p; cbn [processor_wf] in X.
  - apply (Hstep (indexes clusters)). apply brown_clusters_process_sentence_ok; assumption.
  - exists c. split; [reflexivity|]. split; [|apply allots_refl].
    intros pos F HF. exists []. rewrite app_nil_r. auto.
  - eapply Hstep. apply czech_lemma_term_process_sentence_ok; assumption.
  - eapply Hstep. apply (field_process_sentence_ok form); assumption.
  - eapply Hstep. apply capitalization_process_sentence_ok; assumption.
  - eapply Hstep. apply gazetteers_process_sentence_ok; assumption.
  - eapply Hstep. apply (field_process_sentence_ok lemma_id); assumption.
  - eapply Hstep. apply number_time_value_process_sentence_ok; assumption.
  - eapply Hstep. apply previous_stage_process_sentence_ok; assumption.
  - eapply Hstep. apply (field_process_sentence_ok raw_lemma); assumption.
  - eapply Hstep. apply capitalization_process_sentence_ok; assumption.
  - eapply Hstep. apply (field_process_sentence_ok tag); assumption.
  - destruct (url_email_detector_run url_detector_detect url email c W X) as (c' & E & R).
    exists c'. split; [assumption|]. split.
    + intros pos F HF. exists []. rewrite app_nil_r, (ur_features _ _ _ _ _ _ R). auto.
    + eapply (keeps_process_sentence utf8_decode unicode_category unicode_Lut unicode_Ll
                url_detector_detect (URLEmailDetector url email)). exact E.
Qed.

Lemma band_confinement_witness :
  exists c',
    process_sentence ascii_decode ascii_category ascii_Lut ascii_Ll detect_at_sign
      Form (training_frame ["a"; "b"; "a"]) = Some c' /\
    confined Form (training_frame ["a"; "b"; "a"]) c' /\
    allots (training_frame ["a"; "b"; "a"]) c' /\
    allotted c' 11.
Proof.
  destruct (band_confinement ascii_decode ascii_category ascii_Lut ascii_Ll detect_at_sign
              Form (training_frame ["a"; "b"; "a"])) as (c' & E & C & A).
  - exact ascii_decode_progress.
  - apply training_frame_wf. cbn. lia.
  - exact I.
  - exists c'. split; [exact E|]. split; [exact C|]. split; [exact A|].
    destruct A as (_ & _ & _ & n & _ & Hn & Ha).
    assert (n = 2%nat) as ->.
    { vm_compute in E. injection E as <-. vm_compute in Hn. lia. }
    apply (Ha 1 eq_refl); [cbn; lia|].
    constructor; cbn; try lia.
    + intros key f Hkey. rewrite fin_maps.lookup_empty in Hkey. discriminate.
    + intros k1 k2 f1 f2 _ Hkey. rewrite fin_maps.lookup_empty in Hkey. discriminate.
Defined.

(** ** C10: the digit run wraps *)

(** C10. The digit run of a token is accumulated in the 32-bit [num]: a
    token made of decimal digits only is read to its decimal value modulo
    [2^32].  So "4294967296", which is [2^32] and above every bound of the
    table, is read as 0 and gets the hour and minute features, and
    "4294967303", which is [2^32 + 7], is read as 7 and gets the hour,
    minute, day and month features. *)
Theorem number_time_value_wraps :
  (forall (s : string) (v : Z),
     s <> EmptyString -> decimal_value s 0 = Some v ->
     scan_digits s false 0 = (EmptyString, true, wrap32 v)) /\
  decimal_value "4294967296" 0 = Some (2 ^ 32) /\
  (exists c',
     number_time_value_process_sentence (training_frame ["4294967296"]) = Some c' /\
     emission_table c' numeric_keys = [["H"; "M"]] /\
     features (sentence c') = [[3; 8]]) /\
  decimal_value "4294967303" 0 = Some (2 ^ 32 + 7) /\
  (exists c',
     number_time_value_process_sentence (training_frame ["4294967303"]) = Some c' /\
     emission_table c' numeric_keys = [["H"; "M"; "d"; "m"]] /\
     features (sentence c') = [[3; 8; 18; 23]]).
Proof.
  split.
  { intros s v Hne Hv. rewrite <- (string_app_nil_r s) at 1.
    rewrite (scan_digits_decimal s 0 v EmptyString false 0 Hv);
      [|reflexivity|left; reflexivity].
    destruct s; [congruence|reflexivity]. }
  split; [reflexivity|].
  split; [eexists; split; [vm_compute; reflexivity|]; vm_compute; auto|].
  split; [reflexivity|].
  eexists. split; [vm_compute; reflexivity|]. vm_compute. auto.
Qed.
